(** * Slotted pages and benchmark harnesses of the toydb storage engine

    A shallow embedding of [toydb/tools/slot_page.c] (the slotted-page
    codec), of the record loader [student_store.c] and of the exit paths of
    [index_benchmark.c], followed by the properties of the storage-engine
    specification that concern them.

    Conventions of the embedding.
    - A page buffer (the [pageBuf] argument) is a list of bytes; offsets, lengths and
      slot ids are [Z], converted with the C conversions that the source
      performs ([to_short] for a store into a [short], [to_size_t] where an
      operand is compared with a [sizeof]).
    - The 16-bit fields are stored in host byte order; the embedding fixes
      little endian.
    - An access outside the buffer is undefined behaviour in C.  Here a read
      outside yields the zero byte and a write outside is dropped; every
      theorem below is stated for pages on which no such access happens.
    - [PF_PAGE_SIZE] comes from [pf.h], which is not part of the sources at
      hand: it is a parameter of the development. *)

From Stdlib Require Import ZArith Lia List.
From Stdlib.Strings Require Import Byte.
From stdpp Require Import base list.

Local Open Scope Z_scope.

(** ** C integer conversions and raw memory *)

Abbreviation page := (list byte).

(** Conversion of an [int] to [short] (two's complement wrap-around). *)
Definition to_short (z : Z) : Z := (z + 32768) mod 65536 - 32768.

(** Conversion of a signed operand to [size_t], as in [x < sizeof(T)]. *)
Definition to_size_t (z : Z) : Z := z mod 2 ^ 64.

Definition byte_of_Z (z : Z) : byte :=
  default x00 (Byte.of_N (Z.to_N (z mod 256))).

Definition Z_of_byte (b : byte) : Z := Z.of_N (Byte.to_N b).

Definition byte_at (buf : page) (i : Z) : byte :=
  default x00 (buf !! Z.to_nat i).

(** Read of the [short] stored at [buf + off]. *)
Definition load_short (buf : page) (off : Z) : Z :=
  to_short (Z_of_byte (byte_at buf off) + 256 * Z_of_byte (byte_at buf (off + 1))).

(** Write of the [short] [v] at [buf + off]. *)
Definition store_short (buf : page) (off v : Z) : page :=
  <[Z.to_nat off := byte_of_Z v]>
    (<[Z.to_nat (off + 1) := byte_of_Z (v / 256)]> buf).

(** The [len] bytes at [buf + off]. *)
Definition memread (buf : page) (off len : Z) : list byte :=
  take (Z.to_nat len) (drop (Z.to_nat off) buf).

(** [memset(buf, c, n)] *)
Definition memset (buf : page) (c : byte) (n : Z) : page :=
  list_inserts 0 (replicate (Z.to_nat n) c) buf.

(** [memcpy(buf + dest, data, len)]; [data] is outside the page. *)
Definition memcpy (buf : page) (dest : Z) (data : list byte) (len : Z) : page :=
  list_inserts (Z.to_nat dest) (take (Z.to_nat len) data) buf.

(** [memmove(buf + dest, buf + src, len)]: the source bytes are read before
    any byte is written, so overlapping ranges are handled. *)
Definition memmove (buf : page) (dest src len : Z) : page :=
  list_inserts (Z.to_nat dest) (memread buf src len) buf.

(** ** slot_page.h *)

Definition SP_OK : Z := 0.
Definition SP_ERR_NOSPACE : Z := -1.
Definition SP_ERR_INVALID_SLOT : Z := -2.
Definition SP_ERR_EMPTY : Z := -3.
Definition SP_INVALID_SLOT : Z := -1.

(** [sizeof(SP_PageHeader)]: four shorts. *)
Definition sizeof_SP_PageHeader : Z := 8.
(** [sizeof(SP_SlotEntry)]: two shorts. *)
Definition sizeof_SP_SlotEntry : Z := 4.

(** Fields of [SP_HEADER(pageBuf)]. *)
Definition hdr_slotCount (buf : page) : Z := load_short buf 0.
Definition hdr_freeListHead (buf : page) : Z := load_short buf 2.
Definition hdr_freePtr (buf : page) : Z := load_short buf 4.
Definition hdr_attrLength (buf : page) : Z := load_short buf 6.

Definition set_slotCount (buf : page) (v : Z) : page := store_short buf 0 v.
Definition set_freeListHead (buf : page) (v : Z) : page := store_short buf 2 v.
Definition set_freePtr (buf : page) (v : Z) : page := store_short buf 4 v.
Definition set_attrLength (buf : page) (v : Z) : page := store_short buf 6 v.

(** Byte offset of [SP_SLOT(pageBuf, idx)] in the page. *)
Definition SP_SLOT (idx : Z) : Z :=
  sizeof_SP_PageHeader + idx * sizeof_SP_SlotEntry.

Definition slot_offset (buf : page) (idx : Z) : Z := load_short buf (SP_SLOT idx).
Definition slot_length (buf : page) (idx : Z) : Z := load_short buf (SP_SLOT idx + 2).

Definition set_slot_offset (buf : page) (idx v : Z) : page :=
  store_short buf (SP_SLOT idx) v.
Definition set_slot_length (buf : page) (idx v : Z) : page :=
  store_short buf (SP_SLOT idx + 2) v.

(** [for (i = start; i < bound; i++)] over the slot directory, looking for
    the first slot with [length > 0]; [n] is the number of iterations left. *)
Fixpoint first_live (buf : page) (n : nat) (i : Z) : option Z :=
  match n with
  | O => None
  | S n' => if 0 <? slot_length buf i then Some i
            else first_live buf n' (i + 1)
  end.

(** [SP_PageFreeSpace].  The operands are shorts and small constants, so the
    [int] arithmetic of the source is exact. *)
Definition SP_PageFreeSpace (buf : page) : Z :=
  let slotBytes := hdr_slotCount buf * sizeof_SP_SlotEntry in
  let used := sizeof_SP_PageHeader + slotBytes in
  hdr_freePtr buf - used.

(** [SP_PageUsedBytes] *)
Fixpoint used_loop (buf : page) (n : nat) (i used : Z) : Z :=
  match n with
  | O => used
  | S n' =>
      used_loop buf n' (i + 1)
        (if 0 <? slot_length buf i then used + slot_length buf i else used)
  end.

Definition SP_PageUsedBytes (buf : page) : Z :=
  used_loop buf (Z.to_nat (hdr_slotCount buf)) 0 0.

(** [SP_DeleteRecord]: return code and page. *)
Definition SP_DeleteRecord (buf : page) (slotId : Z) : Z * page :=
  if (slotId <? 0) || (hdr_slotCount buf <=? slotId) then
    (SP_ERR_INVALID_SLOT, buf)
  else if slot_length buf slotId <=? 0 then
    (SP_ERR_INVALID_SLOT, buf)
  else
    let b1 := set_slot_length buf slotId (-1) in
    let b2 := set_slot_offset b1 slotId (hdr_freeListHead b1) in
    (SP_OK, set_freeListHead b2 slotId).

(** [SP_GetRecord]: return code and, on success, [*dataPtr] (as an offset
    into the page) and [*length]. *)
Definition SP_GetRecord (buf : page) (slotId : Z) : Z * option (Z * Z) :=
  if (slotId <? 0) || (hdr_slotCount buf <=? slotId) then
    (SP_ERR_INVALID_SLOT, None)
  else if slot_length buf slotId <=? 0 then
    (SP_ERR_INVALID_SLOT, None)
  else
    (SP_OK, Some (slot_offset buf slotId, slot_length buf slotId)).

(** The bytes a [(dataPtr, length)] pair returned by the codec designates. *)
Definition deref (buf : page) (ref : Z * Z) : list byte :=
  memread buf (fst ref) (snd ref).

(** [SP_GetNextRecord] with a non-null [cursor]: return code, new value of
    [*cursor], and on success [*dataPtr] and [*length]. *)
Definition SP_GetNextRecord (buf : page) (cursor : Z)
  : Z * Z * option (Z * Z) :=
  let start := to_short (if cursor <? 0 then 0 else cursor + 1) in
  match first_live buf (Z.to_nat (hdr_slotCount buf - start)) start with
  | Some i =>
      (SP_OK, to_short i, Some (slot_offset buf i, slot_length buf i))
  | None => (SP_ERR_EMPTY, -1, None)
  end.

(** *** SP_CompactPage *)

(** First loop: the ids of the live slots, in ascending order. *)
Fixpoint collect_live (buf : page) (n : nat) (i : Z) (order : list Z)
  : list Z :=
  match n with
  | O => order
  | S n' =>
      collect_live buf n' (i + 1)
        (if 0 <? slot_length buf i then order ++ [to_short i] else order)
  end.

(** Body of the inner loop of the sort: compare [order[i]] and [order[j]]
    by slot offset and swap them when the first is lower. *)
Definition sort_step (buf : page) (i j : nat) (order : list Z) : list Z :=
  match order !! i, order !! j with
  | Some oi, Some oj =>
      if slot_offset buf oi <? slot_offset buf oj
      then <[j := oi]> (<[i := oj]> order)
      else order
  | _, _ => order
  end.

(** [for (j = ...; j < active; j++)], [n] iterations left. *)
Fixpoint sort_inner (buf : page) (n : nat) (i j : nat) (order : list Z)
  : list Z :=
  match n with
  | O => order
  | S n' => sort_inner buf n' i (S j) (sort_step buf i j order)
  end.

(** [for (i = ...; i < active; i++)], [n] iterations left. *)
Fixpoint sort_outer (buf : page) (n : nat) (i : nat) (order : list Z)
  : list Z :=
  match n with
  | O => order
  | S n' =>
      sort_outer buf n' (S i)
        (sort_inner buf (length order - S i) i (S i) order)
  end.

(** Body of the third loop: move one record to the highest unused address. *)
Definition relocate (st : page * Z) (id : Z) : page * Z :=
  let '(buf, freePtr) := st in
  let freePtr := to_short (freePtr - slot_length buf id) in
  let freePtr :=
    if to_size_t freePtr <? sizeof_SP_PageHeader
    then sizeof_SP_PageHeader else freePtr in
  let buf :=
    if slot_offset buf id =? freePtr then buf
    else memmove buf freePtr (slot_offset buf id) (slot_length buf id) in
  (set_slot_offset buf id freePtr, freePtr).

Section Codec.

(** The page size of the paged-file layer ([pf.h]). *)
Variable PF_PAGE_SIZE : Z.

(** [SP_MAX_SLOTS]; the subtraction and the division are in [size_t]. *)
Definition SP_MAX_SLOTS : Z :=
  to_size_t (PF_PAGE_SIZE - sizeof_SP_PageHeader) / sizeof_SP_SlotEntry.

Definition SP_InitPage (pageBuf : page) : page :=
  let b := memset pageBuf x00 PF_PAGE_SIZE in
  let b := set_slotCount b 0 in
  let b := set_freeListHead b SP_INVALID_SLOT in
  let b := set_freePtr b (to_short PF_PAGE_SIZE) in
  set_attrLength b 0.

(** [SP_ReserveSlot]: the slot id (or [SP_ERR_NOSPACE]) and the page. *)
Definition SP_ReserveSlot (buf : page) : Z * page :=
  if negb (hdr_freeListHead buf =? SP_INVALID_SLOT) then
    let slotId := hdr_freeListHead buf in
    (slotId, set_freeListHead buf (slot_offset buf slotId))
  else if SP_MAX_SLOTS <=? to_size_t (hdr_slotCount buf) then
    (SP_ERR_NOSPACE, buf)
  else
    let slotId := hdr_slotCount buf in
    (slotId, set_slotCount buf (to_short (hdr_slotCount buf + 1))).

Definition SP_CompactPage (buf : page) : page :=
  let order := collect_live buf (Z.to_nat (hdr_slotCount buf)) 0 [] in
  let order := sort_outer buf (length order) 0 order in
  let '(buf', freePtr) :=
    fold_left relocate order (buf, to_short PF_PAGE_SIZE) in
  set_freePtr buf' freePtr.

Definition SP_EnsureSpace (buf : page) (neededBytes : Z) : Z * page :=
  if neededBytes <=? SP_PageFreeSpace buf then (SP_OK, buf)
  else
    let buf := SP_CompactPage buf in
    if neededBytes <=? SP_PageFreeSpace buf then (SP_OK, buf)
    else (SP_ERR_NOSPACE, buf).

(** [SP_InsertRecord]: return code, page, and the value stored through
    [slotId] when the call succeeds. *)
Definition SP_InsertRecord (buf : page) (data : list byte) (length : Z)
  : Z * page * option Z :=
  let needSlotBytes :=
    if hdr_freeListHead buf =? SP_INVALID_SLOT
    then sizeof_SP_SlotEntry else 0 in
  let needed := length + needSlotBytes in
  if length <=? 0 then (SP_ERR_NOSPACE, buf, None)
  else
    let '(rc, buf) := SP_EnsureSpace buf needed in
    if negb (rc =? SP_OK) then (SP_ERR_NOSPACE, buf, None)
    else
      let dest := to_short (hdr_freePtr buf - length) in
      if to_size_t dest <? sizeof_SP_PageHeader then
        (SP_ERR_NOSPACE, buf, None)
      else
        let buf := memcpy buf dest data length in
        let buf := set_freePtr buf dest in
        let '(id, buf) := SP_ReserveSlot buf in
        if id <? 0 then (id, buf, None)
        else
          let buf := set_slot_offset buf id dest in
          let buf := set_slot_length buf id length in
          (SP_OK, buf, Some (to_short id)).

End Codec.

(** ** The slotted-page invariants *)

(** Slot [i] is a directory entry of the page and holds a record. *)
Definition live (buf : page) (i : Z) : Prop :=
  0 <= i < hdr_slotCount buf /\ 0 < slot_length buf i.

(** First byte past the record of slot [i]. *)
Definition slot_end (buf : page) (i : Z) : Z :=
  slot_offset buf i + slot_length buf i.

(** The record of a slot, as [SP_GetRecord] designates it. *)
Definition record (buf : page) (i : Z) : list byte :=
  memread buf (slot_offset buf i) (slot_length buf i).

(** [free_chain buf h l]: following the tombstone chain from [h] through
    the offset fields visits exactly the slots [l], each a directory entry
    that holds no record, none twice, and ends at the sentinel. *)
Inductive free_chain (buf : page) : Z -> list Z -> Prop :=
| free_chain_nil : free_chain buf SP_INVALID_SLOT []
| free_chain_cons h l :
    0 <= h < hdr_slotCount buf ->
    slot_length buf h <= 0 ->
    h ∉ l ->
    free_chain buf (slot_offset buf h) l ->
    free_chain buf h (h :: l).

(** [packed len buf l top]: the records of the slots [l] lie back to back
    below [top], in that order; [pack_end] is the lowest address used. *)
Fixpoint packed (len : Z -> Z) (buf : page) (l : list Z) (top : Z) : Prop :=
  match l with
  | [] => True
  | s :: r =>
      slot_offset buf s = top - len s /\ packed len buf r (top - len s)
  end.

Fixpoint pack_end (len : Z -> Z) (l : list Z) (top : Z) : Z :=
  match l with
  | [] => top
  | s :: r => pack_end len r (top - len s)
  end.

(** [l] is ordered by descending record address, the records not
    overlapping. *)
Fixpoint descending (buf : page) (l : list Z) : Prop :=
  match l with
  | [] => True
  | t :: r =>
      (forall s, s ∈ r -> slot_end buf s <= slot_offset buf t) /\
      descending buf r
  end.

Section Invariant.

Variable PF_PAGE_SIZE : Z.

(** Layout of a page whose heap lies at or above [B]: the directory ends
    at or below [B], every record lies in [[B, PF_PAGE_SIZE)], and two
    records do not overlap. *)
Record sp_layout (B : Z) (buf : page) : Prop := {
  lay_length : Z.of_nat (length buf) = PF_PAGE_SIZE;
  lay_slotCount : 0 <= hdr_slotCount buf;
  lay_directory : SP_SLOT (hdr_slotCount buf) <= B;
  lay_top : B <= PF_PAGE_SIZE;
  lay_heap : forall i, live buf i ->
    B <= slot_offset buf i /\ slot_end buf i <= PF_PAGE_SIZE;
  lay_disjoint : forall i j, live buf i -> live buf j -> i <> j ->
    slot_end buf i <= slot_offset buf j \/
    slot_end buf j <= slot_offset buf i
}.

(** The invariants of a slotted page (data model, invariants 4 to 6),
    together with the well-formedness of the header they presuppose:
    the layout holds with the heap starting at [freePtr], and the
    tombstone chain is well formed. *)
Record sp_inv (buf : page) : Prop := {
  inv_layout : sp_layout (hdr_freePtr buf) buf;
  inv_chain : exists l, free_chain buf (hdr_freeListHead buf) l
}.

(** One call of the codec that may change the page. *)
Inductive sp_op :=
| OpInsert (data : list byte) (length : Z)
| OpDelete (slotId : Z).

Definition sp_step (buf : page) (op : sp_op) : page :=
  match op with
  | OpInsert data len => snd (fst (SP_InsertRecord PF_PAGE_SIZE buf data len))
  | OpDelete slotId => snd (SP_DeleteRecord buf slotId)
  end.

(** The page after a sequence of calls. *)
Definition sp_run (buf : page) (ops : list sp_op) : page :=
  fold_left sp_step ops buf.

End Invariant.

(** ** The paged-file layer, as the loader uses it *)

(** Modelled from the spec: the paged-file layer ([pf.c], [buf.c]) is not
    among the sources.  A file is an ordered sequence of pages; the loader
    never disposes of a page, so [allocPage] appends one and the page
    iterators visit the pages in order.  The calls complete synchronously and
    the in-memory model has no I/O failure.  A fetched buffer is a copy of the
    page; [unfixPage] with the dirty flag writes it back, and a clean frame is
    never written back. *)
Abbreviation PFfile := (list (list byte)).

Section Loader.

Variable PF_PAGE_SIZE : Z.

(** Modelled from the spec: [allocPage] returns the new page number and a
    pinned buffer of [PF_PAGE_SIZE] bytes whose contents are unspecified
    (zeros here; the callers initialise it). *)
Definition PF_AllocPage (f : PFfile) : Z * page * PFfile :=
  let buf := replicate (Z.to_nat PF_PAGE_SIZE) x00 in
  (Z.of_nat (length f), buf, f ++ [buf]).

(** Modelled from the spec: [getThisPage]; [None] stands for an error. *)
Definition PF_GetThisPage (f : PFfile) (pageNum : Z) : option page :=
  if pageNum <? 0 then None else f !! Z.to_nat pageNum.

(** Modelled from the spec: [unfixPage]. *)
Definition PF_UnfixPage (f : PFfile) (pageNum : Z) (buf : page)
    (dirty : bool) : PFfile :=
  if dirty then <[Z.to_nat pageNum := buf]> f else f.

(** Modelled from the spec: [getFirstPage] and [getNextPage]; [None] stands
    for the end-of-file result. *)
Definition PF_GetFirstPage (f : PFfile) : option (Z * page) :=
  match f !! 0%nat with
  | Some buf => Some (0, buf)
  | None => None
  end.

Definition PF_GetNextPage (f : PFfile) (pageNum : Z) : option (Z * page) :=
  match f !! Z.to_nat (pageNum + 1) with
  | Some buf => Some (pageNum + 1, buf)
  | None => None
  end.

(** ** student_store.c *)

Record StudentStore := mkStore {
  fd : Z;
  lastPage : Z;
  pageCount : Z;
  recordCount : Z
}.

(** Result of [insertRecord] when a paged-file call fails (not reachable
    in the in-memory model of the layer). *)
Definition PFE_FAIL : Z := -100.

(** [insertRecord]: return code, file and store. *)
Definition insertRecord (f : PFfile) (store : StudentStore)
    (data : list byte) (len : Z) : Z * PFfile * StudentStore :=
  let first :=
    if lastPage store <? 0 then
      let '(pageNum, pageBuf, f) := PF_AllocPage f in
      let pageBuf := SP_InitPage PF_PAGE_SIZE pageBuf in
      Some (pageNum, pageBuf, f,
            mkStore (fd store) pageNum (pageCount store + 1)
                    (recordCount store))
    else
      match PF_GetThisPage f (lastPage store) with
      | Some pageBuf => Some (lastPage store, pageBuf, f, store)
      | None => None
      end in
  match first with
  | None => (PFE_FAIL, f, store)
  | Some (pageNum, pageBuf, f, store) =>
      let '(rc, pageBuf, _) :=
        SP_InsertRecord PF_PAGE_SIZE pageBuf data len in
      if rc =? SP_OK then
        (SP_OK, PF_UnfixPage f pageNum pageBuf true,
         mkStore (fd store) (lastPage store) (pageCount store)
                 (recordCount store + 1))
      else
        (* page full - unfix and allocate new page *)
        let f := PF_UnfixPage f pageNum pageBuf false in
        let '(pageNum, pageBuf, f) := PF_AllocPage f in
        let pageBuf := SP_InitPage PF_PAGE_SIZE pageBuf in
        let '(rc, pageBuf, _) :=
          SP_InsertRecord PF_PAGE_SIZE pageBuf data len in
        if negb (rc =? SP_OK) then
          (rc, PF_UnfixPage f pageNum pageBuf false, store)
        else
          (SP_OK, PF_UnfixPage f pageNum pageBuf true,
           mkStore (fd store) pageNum (pageCount store + 1)
                   (recordCount store + 1))
  end.

(** The inner [while] of [deleteEvery] on one pinned page; [fuel] bounds
    the number of iterations and [None] means it ran out. *)
Fixpoint delete_scan (fuel : nat) (step : Z) (pageBuf : page)
    (cursor counter deleted : Z) (dirty : bool)
  : option (page * Z * Z * bool) :=
  match fuel with
  | O => None
  | S fuel =>
      let '(rc, cursor, _) := SP_GetNextRecord pageBuf cursor in
      if rc =? SP_OK then
        let counter := counter + 1 in
        if (0 <? step) && (Z.rem counter step =? 0) then
          let '(rc, pageBuf') := SP_DeleteRecord pageBuf cursor in
          if rc =? SP_OK then
            delete_scan fuel step pageBuf' cursor counter (deleted + 1) true
          else
            delete_scan fuel step pageBuf' cursor counter deleted dirty
        else
          delete_scan fuel step pageBuf cursor counter deleted dirty
      else Some (pageBuf, counter, deleted, dirty)
  end.

(** The outer [while (err == PFE_OK)] of [deleteEvery]; [cur] is the page
    delivered by the last iterator call. *)
Fixpoint delete_pages (fuel : nat) (step : Z) (f : PFfile)
    (cur : option (Z * page)) (counter deleted : Z)
  : option (Z * PFfile) :=
  match fuel with
  | O => None
  | S fuel' =>
      match cur with
      | None => Some (deleted, f)
      | Some (pageNum, pageBuf) =>
          match delete_scan fuel step pageBuf (-1) counter deleted false with
          | None => None
          | Some (pageBuf, counter, deleted, dirty) =>
              let f := PF_UnfixPage f pageNum pageBuf dirty in
              delete_pages fuel' step f (PF_GetNextPage f pageNum)
                           counter deleted
          end
      end
  end.

(** [deleteEvery]: the number of deleted records and the file. *)
Definition deleteEvery (fuel : nat) (f : PFfile) (step : Z)
  : option (Z * PFfile) :=
  delete_pages fuel step f (PF_GetFirstPage f) 0 0.

(** The inner [while] of [scanCount]. *)
Fixpoint count_scan (fuel : nat) (pageBuf : page) (cursor count : Z)
  : option Z :=
  match fuel with
  | O => None
  | S fuel =>
      let '(rc, cursor, _) := SP_GetNextRecord pageBuf cursor in
      if rc =? SP_OK then count_scan fuel pageBuf cursor (count + 1)
      else Some count
  end.

Fixpoint count_pages (fuel : nat) (f : PFfile) (cur : option (Z * page))
    (count : Z) : option Z :=
  match fuel with
  | O => None
  | S fuel' =>
      match cur with
      | None => Some count
      | Some (pageNum, pageBuf) =>
          match count_scan fuel pageBuf (-1) count with
          | None => None
          | Some count =>
              let f := PF_UnfixPage f pageNum pageBuf false in
              count_pages fuel' f (PF_GetNextPage f pageNum) count
          end
      end
  end.

(** [scanCount] *)
Definition scanCount (fuel : nat) (f : PFfile) : option Z :=
  count_pages fuel f (PF_GetFirstPage f) 0.

(** *** The line loop of [main] *)

(** [sizeof(line)] for [char line[4096]]. *)
Definition LINE_SIZE : Z := 4096.

(** The C library's [fgets] on a stream whose unread bytes are [fp]: it
    reads at most [n] bytes and stops after a line feed or at the end of
    the stream; the result is what it stored (before the terminating NUL)
    and the bytes left unread. *)
Fixpoint fgets_read (n : nat) (fp : list byte) : list byte * list byte :=
  match n with
  | O => ([], fp)
  | S n' =>
      match fp with
      | [] => ([], [])
      | c :: rest =>
          if Z_of_byte c =? 10 then ([c], rest)
          else let '(line, fp') := fgets_read n' rest in (c :: line, fp')
      end
  end.

(** [fgets(line, size, fp)]: [None] is the null pointer it returns at the
    end of the stream. *)
Definition fgets (size : Z) (fp : list byte)
  : option (list byte * list byte) :=
  match fp with
  | [] => None
  | _ => Some (fgets_read (Z.to_nat (size - 1)) fp)
  end.

(** [strlen] of the buffer that holds [s] followed by a NUL. *)
Fixpoint strlen (s : list byte) : nat :=
  match s with
  | [] => O
  | c :: rest => if Z_of_byte c =? 0 then O else S (strlen rest)
  end.

Definition is_eol (c : byte) : bool :=
  (Z_of_byte c =? 10) || (Z_of_byte c =? 13).

(** [isdigit] in the C locale. *)
Definition isdigit (c : byte) : bool :=
  (48 <=? Z_of_byte c) && (Z_of_byte c <=? 57).

(** [while (len>0 && (line[len-1]=='\n' || line[len-1]=='\r')) --len]:
    the resulting [len]. *)
Fixpoint strip_eol (line : list byte) (len : nat) : nat :=
  match len with
  | O => O
  | S len' =>
      if is_eol (byte_at line (Z.of_nat len')) then strip_eol line len'
      else len
  end.

(** What one iteration of the line loop does with the buffer [fgets]
    filled; [line] is what [fgets] stored before its terminating NUL. *)
Inductive LineAction :=
| Skip                                   (* continue *)
| TooLong                                (* Record too long: return 1 *)
| Pack (data : list byte) (len : Z).     (* insertRecord(&store,line,len) *)

Definition line_action (line : list byte) : LineAction :=
  let len := strip_eol line (strlen line) in
  let line := take len line in
  if (len =? 0)%nat then Skip
  else if negb (isdigit (byte_at line 0)) then Skip
  else if 32760 <=? Z.of_nat len then TooLong
  else Pack line (to_short (Z.of_nat len)).

(** The [while (fgets(line,sizeof(line),fp)!=NULL)] loop on the stream
    [fp]: either the exit code of an early [return], or the state after
    [fgets] has returned the null pointer.  [fuel] bounds the number of
    iterations and [None] means it ran out. *)
Fixpoint load_lines (fuel : nat) (f : PFfile) (store : StudentStore)
    (totalRecords totalBytes : Z) (fp : list byte)
  : option (Z + (PFfile * StudentStore * Z * Z)) :=
  match fuel with
  | O => None
  | S fuel' =>
      match fgets LINE_SIZE fp with
      | None => Some (inr (f, store, totalRecords, totalBytes))
      | Some (line, fp) =>
          match line_action line with
          | Skip => load_lines fuel' f store totalRecords totalBytes fp
          | TooLong => Some (inl 1)
          | Pack data len =>
              let '(rc, f, store) := insertRecord f store data len in
              if negb (rc =? SP_OK) then Some (inl 1)
              else load_lines fuel' f store (totalRecords + 1)
                              (totalBytes + Z.of_nat (length data)) fp
          end
      end
  end.

End Loader.

(** ** index_benchmark.c *)

Definition AME_OK : Z := 0.

(** Outcomes of the calls [buildIndex] makes into the access-method and
    paged-file layers. *)
Record BuildEnv := mkBuildEnv {
  AM_CreateIndex_rc : Z;
  build_PF_OpenFile_fd : Z;
  AM_InsertEntry_rcs : list Z      (* one per inserted record *)
}.

(** Outcomes of the calls [runQueries] makes. *)
Record QueryEnv := mkQueryEnv {
  query_PF_OpenFile_fd : Z;
  AM_OpenIndexScan_sds : list Z    (* one per query *)
}.

Fixpoint insert_loop (rcs : list Z) : Z :=
  match rcs with
  | [] => 0
  | err :: rest => if negb (err =? AME_OK) then -1 else insert_loop rest
  end.

(** [buildIndex]: 0 on success, -1 on error. *)
Definition buildIndex (e : BuildEnv) : Z :=
  if negb (AM_CreateIndex_rc e =? AME_OK) then -1
  else if build_PF_OpenFile_fd e <? 0 then -1
  else insert_loop (AM_InsertEntry_rcs e).

Fixpoint query_loop (sds : list Z) : Z :=
  match sds with
  | [] => 0
  | sd :: rest => if sd <? 0 then -1 else query_loop rest
  end.

(** [runQueries]: 0 on success, -1 on error. *)
Definition runQueries (e : QueryEnv) : Z :=
  if query_PF_OpenFile_fd e <? 0 then -1
  else query_loop (AM_OpenIndexScan_sds e).

(** What [main] of the index benchmark observes from its environment after
    the command line has been parsed. *)
Record IndexEnv := mkIndexEnv {
  have_dataPath : bool;
  loadRecords_rc : Z;
  loaded_recordCount : Z;
  copyRecords_ok : bool;           (* the three copies were allocated *)
  selectQueries_ok : bool;
  post_build : BuildEnv;  post_query : QueryEnv;
  inc_build : BuildEnv;   inc_query : QueryEnv;
  bulk_build : BuildEnv;  bulk_query : QueryEnv;
  index_writeMetrics_rc : Z
}.

(** Exit code of [main] of the index benchmark and the number of metric
    rows handed to [writeMetrics] ([None] when it is not called). *)
Definition index_benchmark_main (e : IndexEnv) : Z * option Z :=
  if negb (have_dataPath e) then (1, None)
  else if negb (loadRecords_rc e =? 0) then (1, None)
  else if loaded_recordCount e =? 0 then (1, None)
  else if negb (copyRecords_ok e) then (1, None)
  else if negb (selectQueries_ok e) then (1, None)
  else
    (* every [goto cleanup] below ends in the [return 0] after the label *)
    if negb (buildIndex (post_build e) =? 0) then (0, None)
    else if negb (runQueries (post_query e) =? 0) then (0, None)
    else if negb (buildIndex (inc_build e) =? 0) then (0, None)
    else if negb (runQueries (inc_query e) =? 0) then (0, None)
    else if negb (buildIndex (bulk_build e) =? 0) then (0, None)
    else if negb (runQueries (bulk_query e) =? 0) then (0, None)
    else (0, Some 6).

(** * Properties *)

(** ** Bytes and shorts *)

Lemma to_short_id z : -32768 <= z <= 32767 -> to_short z = z.
Proof.
  intros H. unfold to_short.
  rewrite Z.mod_small by lia. lia.
Qed.

Lemma to_short_range z : -32768 <= to_short z <= 32767.
Proof.
  unfold to_short.
  pose proof (Z.mod_pos_bound (z + 32768) 65536 ltac:(lia)). lia.
Qed.

Lemma to_size_t_id z : 0 <= z < 2 ^ 64 -> to_size_t z = z.
Proof. intros H. unfold to_size_t. now rewrite Z.mod_small. Qed.

Lemma Z_of_byte_range b : 0 <= Z_of_byte b < 256.
Proof.
  unfold Z_of_byte. pose proof (Byte.to_N_bounded b). lia.
Qed.

Lemma Z_of_byte_of_Z z : Z_of_byte (byte_of_Z z) = z mod 256.
Proof.
  unfold Z_of_byte, byte_of_Z.
  pose proof (Z.mod_pos_bound z 256 ltac:(lia)) as Hm.
  destruct (Byte.of_N (Z.to_N (z mod 256))) as [b|] eqn:E.
  - apply Byte.to_of_N in E. simpl. rewrite E. lia.
  - apply Byte.of_N_None_iff in E. lia.
Qed.

Lemma byte_of_Z_of_byte b : byte_of_Z (Z_of_byte b) = b.
Proof.
  unfold byte_of_Z. pose proof (Z_of_byte_range b) as Hr.
  rewrite Z.mod_small by lia. unfold Z_of_byte.
  rewrite N2Z.id, Byte.of_to_N. reflexivity.
Qed.

Lemma byte_of_Z_mod z : byte_of_Z (z mod 256) = byte_of_Z z.
Proof. unfold byte_of_Z. now rewrite Z.mod_mod by lia. Qed.

Lemma load_short_range buf off : -32768 <= load_short buf off <= 32767.
Proof. apply to_short_range. Qed.

(** Decoding the two bytes that encode a short gives the short back. *)
Lemma decode_encode v :
  -32768 <= v <= 32767 ->
  to_short (Z_of_byte (byte_of_Z v) + 256 * Z_of_byte (byte_of_Z (v / 256))) = v.
Proof.
  intros Hv. rewrite !Z_of_byte_of_Z. unfold to_short.
  assert (E : v mod 256 + 256 * ((v / 256) mod 256) = v mod 65536).
  { pose proof (Z.div_mod v 256 ltac:(lia)).
    pose proof (Z.div_mod (v / 256) 256 ltac:(lia)).
    pose proof (Z.mod_pos_bound v 256 ltac:(lia)).
    pose proof (Z.mod_pos_bound (v / 256) 256 ltac:(lia)).
    apply Z.mod_unique with (q := v / 256 / 256); lia. }
  rewrite E.
  rewrite Zplus_mod, Z.mod_mod, <- Zplus_mod by lia.
  rewrite Z.mod_small by lia. lia.
Qed.

(** Encoding what two bytes decode to gives the two bytes back. *)
Lemma encode_decode (lo hi : byte) :
  let v := to_short (Z_of_byte lo + 256 * Z_of_byte hi) in
  byte_of_Z v = lo /\ byte_of_Z (v / 256) = hi.
Proof.
  intros v.
  pose proof (Z_of_byte_range lo) as Hl. pose proof (Z_of_byte_range hi) as Hh.
  set (u := Z_of_byte lo + 256 * Z_of_byte hi) in *.
  assert (Hu : 0 <= u < 65536) by lia.
  assert (Hv : v = u \/ v = u - 65536).
  { unfold v, to_short.
    destruct (Z_lt_le_dec u 32768).
    - left. rewrite Z.mod_small by lia. lia.
    - right. replace (u + 32768) with ((u - 32768) + 1 * 65536) by lia.
      rewrite Z_mod_plus_full, Z.mod_small by lia. lia. }
  assert (Hlo : v mod 256 = Z_of_byte lo).
  { destruct Hv as [-> | ->].
    - symmetry. apply Z.mod_unique with (q := Z_of_byte hi); lia.
    - symmetry. apply Z.mod_unique with (q := Z_of_byte hi - 256); lia. }
  assert (Hhi : (v / 256) mod 256 = Z_of_byte hi).
  { destruct Hv as [-> | ->].
    - replace (u / 256) with (Z_of_byte hi).
      + apply Z.mod_small; lia.
      + apply Z.div_unique with (r := Z_of_byte lo); lia.
    - replace ((u - 65536) / 256) with (Z_of_byte hi - 256).
      + symmetry. apply Z.mod_unique with (q := -1); lia.
      + apply Z.div_unique with (r := Z_of_byte lo); lia. }
  split.
  - rewrite <- byte_of_Z_mod, Hlo. apply byte_of_Z_of_byte.
  - rewrite <- byte_of_Z_mod, Hhi. apply byte_of_Z_of_byte.
Qed.

(** ** Frames: which bytes a write may change *)

(** [b'] has the length of [b] and differs from it at most at the offsets
    in [[lo, hi)]. *)
Definition writes_within (b b' : page) (lo hi : Z) : Prop :=
  length b' = length b /\
  forall i : nat, ~ (lo <= Z.of_nat i < hi) -> b' !! i = b !! i.

Lemma writes_within_refl b lo hi : writes_within b b lo hi.
Proof. split; auto. Qed.

Lemma writes_within_weaken b b' lo hi lo' hi' :
  writes_within b b' lo hi -> lo' <= lo -> hi <= hi' ->
  writes_within b b' lo' hi'.
Proof.
  intros [Hl Hw] ? ?. split; [exact Hl|].
  intros i Hi. apply Hw. lia.
Qed.

Lemma writes_within_trans b1 b2 b3 lo hi :
  writes_within b1 b2 lo hi -> writes_within b2 b3 lo hi ->
  writes_within b1 b3 lo hi.
Proof.
  intros [Hl1 Hw1] [Hl2 Hw2]. split; [congruence|].
  intros i Hi. rewrite Hw2, Hw1; auto.
Qed.

Lemma store_short_within buf off v :
  0 <= off -> writes_within buf (store_short buf off v) off (off + 2).
Proof.
  intros Hoff. unfold store_short. split.
  - now rewrite !length_insert.
  - intros i Hi. rewrite !list_lookup_insert_ne by lia. reflexivity.
Qed.

Lemma list_inserts_within buf dest (k : list byte) :
  0 <= dest ->
  writes_within buf (list_inserts (Z.to_nat dest) k buf)
                dest (dest + Z.of_nat (length k)).
Proof.
  intros Hd. split.
  - apply length_inserts.
  - intros i Hi.
    destruct (Z_lt_le_dec (Z.of_nat i) dest).
    + apply list_lookup_inserts_lt. lia.
    + apply list_lookup_inserts_ge. lia.
Qed.

Lemma byte_at_frame b b' lo hi i :
  writes_within b b' lo hi -> 0 <= i -> ~ (lo <= i < hi) ->
  byte_at b' i = byte_at b i.
Proof.
  intros [_ Hw] Hi Hout. unfold byte_at. rewrite Hw; [reflexivity|]. lia.
Qed.

Lemma load_short_frame b b' lo hi off :
  writes_within b b' lo hi -> 0 <= off -> off + 2 <= lo \/ hi <= off ->
  load_short b' off = load_short b off.
Proof.
  intros Hw Hoff Hd. unfold load_short.
  rewrite !(byte_at_frame b b' lo hi) by (auto; lia). reflexivity.
Qed.

Lemma memread_frame b b' lo hi off len :
  writes_within b b' lo hi -> 0 <= off -> off + len <= lo \/ hi <= off ->
  memread b' off len = memread b off len.
Proof.
  intros [Hl Hw] Hoff Hd. unfold memread.
  apply list_eq. intros i.
  rewrite !lookup_take, !lookup_drop.
  destruct (decide (i < Z.to_nat len)%nat); [|reflexivity].
  apply Hw. lia.
Qed.

Lemma load_store_short buf off v :
  0 <= off -> off + 2 <= Z.of_nat (length buf) -> -32768 <= v <= 32767 ->
  load_short (store_short buf off v) off = v.
Proof.
  intros Hoff Hlen Hv. unfold load_short, store_short, byte_at.
  rewrite list_lookup_insert_eq by (rewrite length_insert; lia).
  rewrite list_lookup_insert_ne by lia.
  rewrite list_lookup_insert_eq by lia.
  simpl. now apply decode_encode.
Qed.

Lemma store_load_short buf off :
  0 <= off -> off + 2 <= Z.of_nat (length buf) ->
  store_short buf off (load_short buf off) = buf.
Proof.
  intros Hoff Hlen. unfold store_short, load_short.
  destruct (encode_decode (byte_at buf off) (byte_at buf (off + 1)))
    as [-> ->].
  unfold byte_at.
  destruct (lookup_lt_is_Some_2 buf (Z.to_nat off)) as [x Hx]; [lia|].
  destruct (lookup_lt_is_Some_2 buf (Z.to_nat (off + 1))) as [y Hy]; [lia|].
  rewrite Hx, Hy. simpl.
  rewrite (list_insert_id buf (Z.to_nat (off + 1)) y Hy).
  now rewrite list_insert_id.
Qed.

Lemma memread_length buf off len :
  0 <= off -> 0 <= len -> off + len <= Z.of_nat (length buf) ->
  Z.of_nat (length (memread buf off len)) = len.
Proof.
  intros. unfold memread. rewrite length_take, length_drop. lia.
Qed.

Lemma memread_inserts buf dest (k : list byte) :
  0 <= dest -> dest + Z.of_nat (length k) <= Z.of_nat (length buf) ->
  memread (list_inserts (Z.to_nat dest) k buf) dest (Z.of_nat (length k)) = k.
Proof.
  intros Hd Hfit. unfold memread. apply list_eq. intros i.
  rewrite lookup_take, lookup_drop, Nat2Z.id.
  destruct (decide (i < length k)%nat) as [Hi|Hi].
  - rewrite list_lookup_inserts by lia.
    f_equal. lia.
  - symmetry. apply lookup_ge_None. lia.
Qed.

(** ** Header and slot fields under a write *)

Lemma header_frame b b' lo hi :
  writes_within b b' lo hi -> sizeof_SP_PageHeader <= lo ->
  hdr_slotCount b' = hdr_slotCount b /\
  hdr_freeListHead b' = hdr_freeListHead b /\
  hdr_freePtr b' = hdr_freePtr b.
Proof.
  unfold sizeof_SP_PageHeader, hdr_slotCount, hdr_freeListHead, hdr_freePtr.
  intros Hw Hlo.
  repeat split; apply (load_short_frame b b' lo hi); auto; lia.
Qed.

Lemma slot_frame b b' lo hi i :
  writes_within b b' lo hi -> 0 <= i ->
  SP_SLOT (i + 1) <= lo \/ hi <= SP_SLOT i ->
  slot_offset b' i = slot_offset b i /\ slot_length b' i = slot_length b i.
Proof.
  unfold slot_offset, slot_length, SP_SLOT, sizeof_SP_PageHeader,
    sizeof_SP_SlotEntry.
  intros Hw Hi Hd.
  split; apply (load_short_frame b b' lo hi); auto; lia.
Qed.

Lemma record_frame b b' lo hi off len :
  writes_within b b' lo hi -> 0 <= off -> off + len <= lo \/ hi <= off ->
  memread b' off len = memread b off len.
Proof. apply memread_frame. Qed.

Lemma set_slot_offset_within buf i v :
  0 <= i ->
  writes_within buf (set_slot_offset buf i v) (SP_SLOT i) (SP_SLOT i + 2).
Proof.
  intros Hi. apply store_short_within.
  unfold SP_SLOT, sizeof_SP_PageHeader, sizeof_SP_SlotEntry. lia.
Qed.

Lemma set_slot_length_within buf i v :
  0 <= i ->
  writes_within buf (set_slot_length buf i v) (SP_SLOT i + 2) (SP_SLOT (i + 1)).
Proof.
  intros Hi.
  replace (SP_SLOT (i + 1)) with (SP_SLOT i + 2 + 2)
    by (unfold SP_SLOT, sizeof_SP_SlotEntry; lia).
  apply store_short_within.
  unfold SP_SLOT, sizeof_SP_PageHeader, sizeof_SP_SlotEntry. lia.
Qed.

Lemma slot_offset_set_same buf i v :
  0 <= i -> SP_SLOT (i + 1) <= Z.of_nat (length buf) ->
  -32768 <= v <= 32767 ->
  slot_offset (set_slot_offset buf i v) i = v /\
  slot_length (set_slot_offset buf i v) i = slot_length buf i.
Proof.
  unfold slot_offset, slot_length, set_slot_offset, SP_SLOT,
    sizeof_SP_PageHeader, sizeof_SP_SlotEntry.
  intros Hi Hlen Hv. split.
  - apply load_store_short; lia.
  - eapply load_short_frame; [apply store_short_within| |]; lia.
Qed.

Lemma slot_length_set_same buf i v :
  0 <= i -> SP_SLOT (i + 1) <= Z.of_nat (length buf) ->
  -32768 <= v <= 32767 ->
  slot_length (set_slot_length buf i v) i = v /\
  slot_offset (set_slot_length buf i v) i = slot_offset buf i.
Proof.
  unfold slot_offset, slot_length, set_slot_length, SP_SLOT,
    sizeof_SP_PageHeader, sizeof_SP_SlotEntry.
  intros Hi Hlen Hv. split.
  - apply load_store_short; lia.
  - eapply load_short_frame; [apply store_short_within| |]; lia.
Qed.

Lemma slot_range buf i :
  -32768 <= slot_offset buf i <= 32767 /\ -32768 <= slot_length buf i <= 32767.
Proof. split; apply load_short_range. Qed.

(** The tombstone chain only depends on the slot count and on the entries
    of the slots it visits. *)
Lemma free_chain_frame b b' h l :
  free_chain b h l ->
  hdr_slotCount b <= hdr_slotCount b' ->
  (forall s, s ∈ l -> slot_offset b' s = slot_offset b s /\
                      slot_length b' s = slot_length b s) ->
  free_chain b' h l.
Proof.
  intros Hc Hsc. induction Hc as [|h l Hh Hlen Hnin Hc IH]; intros Hsame.
  - constructor.
  - destruct (Hsame h) as [Ho Hl]; [apply elem_of_cons; auto|].
    constructor; try lia; auto.
    rewrite Ho. apply IH. intros s Hs. apply Hsame, elem_of_cons. auto.
Qed.

Lemma free_chain_dead b h l s : free_chain b h l -> s ∈ l ->
  0 <= s < hdr_slotCount b /\ slot_length b s <= 0.
Proof.
  induction 1 as [|h l Hh Hlen Hnin Hc IH]; intros Hs.
  - now apply elem_of_nil in Hs.
  - apply elem_of_cons in Hs as [-> | Hs]; auto.
Qed.

Lemma free_chain_head b h l : free_chain b h l ->
  (h = SP_INVALID_SLOT /\ l = []) \/
  (exists r, l = h :: r /\ 0 <= h < hdr_slotCount b).
Proof. destruct 1; eauto. Qed.

(** ** The sort of [SP_CompactPage] *)

(** [l] is ordered by strictly decreasing slot offset. *)
Fixpoint offsets_strict (buf : page) (l : list Z) : Prop :=
  match l with
  | [] => True
  | t :: r =>
      (forall s, s ∈ r -> slot_offset buf s < slot_offset buf t) /\
      offsets_strict buf r
  end.

(** [l] is ordered by non-increasing slot offset. *)
Fixpoint offsets_sorted (buf : page) (l : list Z) : Prop :=
  match l with
  | [] => True
  | t :: r =>
      (forall s, s ∈ r -> slot_offset buf s <= slot_offset buf t) /\
      offsets_sorted buf r
  end.

Lemma swap_middle (pre done t : list Z) (x y : Z) :
  <[S (length pre + length done) := x]>
    (<[length pre := y]> (pre ++ x :: done ++ y :: t))
  = pre ++ y :: done ++ x :: t.
Proof.
  induction pre as [|p pre IH]; simpl.
  - f_equal. induction done as [|d done IHd]; simpl; [reflexivity|].
    f_equal. exact IHd.
  - f_equal. exact IH.
Qed.

Lemma lookup_second (pre done t : list Z) (x y : Z) :
  (pre ++ x :: done ++ y :: t) !! S (length pre + length done) = Some y.
Proof.
  induction pre as [|p pre IH]; simpl; [|exact IH].
  induction done as [|d done IHd]; simpl; [reflexivity|exact IHd].
Qed.

(** One pass of the inner loop brings a slot of highest offset to
    position [i] and permutes the rest. *)
Lemma sort_inner_spec buf (pre : list Z) :
  forall (todo done : list Z) (x : Z),
  exists m todo',
    sort_inner buf (length todo) (length pre) (S (length pre + length done))
               (pre ++ x :: done ++ todo)
    = pre ++ m :: done ++ todo' /\
    Permutation (m :: todo') (x :: todo) /\
    (forall z, z ∈ x :: todo -> slot_offset buf z <= slot_offset buf m).
Proof.
  induction todo as [|y t IH]; intros done x.
  - exists x, []. simpl. repeat split; auto.
    intros z Hz. apply list_elem_of_singleton in Hz. subst. lia.
  - cbn [length sort_inner]. unfold sort_step.
    rewrite list_lookup_middle by reflexivity.
    rewrite lookup_second.
    destruct (slot_offset buf x <? slot_offset buf y) eqn:E.
    + apply Z.ltb_lt in E.
      rewrite swap_middle.
      destruct (IH (done ++ [x]) y) as (m & t' & Heq & Hperm & Hmax).
      exists m, (x :: t').
      rewrite length_app in Heq. simpl in Heq.
      replace (S (length pre + (length done + 1)))
        with (S (S (length pre + length done))) in Heq by lia.
      rewrite <- !app_assoc in Heq. simpl in Heq.
      split; [exact Heq|]. split.
      * transitivity (x :: m :: t'); [apply Permutation_swap|].
        rewrite Hperm. reflexivity.
      * intros z Hz. apply elem_of_cons in Hz as [-> | Hz].
        -- specialize (Hmax y ltac:(apply elem_of_cons; auto)). lia.
        -- auto.
    + apply Z.ltb_ge in E.
      destruct (IH (done ++ [y]) x) as (m & t' & Heq & Hperm & Hmax).
      exists m, (y :: t').
      rewrite length_app in Heq. simpl in Heq.
      replace (S (length pre + (length done + 1)))
        with (S (S (length pre + length done))) in Heq by lia.
      rewrite <- !app_assoc in Heq. simpl in Heq.
      split; [exact Heq|]. split.
      * transitivity (y :: m :: t'); [apply Permutation_swap|].
        rewrite Hperm. apply Permutation_swap.
      * intros z Hz. apply elem_of_cons in Hz as [-> | Hz].
        -- apply Hmax, elem_of_cons; auto.
        -- apply elem_of_cons in Hz as [-> | Hz].
           ++ specialize (Hmax x ltac:(apply elem_of_cons; auto)). lia.
           ++ apply Hmax, elem_of_cons; auto.
Qed.

Lemma sort_outer_spec buf (n : nat) :
  forall (pre rest : list Z), length rest = n ->
  exists rest',
    sort_outer buf n (length pre) (pre ++ rest) = pre ++ rest' /\
    Permutation rest' rest /\ offsets_sorted buf rest'.
Proof.
  induction n as [|n IH]; intros pre rest Hlen.
  - destruct rest; [|discriminate]. exists []. simpl. auto.
  - destruct rest as [|x todo]; [discriminate|].
    injection Hlen as Hlen. cbn [sort_outer].
    destruct (sort_inner_spec buf pre todo [] x)
      as (m & todo' & Heq & Hperm & Hmax).
    simpl in Heq.
    replace (length (pre ++ x :: todo) - S (length pre))%nat
      with (length todo) by (rewrite length_app; simpl; lia).
    replace (length pre + 0)%nat with (length pre) in Heq by lia.
    rewrite Heq.
    assert (Hlen' : length todo' = n).
    { apply Permutation_length in Hperm. simpl in Hperm. lia. }
    destruct (IH (pre ++ [m]) todo' Hlen') as (r & Hr & Hpr & Hsr).
    rewrite length_app in Hr. simpl in Hr.
    replace (length pre + 1)%nat with (S (length pre)) in Hr by lia.
    rewrite <- app_assoc in Hr. simpl in Hr.
    exists (m :: r). rewrite Hr, <- app_assoc. simpl.
    split; [reflexivity|]. split.
    + rewrite Hpr. exact Hperm.
    + split; [|exact Hsr].
      intros s Hs. apply Hmax.
      rewrite <- Hperm. apply elem_of_cons. right. now rewrite <- Hpr.
Qed.

(** The sort returns a permutation of its input ordered by non-increasing
    slot offset. *)
Lemma sort_outer_sorted buf (order : list Z) :
  let order' := sort_outer buf (length order) 0 order in
  Permutation order' order /\ offsets_sorted buf order'.
Proof.
  destruct (sort_outer_spec buf (length order) [] order eq_refl)
    as (r & Hr & Hp & Hs).
  simpl in Hr. simpl. rewrite Hr. auto.
Qed.

(** A list ordered by strictly decreasing offset is the only ordered
    arrangement of its elements. *)
Lemma sorted_unique buf (l1 : list Z) :
  forall l2,
  Permutation l1 l2 -> offsets_strict buf l1 -> offsets_sorted buf l2 ->
  l1 = l2.
Proof.
  induction l1 as [|a r1 IH]; intros l2 Hp Hs Hw.
  - apply Permutation_nil in Hp. now subst.
  - destruct l2 as [|b r2].
    { symmetry in Hp. now apply Permutation_nil in Hp. }
    destruct Hs as [Ha Hs]. destruct Hw as [Hb Hw].
    assert (b = a) as ->.
    { assert (Hbin : b ∈ a :: r1) by (rewrite Hp; apply elem_of_cons; auto).
      assert (Hain : a ∈ b :: r2) by (rewrite <- Hp; apply elem_of_cons; auto).
      apply elem_of_cons in Hbin as [-> | Hbin]; [reflexivity|].
      apply elem_of_cons in Hain as [-> | Hain]; [reflexivity|].
      specialize (Ha b Hbin). specialize (Hb a Hain). lia. }
    f_equal. apply IH; auto.
    now apply Permutation_cons_inv in Hp.
Qed.

(** ** The first loop of [SP_CompactPage] *)

Lemma collect_live_ext b b' n :
  forall i acc,
  (forall s, i <= s < i + Z.of_nat n -> slot_length b' s = slot_length b s) ->
  collect_live b' n i acc = collect_live b n i acc.
Proof.
  induction n as [|n IH]; intros i acc Hsame; simpl; [reflexivity|].
  rewrite (Hsame i) by lia. apply IH. intros s Hs. apply Hsame. lia.
Qed.

Lemma collect_live_elem buf n :
  forall i acc s,
  0 <= i -> i + Z.of_nat n <= 32768 ->
  s ∈ collect_live buf n i acc <->
  s ∈ acc \/ (i <= s < i + Z.of_nat n /\ 0 < slot_length buf s).
Proof.
  induction n as [|n IH]; intros i acc s Hi Hn; simpl.
  - split; [auto|]. intros [H|H]; [exact H|lia].
  - rewrite IH by lia.
    destruct (0 <? slot_length buf i) eqn:E.
    + apply Z.ltb_lt in E. rewrite to_short_id by lia.
      rewrite elem_of_app, list_elem_of_singleton.
      split.
      * intros [[H| ->]|H]; [auto| right; lia | right; lia].
      * intros [H|[H1 H2]]; [auto|].
        destruct (Z.eq_dec s i); [auto|right; lia].
    + apply Z.ltb_ge in E.
      split.
      * intros [H|H]; [auto|right; lia].
      * intros [H|[H1 H2]]; [auto|].
        right. split; [|exact H2].
        destruct (Z.eq_dec s i); [subst; lia|lia].
Qed.

Lemma collect_live_NoDup buf n :
  forall i acc,
  0 <= i -> i + Z.of_nat n <= 32768 ->
  NoDup acc -> (forall s, s ∈ acc -> s < i) ->
  NoDup (collect_live buf n i acc).
Proof.
  induction n as [|n IH]; intros i acc Hi Hn Hnd Hlt; simpl; [exact Hnd|].
  apply IH; try lia.
  - destruct (0 <? slot_length buf i); [|exact Hnd].
    rewrite to_short_id by lia.
    apply NoDup_app. split; [exact Hnd|]. split.
    + intros x Hx Hx'. apply list_elem_of_singleton in Hx'. subst.
      specialize (Hlt _ Hx). lia.
    + apply NoDup_singleton.
  - intros s Hs. destruct (0 <? slot_length buf i).
    + rewrite to_short_id in Hs by lia.
      apply elem_of_app in Hs as [Hs|Hs].
      * specialize (Hlt _ Hs). lia.
      * apply list_elem_of_singleton in Hs. lia.
    + specialize (Hlt _ Hs). lia.
Qed.

(** ** Packed records *)

Lemma pack_end_app len l t top :
  pack_end len (l ++ [t]) top = pack_end len l top - len t.
Proof.
  revert top. induction l as [|s l IH]; intros top; simpl; [reflexivity|].
  apply IH.
Qed.

Lemma packed_app len buf l t top :
  packed len buf (l ++ [t]) top <->
  packed len buf l top /\ slot_offset buf t = pack_end len l top - len t.
Proof.
  revert top. induction l as [|s l IH]; intros top; simpl.
  - tauto.
  - rewrite IH. tauto.
Qed.

Lemma packed_frame len b b' l top :
  (forall s, s ∈ l -> slot_offset b' s = slot_offset b s) ->
  packed len b l top -> packed len b' l top.
Proof.
  revert top. induction l as [|s l IH]; intros top Hsame; simpl; [auto|].
  intros [H1 H2]. split.
  - rewrite Hsame; [exact H1|apply list_elem_of_here].
  - apply IH; [|exact H2]. intros x Hx. apply Hsame.
    now apply list_elem_of_further.
Qed.

Lemma pack_end_le len l top :
  (forall s, s ∈ l -> 0 < len s) -> pack_end len l top <= top.
Proof.
  revert top. induction l as [|s l IH]; intros top Hpos; simpl; [lia|].
  specialize (IH (top - len s)
    ltac:(intros x Hx; apply Hpos; now apply list_elem_of_further)).
  specialize (Hpos s (list_elem_of_here _ _)). lia.
Qed.

(** Packed records lie between the end of the packing and its top. *)
Lemma packed_bounds len buf l top s :
  (forall x, x ∈ l -> 0 < len x) ->
  packed len buf l top -> s ∈ l ->
  pack_end len l top <= slot_offset buf s /\ slot_offset buf s + len s <= top.
Proof.
  revert top. induction l as [|a l IH]; intros top Hpos Hp Hs.
  - now apply elem_of_nil in Hs.
  - simpl in Hp. destruct Hp as [Ha Hp]. simpl.
    assert (Hpos' : forall x, x ∈ l -> 0 < len x)
      by (intros x Hx; apply Hpos; now apply list_elem_of_further).
    pose proof (pack_end_le len l (top - len a) Hpos') as Hle.
    pose proof (Hpos a (list_elem_of_here _ _)) as Hpa.
    apply elem_of_cons in Hs as [-> | Hs].
    + lia.
    + destruct (IH _ Hpos' Hp Hs). lia.
Qed.

(** Packed records are ordered by strictly decreasing offset. *)
Lemma packed_strict len buf l top :
  (forall x, x ∈ l -> 0 < len x) ->
  packed len buf l top -> offsets_strict buf l.
Proof.
  revert top. induction l as [|a l IH]; intros top Hpos Hp; simpl; [auto|].
  simpl in Hp. destruct Hp as [Ha Hp].
  assert (Hpos' : forall x, x ∈ l -> 0 < len x)
    by (intros x Hx; apply Hpos; now apply list_elem_of_further).
  split; [|eapply IH; eauto].
  intros s Hs.
  destruct (packed_bounds len buf l _ s Hpos' Hp Hs) as [_ H].
  specialize (Hpos' s Hs). lia.
Qed.

(** Two distinct packed records do not overlap. *)
Lemma packed_disjoint len buf l top i j :
  (forall x, x ∈ l -> 0 < len x) -> NoDup l ->
  packed len buf l top -> i ∈ l -> j ∈ l -> i <> j ->
  slot_offset buf i + len i <= slot_offset buf j \/
  slot_offset buf j + len j <= slot_offset buf i.
Proof.
  revert top. induction l as [|a l IH]; intros top Hpos Hnd Hp Hi Hj Hne.
  - now apply elem_of_nil in Hi.
  - simpl in Hp. destruct Hp as [Ha Hp].
    apply NoDup_cons in Hnd as [Hnin Hnd].
    assert (Hpos' : forall x, x ∈ l -> 0 < len x)
      by (intros x Hx; apply Hpos; now apply list_elem_of_further).
    apply elem_of_cons in Hi as [-> | Hi];
      apply elem_of_cons in Hj as [-> | Hj].
    + congruence.
    + right. destruct (packed_bounds len buf l _ j Hpos' Hp Hj). lia.
    + left. destruct (packed_bounds len buf l _ i Hpos' Hp Hi). lia.
    + eapply IH; eauto.
Qed.

(** ** The relocation loop of [SP_CompactPage] *)

Lemma to_size_t_small z : 0 <= z <= 32767 -> to_size_t z = z.
Proof.
  intros H. unfold to_size_t. apply Z.mod_small.
  change (2 ^ 64) with 18446744073709551616. lia.
Qed.

Lemma relocate_eq b fp t :
  8 <= fp - slot_length b t <= 32767 ->
  relocate (b, fp) t =
  (set_slot_offset
     (if slot_offset b t =? fp - slot_length b t then b
      else memmove b (fp - slot_length b t) (slot_offset b t)
                   (slot_length b t))
     t (fp - slot_length b t),
   fp - slot_length b t).
Proof.
  intros H. unfold relocate.
  rewrite to_short_id by lia.
  rewrite to_size_t_small by lia.
  unfold sizeof_SP_PageHeader.
  destruct (fp - slot_length b t <? 8) eqn:E;
    [apply Z.ltb_lt in E; lia|reflexivity].
Qed.

Lemma SP_SLOT_mono i j : i <= j -> SP_SLOT i <= SP_SLOT j.
Proof. unfold SP_SLOT, sizeof_SP_SlotEntry. lia. Qed.

Lemma SP_SLOT_succ i : SP_SLOT (i + 1) = SP_SLOT i + 4.
Proof. unfold SP_SLOT, sizeof_SP_SlotEntry. lia. Qed.

Lemma SP_SLOT_lower i : 0 <= i -> 8 <= SP_SLOT i.
Proof. unfold SP_SLOT, sizeof_SP_SlotEntry, sizeof_SP_PageHeader. lia. Qed.

Section Relocation.

Variable PF_PAGE_SIZE : Z.
Hypothesis page_size_ok : 8 <= PF_PAGE_SIZE <= 32767.

(** The page before compaction, and a lower bound [B] of its heap. *)
Variable buf0 : page.
Variable B : Z.
Hypothesis buf0_length : Z.of_nat (length buf0) = PF_PAGE_SIZE.
Hypothesis buf0_count : 0 <= hdr_slotCount buf0.
Hypothesis B_bounds : SP_SLOT (hdr_slotCount buf0) <= B <= PF_PAGE_SIZE.
Hypothesis buf0_heap : forall s, live buf0 s ->
  B <= slot_offset buf0 s /\ slot_end buf0 s <= PF_PAGE_SIZE.

(** State of the loop after the slots [done] have been moved. *)
Record reloc_inv (done : list Z) (b : page) (fp : Z) : Prop := {
  ri_within : writes_within buf0 b 8 PF_PAGE_SIZE;
  ri_length : forall s, 0 <= s < hdr_slotCount buf0 ->
    slot_length b s = slot_length buf0 s;
  ri_other : forall s, 0 <= s < hdr_slotCount buf0 -> s ∉ done ->
    slot_offset b s = slot_offset buf0 s;
  ri_done : forall s, s ∈ done ->
    memread b (slot_offset b s) (slot_length buf0 s) = record buf0 s;
  ri_packed : packed (slot_length buf0) b done PF_PAGE_SIZE;
  ri_fp : fp = pack_end (slot_length buf0) done PF_PAGE_SIZE;
  ri_bound : B <= fp <= PF_PAGE_SIZE
}.

Lemma reloc_inv_init : reloc_inv [] buf0 PF_PAGE_SIZE.
Proof.
  constructor; simpl; auto; try lia.
  apply writes_within_refl.
Qed.

Lemma reloc_step done b fp t :
  reloc_inv done b fp ->
  (forall s, s ∈ done -> live buf0 s) ->
  live buf0 t -> t ∉ done ->
  slot_end buf0 t <= fp ->
  memread b (slot_offset buf0 t) (slot_length buf0 t) = record buf0 t ->
  exists b',
    relocate (b, fp) t = (b', fp - slot_length buf0 t) /\
    reloc_inv (done ++ [t]) b' (fp - slot_length buf0 t) /\
    writes_within b b' (SP_SLOT t) fp /\
    (forall off len, B <= off -> off + len <= fp - slot_length buf0 t ->
       memread b' off len = memread b off len).
Proof.
  intros Hinv Hdone [Ht Hlt] Hnin Hend Hrec.
  destruct Hinv as [Hw Hlen Hoth Hdn Hpk Hfp Hbd].
  destruct (buf0_heap t (conj Ht Hlt)) as [HBt Htop].
  unfold slot_end in *.
  set (L := slot_length buf0 t) in *. set (O := slot_offset buf0 t) in *.
  pose proof (SP_SLOT_mono (t + 1) (hdr_slotCount buf0) ltac:(lia)) as Hm.
  pose proof (SP_SLOT_succ t) as Hsu.
  pose proof (SP_SLOT_lower t ltac:(lia)) as Hlo.
  assert (Hbl : Z.of_nat (length b) = PF_PAGE_SIZE)
    by (destruct Hw as [-> _]; exact buf0_length).
  rewrite relocate_eq by (rewrite (Hlen t Ht); fold L; lia).
  rewrite (Hlen t Ht), (Hoth t Ht Hnin). fold L O.
  set (fp1 := fp - L).
  set (b1 := if O =? fp1 then b else memmove b fp1 O L).
  assert (W1 : writes_within b b1 fp1 fp /\
               memread b1 fp1 L = memread b O L).
  { unfold b1. destruct (O =? fp1) eqn:E.
    - apply Z.eqb_eq in E. rewrite E.
      split; [apply writes_within_refl|reflexivity].
    - unfold memmove.
      pose proof (memread_length b O L ltac:(lia) ltac:(lia) ltac:(lia))
        as Hk.
      split.
      + replace fp with (fp1 + Z.of_nat (length (memread b O L)))
          by (unfold fp1; lia).
        apply list_inserts_within. unfold fp1. lia.
      + rewrite <- Hk at 2. apply memread_inserts; unfold fp1; lia. }
  destruct W1 as [W1 R1].
  assert (Hb1l : Z.of_nat (length b1) = PF_PAGE_SIZE)
    by (destruct W1 as [-> _]; exact Hbl).
  pose proof (set_slot_offset_within b1 t fp1 ltac:(lia)) as W2.
  set (b2 := set_slot_offset b1 t fp1) in *.
  destruct (slot_offset_set_same b1 t fp1 ltac:(lia) ltac:(lia)
              ltac:(unfold fp1; lia)) as [Hoff2 _].
  fold b2 in Hoff2.
  assert (W12 : writes_within b b2 (SP_SLOT t) fp).
  { eapply writes_within_trans.
    - eapply writes_within_weaken; [exact W1| |]; unfold fp1; lia.
    - eapply writes_within_weaken; [exact W2| |]; unfold fp1; lia. }
  assert (Hframe : forall off len, B <= off -> off + len <= fp1 ->
            memread b2 off len = memread b off len).
  { intros off len Ho Hl.
    rewrite (memread_frame b1 b2 _ _ off len W2) by lia.
    apply (memread_frame b b1 _ _ off len W1); lia. }
  exists b2. split; [reflexivity|]. split; [|split; [exact W12|exact Hframe]].
  assert (Hsl : forall s, 0 <= s < hdr_slotCount buf0 ->
            slot_length b2 s = slot_length b s).
  { intros s Hs.
    pose proof (SP_SLOT_mono (s + 1) (hdr_slotCount buf0) ltac:(lia)).
    pose proof (SP_SLOT_succ s).
    unfold slot_length.
    rewrite (load_short_frame b1 b2 _ _ _ W2).
    - apply (load_short_frame b b1 _ _ _ W1).
      + pose proof (SP_SLOT_lower s ltac:(lia)). lia.
      + unfold fp1. lia.
    - pose proof (SP_SLOT_lower s ltac:(lia)). lia.
    - destruct (Z_lt_le_dec s t).
      + left. pose proof (SP_SLOT_mono (s + 1) t ltac:(lia)). lia.
      + right. pose proof (SP_SLOT_mono t s ltac:(lia)). lia. }
  assert (Hso : forall s, 0 <= s < hdr_slotCount buf0 -> s <> t ->
            slot_offset b2 s = slot_offset b s).
  { intros s Hs Hne.
    pose proof (SP_SLOT_mono (s + 1) (hdr_slotCount buf0) ltac:(lia)).
    pose proof (SP_SLOT_succ s).
    destruct (slot_frame b1 b2 _ _ s W2 ltac:(lia)) as [-> _].
    - destruct (Z_lt_le_dec s t).
      + left. pose proof (SP_SLOT_mono (s + 1) t ltac:(lia)). lia.
      + right. pose proof (SP_SLOT_mono (t + 1) s ltac:(lia)). lia.
    - destruct (slot_frame b b1 _ _ s W1 ltac:(lia)) as [-> _];
        [unfold fp1; lia|reflexivity]. }
  constructor.
  - eapply writes_within_trans; [exact Hw|].
    eapply writes_within_weaken; [exact W12| |]; lia.
  - intros s Hs. rewrite Hsl by auto. auto.
  - intros s Hs Hn. rewrite not_elem_of_app in Hn. destruct Hn as [Hn Hn'].
    rewrite list_elem_of_singleton in Hn'.
    rewrite Hso by auto. auto.
  - intros s Hs. apply elem_of_app in Hs as [Hs| Hs].
    + destruct (Hdone s Hs) as [Hs1 Hs2].
      assert (s <> t) by (intros ->; contradiction).
      rewrite Hso by auto.
      destruct (packed_bounds (slot_length buf0) b done PF_PAGE_SIZE s)
        as [Hp1 Hp2]; auto.
      { intros x Hx. apply Hdone in Hx. apply Hx. }
      rewrite <- (Hdn s Hs).
      rewrite (memread_frame b1 b2 _ _ _ _ W2) by lia.
      apply (memread_frame b b1 _ _ _ _ W1); lia.
    + apply list_elem_of_singleton in Hs. subst s.
      rewrite Hoff2. fold L.
      rewrite (memread_frame b1 b2 _ _ _ _ W2) by (unfold fp1; lia).
      rewrite R1. exact Hrec.
  - apply packed_app. split.
    + eapply packed_frame; [|exact Hpk].
      intros s Hs. destruct (Hdone s Hs) as [Hs1 _].
      apply Hso; auto. intros ->. contradiction.
    + rewrite Hoff2. unfold fp1. fold L. lia.
  - rewrite pack_end_app. fold L. lia.
  - unfold fp1. lia.
Qed.

(** The whole loop, over slots ordered by descending record address. *)
Lemma reloc_loop (todo : list Z) :
  forall done b fp,
  reloc_inv done b fp ->
  (forall s, s ∈ done ++ todo -> live buf0 s) ->
  NoDup (done ++ todo) ->
  descending buf0 todo ->
  (forall s, s ∈ todo -> slot_end buf0 s <= fp) ->
  (forall s, s ∈ todo ->
     memread b (slot_offset buf0 s) (slot_length buf0 s) = record buf0 s) ->
  exists b' fp',
    fold_left relocate todo (b, fp) = (b', fp') /\
    reloc_inv (done ++ todo) b' fp'.
Proof.
  induction todo as [|t rest IH]; intros done b fp Hinv Hlive Hnd Hdesc Hend Hrec.
  - exists b, fp. rewrite app_nil_r. auto.
  - cbn [fold_left].
    assert (Hlt : live buf0 t)
      by (apply Hlive, elem_of_app; right; apply list_elem_of_here).
    assert (Hnin : t ∉ done).
    { apply NoDup_app in Hnd as (_ & Hx & _). intros Hin.
      apply (Hx t Hin). apply list_elem_of_here. }
    destruct (reloc_step done b fp t Hinv) as (b' & Heq & Hinv' & W & Hfr);
      auto.
    { intros s Hs. apply Hlive, elem_of_app. auto. }
    { apply Hend, list_elem_of_here. }
    { apply Hrec, list_elem_of_here. }
    rewrite Heq.
    destruct Hdesc as [Hd1 Hd2].
    destruct (buf0_heap t Hlt) as [HBt _].
    pose proof (Hend t (list_elem_of_here _ _)) as Hendt.
    unfold slot_end in *.
    destruct (IH (done ++ [t]) b' (fp - slot_length buf0 t)) as (b2 & fp2 & E2 & I2);
      auto.
    + intros s Hs. apply Hlive. rewrite <- app_assoc in Hs. exact Hs.
    + rewrite <- app_assoc. exact Hnd.
    + intros s Hs. specialize (Hd1 s Hs). lia.
    + intros s Hs.
      assert (Hls : live buf0 s).
      { apply Hlive, elem_of_app. right. now apply list_elem_of_further. }
      destruct (buf0_heap s Hls) as [HBs _].
      rewrite Hfr.
      * apply Hrec. now apply list_elem_of_further.
      * exact HBs.
      * specialize (Hd1 s Hs). lia.
    + exists b2, fp2. rewrite <- app_assoc in I2. auto.
Qed.

End Relocation.

(** ** Compaction *)

(** On a page whose records are already packed the relocation loop moves
    nothing. *)
Lemma relocate_packed_id (l : list Z) :
  forall b top,
  packed (slot_length b) b l top ->
  (forall s, s ∈ l -> 0 <= s /\ SP_SLOT (s + 1) <= Z.of_nat (length b) /\
                      8 <= slot_offset b s) ->
  fold_left relocate l (b, top) = (b, pack_end (slot_length b) l top).
Proof.
  induction l as [|s l IH]; intros b top Hp Hok; [reflexivity|].
  cbn [fold_left pack_end]. destruct Hp as [Hs Hp].
  destruct (Hok s (list_elem_of_here _ _)) as (Hs0 & Hsl & Hs8).
  pose proof (slot_range b s) as [Hr _].
  rewrite relocate_eq by lia.
  rewrite <- Hs, Z.eqb_refl.
  unfold set_slot_offset, slot_offset.
  rewrite store_load_short.
  - fold (slot_offset b s). rewrite Hs. apply IH; [exact Hp|].
    intros x Hx. apply Hok. now apply list_elem_of_further.
  - unfold SP_SLOT, sizeof_SP_PageHeader, sizeof_SP_SlotEntry. lia.
  - unfold SP_SLOT, sizeof_SP_PageHeader, sizeof_SP_SlotEntry in *. lia.
Qed.

Lemma packed_len_ext len len' buf l top :
  (forall s, s ∈ l -> len' s = len s) ->
  packed len buf l top -> packed len' buf l top.
Proof.
  revert top. induction l as [|s l IH]; intros top Hsame; simpl; [auto|].
  rewrite (Hsame s (list_elem_of_here _ _)).
  intros [H1 H2]. split; [exact H1|].
  apply IH; [|exact H2]. intros x Hx. apply Hsame.
  now apply list_elem_of_further.
Qed.

Lemma pack_end_len_ext len len' l top :
  (forall s, s ∈ l -> len' s = len s) ->
  pack_end len' l top = pack_end len l top.
Proof.
  revert top. induction l as [|s l IH]; intros top Hsame; simpl; [auto|].
  rewrite (Hsame s (list_elem_of_here _ _)).
  apply IH. intros x Hx. apply Hsame. now apply list_elem_of_further.
Qed.

Section Compaction.

Variable PF_PAGE_SIZE : Z.
Hypothesis page_size_ok : 8 <= PF_PAGE_SIZE <= 32767.

Local Abbreviation compact := (SP_CompactPage PF_PAGE_SIZE).
Local Abbreviation layout := (sp_layout PF_PAGE_SIZE).

(** The slot ids collected by the first loop. *)
Definition live_ids (buf : page) : list Z :=
  collect_live buf (Z.to_nat (hdr_slotCount buf)) 0 [].

Lemma live_ids_elem buf s : s ∈ live_ids buf <-> live buf s.
Proof.
  unfold live_ids, live.
  pose proof (load_short_range buf 0) as Hr. fold (hdr_slotCount buf) in Hr.
  rewrite collect_live_elem by lia.
  rewrite elem_of_nil. split.
  - intros [[]|[H1 H2]]. split; [lia|exact H2].
  - intros [H1 H2]. right. split; [lia|exact H2].
Qed.

Lemma live_ids_NoDup buf : NoDup (live_ids buf).
Proof.
  unfold live_ids.
  pose proof (load_short_range buf 0) as Hr. fold (hdr_slotCount buf) in Hr.
  apply collect_live_NoDup; try lia.
  - apply NoDup_nil_2.
  - intros s Hs. now apply elem_of_nil in Hs.
Qed.

(** Sorted by offset, distinct live slots of a laid-out page are in
    descending address order. *)
Lemma sorted_descending buf B (l : list Z) :
  layout B buf ->
  (forall s, s ∈ l -> live buf s) -> NoDup l ->
  offsets_sorted buf l -> descending buf l.
Proof.
  intros Hlay. induction l as [|t r IH]; intros Hlive Hnd Hs; simpl; [auto|].
  destruct Hs as [Hs1 Hs2]. apply NoDup_cons in Hnd as [Hnin Hnd].
  split.
  - intros s Hs.
    assert (Hls : live buf s) by (apply Hlive; now apply list_elem_of_further).
    assert (Hlt : live buf t) by (apply Hlive, list_elem_of_here).
    assert (s <> t) by (intros ->; contradiction).
    destruct (lay_disjoint _ _ _ Hlay s t Hls Hlt ltac:(auto)) as [H'|H'];
      [exact H'|].
    specialize (Hs1 s Hs). unfold slot_end in *.
    destruct Hlt as [_ Hlt]. lia.
  - apply IH; auto. intros s Hs. apply Hlive. now apply list_elem_of_further.
Qed.

(** What compaction does to a laid-out page. *)
Record compacted (B : Z) (buf buf' : page) (order : list Z) : Prop := {
  cp_order : Permutation order (live_ids buf);
  cp_within : writes_within buf buf' 4 PF_PAGE_SIZE;
  cp_slotCount : hdr_slotCount buf' = hdr_slotCount buf;
  cp_freeListHead : hdr_freeListHead buf' = hdr_freeListHead buf;
  cp_freePtr :
    hdr_freePtr buf' = pack_end (slot_length buf) order PF_PAGE_SIZE;
  cp_bound : B <= hdr_freePtr buf' <= PF_PAGE_SIZE;
  cp_length : forall s, 0 <= s < hdr_slotCount buf ->
    slot_length buf' s = slot_length buf s;
  cp_dead : forall s, 0 <= s < hdr_slotCount buf -> ~ live buf s ->
    slot_offset buf' s = slot_offset buf s;
  cp_record : forall s, live buf s -> record buf' s = record buf s;
  cp_packed : packed (slot_length buf) buf' order PF_PAGE_SIZE
}.

Lemma compact_compacted buf B :
  layout B buf -> exists order, compacted B buf (compact buf) order.
Proof.
  intros Hlay. pose proof Hlay as [Hlen Hsc Hdir Htop Hheap Hdisj].
  unfold SP_CompactPage. fold (live_ids buf).
  destruct (sort_outer_sorted buf (live_ids buf)) as [Hperm Hsorted].
  set (order := sort_outer buf (length (live_ids buf)) 0 (live_ids buf)) in *.
  assert (Hlive : forall s, s ∈ order -> live buf s).
  { intros s Hs. apply live_ids_elem. now rewrite <- Hperm. }
  assert (Hnd : NoDup order).
  { rewrite Hperm. apply live_ids_NoDup. }
  rewrite (to_short_id PF_PAGE_SIZE) by lia.
  destruct (reloc_loop PF_PAGE_SIZE page_size_ok buf B Hlen
              (conj Hdir Htop) Hheap order [] buf PF_PAGE_SIZE)
    as (bE & fpE & Heq & [Hw Hl Hoth Hdn Hpk Hfp Hbd]); simpl; auto.
  { apply reloc_inv_init. lia. }
  { eapply sorted_descending; eauto. }
  { intros s Hs. apply Hheap. auto. }
  simpl in *. rewrite Heq.
  exists order.
  pose proof (store_short_within bE 4 fpE ltac:(lia)) as W.
  fold (set_freePtr bE fpE) in W. simpl in W.
  assert (HlE : Z.of_nat (length bE) = PF_PAGE_SIZE)
    by (destruct Hw as [-> _]; exact Hlen).
  destruct (header_frame buf bE _ _ Hw ltac:(unfold sizeof_SP_PageHeader; lia))
    as (Hc1 & Hc2 & Hc3).
  pose proof (SP_SLOT_lower (hdr_slotCount buf) Hsc) as Hlow.
  constructor.
  - exact Hperm.
  - eapply writes_within_trans.
    + eapply writes_within_weaken; [exact Hw| |]; lia.
    + eapply writes_within_weaken; [exact W| |]; lia.
  - rewrite <- Hc1. unfold hdr_slotCount.
    apply (load_short_frame bE _ _ _ _ W); lia.
  - rewrite <- Hc2. unfold hdr_freeListHead.
    apply (load_short_frame bE _ _ _ _ W); lia.
  - rewrite <- Hfp. unfold hdr_freePtr, set_freePtr.
    apply load_store_short; lia.
  - replace (hdr_freePtr (set_freePtr bE fpE)) with fpE; [exact Hbd|].
    symmetry. apply load_store_short; lia.
  - intros s Hs.
    destruct (slot_frame bE _ _ _ s W ltac:(lia)) as [_ ->]; auto.
    right. pose proof (SP_SLOT_lower s ltac:(lia)). lia.
  - intros s Hs Hdead.
    destruct (slot_frame bE _ _ _ s W ltac:(lia)) as [-> _].
    + right. pose proof (SP_SLOT_lower s ltac:(lia)). lia.
    + apply Hoth; auto; intros Hin; apply Hdead; auto.
  - intros s Hs. pose proof Hs as [Hs1 Hs2].
    assert (Hin : s ∈ order) by (rewrite Hperm; now apply live_ids_elem).
    unfold record at 1.
    destruct (slot_frame bE _ _ _ s W ltac:(lia)) as [-> ->].
    + right. pose proof (SP_SLOT_lower s ltac:(lia)). lia.
    + rewrite (Hl s Hs1). rewrite <- (Hdn s Hin).
      destruct (packed_bounds (slot_length buf) bE order PF_PAGE_SIZE s)
        as [Hp1 Hp2]; auto.
      { intros x Hx. apply Hlive in Hx. apply Hx. }
      apply (memread_frame bE _ _ _ _ _ W); lia.
  - eapply packed_frame; [|exact Hpk].
    intros s Hs. destruct (Hlive s Hs) as [Hs1 _].
    destruct (slot_frame bE _ _ _ s W ltac:(lia)) as [-> _]; auto.
    right. pose proof (SP_SLOT_lower s ltac:(lia)). lia.
Qed.

Lemma compacted_live B buf buf' order s :
  compacted B buf buf' order -> live buf' s <-> live buf s.
Proof.
  intros C. unfold live. rewrite (cp_slotCount _ _ _ _ C).
  split; intros [H1 H2]; split; auto.
  - now rewrite <- (cp_length _ _ _ _ C s H1).
  - now rewrite (cp_length _ _ _ _ C s H1).
Qed.

Lemma compacted_in_order B buf buf' order s :
  compacted B buf buf' order -> s ∈ order <-> live buf s.
Proof. intros C. rewrite (cp_order _ _ _ _ C). apply live_ids_elem. Qed.

(** Compaction keeps the layout, with the heap now starting at the new
    [freePtr]. *)
Lemma compacted_layout B buf buf' order :
  layout B buf -> compacted B buf buf' order ->
  layout (hdr_freePtr buf') buf'.
Proof.
  intros Hlay C. pose proof Hlay as [Hlen Hsc Hdir Htop Hheap Hdisj].
  pose proof (cp_bound _ _ _ _ C) as Hb.
  assert (Hpos : forall x, x ∈ order -> 0 < slot_length buf x).
  { intros x Hx. apply (compacted_in_order _ _ _ _ _ C) in Hx. apply Hx. }
  assert (Hnd : NoDup order).
  { rewrite (cp_order _ _ _ _ C). apply live_ids_NoDup. }
  constructor.
  - destruct (cp_within _ _ _ _ C) as [-> _]. exact Hlen.
  - now rewrite (cp_slotCount _ _ _ _ C).
  - rewrite (cp_slotCount _ _ _ _ C). lia.
  - lia.
  - intros i Hi. apply (compacted_live _ _ _ _ _ C) in Hi.
    pose proof Hi as [Hi1 Hi2].
    apply (compacted_in_order _ _ _ _ _ C) in Hi.
    destruct (packed_bounds _ _ _ _ i Hpos (cp_packed _ _ _ _ C) Hi).
    unfold slot_end. rewrite (cp_length _ _ _ _ C i Hi1).
    rewrite (cp_freePtr _ _ _ _ C). lia.
  - intros i j Hi Hj Hne.
    apply (compacted_live _ _ _ _ _ C) in Hi, Hj.
    pose proof Hi as [Hi1 _]. pose proof Hj as [Hj1 _].
    apply (compacted_in_order _ _ _ _ _ C) in Hi, Hj.
    unfold slot_end.
    rewrite (cp_length _ _ _ _ C i Hi1), (cp_length _ _ _ _ C j Hj1).
    eapply packed_disjoint; eauto. apply (cp_packed _ _ _ _ C).
Qed.

Lemma compacted_chain B buf buf' order h l :
  compacted B buf buf' order -> free_chain buf h l -> free_chain buf' h l.
Proof.
  intros C Hc. eapply free_chain_frame; [exact Hc| |].
  - rewrite (cp_slotCount _ _ _ _ C). lia.
  - intros s Hs. destruct (free_chain_dead _ _ _ _ Hc Hs) as [H1 H2].
    split.
    + apply (cp_dead _ _ _ _ C); auto. intros [_ H]. lia.
    + apply (cp_length _ _ _ _ C); auto.
Qed.

Lemma compact_inv buf : sp_inv PF_PAGE_SIZE buf -> sp_inv PF_PAGE_SIZE (compact buf).
Proof.
  intros [Hlay [l Hc]].
  destruct (compact_compacted buf _ Hlay) as [order C].
  constructor.
  - eapply compacted_layout; eauto.
  - exists l. rewrite (cp_freeListHead _ _ _ _ C).
    eapply compacted_chain; eauto.
Qed.

(** Compacting a compacted page changes nothing. *)
Lemma compact_twice buf B :
  layout B buf -> compact (compact buf) = compact buf.
Proof.
  intros Hlay.
  destruct (compact_compacted buf B Hlay) as [order C].
  pose proof (compacted_layout _ _ _ _ Hlay C) as Hlay'.
  set (buf' := compact buf) in *.
  pose proof Hlay' as [Hlen' Hsc' Hdir' Htop' Hheap' Hdisj'].
  assert (Hids : live_ids buf' = live_ids buf).
  { unfold live_ids. rewrite (cp_slotCount _ _ _ _ C).
    apply collect_live_ext. intros s Hs. apply (cp_length _ _ _ _ C). lia. }
  assert (Hpos : forall x, x ∈ order -> 0 < slot_length buf x).
  { intros x Hx. apply (compacted_in_order _ _ _ _ _ C) in Hx. apply Hx. }
  assert (Hlen_same : forall s, s ∈ order ->
            slot_length buf' s = slot_length buf s).
  { intros s Hs. apply (compacted_in_order _ _ _ _ _ C) in Hs.
    apply (cp_length _ _ _ _ C), Hs. }
  unfold SP_CompactPage at 1. fold (live_ids buf'). rewrite Hids.
  destruct (sort_outer_sorted buf' (live_ids buf)) as [Hperm Hsorted].
  set (order2 := sort_outer buf' (length (live_ids buf)) 0 (live_ids buf)) in *.
  assert (order = order2) as <-.
  { apply (sorted_unique buf'); auto.
    - rewrite Hperm. apply (cp_order _ _ _ _ C).
    - eapply packed_strict; [exact Hpos|apply (cp_packed _ _ _ _ C)]. }
  rewrite (to_short_id PF_PAGE_SIZE) by lia.
  rewrite relocate_packed_id.
  - rewrite (pack_end_len_ext (slot_length buf)) by exact Hlen_same.
    rewrite <- (cp_freePtr _ _ _ _ C).
    unfold set_freePtr, hdr_freePtr. apply store_load_short; lia.
  - apply (packed_len_ext (slot_length buf)); [exact Hlen_same|].
    apply (cp_packed _ _ _ _ C).
  - intros s Hs.
    apply (compacted_in_order _ _ _ _ _ C) in Hs.
    apply (compacted_live _ _ _ _ _ C) in Hs.
    pose proof Hs as [Hs1 Hs2].
    destruct (Hheap' s Hs) as [Hh1 Hh2].
    pose proof (SP_SLOT_mono (s + 1) (hdr_slotCount buf') ltac:(lia)).
    pose proof (SP_SLOT_lower (hdr_slotCount buf') Hsc').
    repeat split; lia.
Qed.

End Compaction.

(** ** Initialisation and deletion *)

Ltac unfold_fields :=
  unfold live, slot_end, record, slot_offset, slot_length, hdr_slotCount,
    hdr_freeListHead, hdr_freePtr, set_slot_offset, set_slot_length,
    set_slotCount, set_freeListHead, set_freePtr, set_attrLength,
    SP_SLOT, sizeof_SP_PageHeader, sizeof_SP_SlotEntry, SP_INVALID_SLOT in *.

(** Push a read of the buffer [b'] back through the write that made it,
    when the read is outside the written range. *)
Ltac frame_step :=
  match goal with
  | W : writes_within ?b ?b' _ _ |- context [load_short ?b' ?a] =>
      rewrite (load_short_frame b b' _ _ a W) by lia
  | W : writes_within ?b ?b' _ _ |- context [memread ?b' ?a ?n] =>
      rewrite (memread_frame b b' _ _ a n W) by lia
  end.
Ltac frames := repeat frame_step.

Lemma writes_within_length b b' lo hi n :
  writes_within b b' lo hi -> Z.of_nat (length b) = n ->
  Z.of_nat (length b') = n.
Proof. intros [-> _]. auto. Qed.

Section Operations.

Variable PF_PAGE_SIZE : Z.
Hypothesis page_size_ok : 8 <= PF_PAGE_SIZE <= 32767.

Local Abbreviation inv := (sp_inv PF_PAGE_SIZE).
Local Abbreviation layout := (sp_layout PF_PAGE_SIZE).
Local Abbreviation init := (SP_InitPage PF_PAGE_SIZE).
Local Abbreviation insert := (SP_InsertRecord PF_PAGE_SIZE).
Local Abbreviation compact := (SP_CompactPage PF_PAGE_SIZE).

Lemma init_header pageBuf :
  Z.of_nat (length pageBuf) = PF_PAGE_SIZE ->
  Z.of_nat (length (init pageBuf)) = PF_PAGE_SIZE /\
  hdr_slotCount (init pageBuf) = 0 /\
  hdr_freeListHead (init pageBuf) = SP_INVALID_SLOT /\
  hdr_freePtr (init pageBuf) = PF_PAGE_SIZE.
Proof.
  intros Hlen. unfold SP_InitPage.
  rewrite (to_short_id PF_PAGE_SIZE) by lia.
  set (b0 := memset pageBuf x00 PF_PAGE_SIZE).
  assert (L0 : Z.of_nat (length b0) = PF_PAGE_SIZE)
    by (unfold b0, memset; rewrite length_inserts; exact Hlen).
  unfold_fields.
  pose proof (store_short_within b0 0 0 ltac:(lia)) as W1.
  set (b1 := store_short b0 0 0) in *.
  pose proof (writes_within_length _ _ _ _ _ W1 L0) as L1.
  pose proof (store_short_within b1 2 (-1) ltac:(lia)) as W2.
  set (b2 := store_short b1 2 (-1)) in *.
  pose proof (writes_within_length _ _ _ _ _ W2 L1) as L2.
  pose proof (store_short_within b2 4 PF_PAGE_SIZE ltac:(lia)) as W3.
  set (b3 := store_short b2 4 PF_PAGE_SIZE) in *.
  pose proof (writes_within_length _ _ _ _ _ W3 L2) as L3.
  pose proof (store_short_within b3 6 0 ltac:(lia)) as W4.
  set (b4 := store_short b3 6 0) in *.
  pose proof (writes_within_length _ _ _ _ _ W4 L3) as L4.
  repeat split.
  - exact L4.
  - frames. unfold b1. apply load_store_short; lia.
  - frames. unfold b2. apply load_store_short; lia.
  - frames. unfold b3. apply load_store_short; lia.
Qed.

Lemma init_inv pageBuf :
  Z.of_nat (length pageBuf) = PF_PAGE_SIZE -> inv (init pageBuf).
Proof.
  intros Hlen. destruct (init_header pageBuf Hlen) as (L & Hc & Hh & Hf).
  constructor; [constructor|].
  - exact L.
  - lia.
  - rewrite Hc, Hf. unfold_fields. lia.
  - lia.
  - intros i [Hi _]. lia.
  - intros i j [Hi _]. lia.
  - exists []. rewrite Hh. constructor.
Qed.

(** Effect of a successful [SP_DeleteRecord]. *)
Record deleted (buf buf' : page) (s : Z) : Prop := {
  del_length : length buf' = length buf;
  del_slotCount : hdr_slotCount buf' = hdr_slotCount buf;
  del_freePtr : hdr_freePtr buf' = hdr_freePtr buf;
  del_freeListHead : hdr_freeListHead buf' = s;
  del_slot_length : slot_length buf' s = -1;
  del_slot_offset : slot_offset buf' s = hdr_freeListHead buf;
  del_others : forall i, 0 <= i -> i <> s ->
    slot_offset buf' i = slot_offset buf i /\
    slot_length buf' i = slot_length buf i;
  del_heap : forall off len, SP_SLOT (s + 1) <= off ->
    memread buf' off len = memread buf off len
}.

Lemma delete_ok buf s :
  SP_SLOT (hdr_slotCount buf) <= Z.of_nat (length buf) ->
  live buf s ->
  exists buf', SP_DeleteRecord buf s = (SP_OK, buf') /\ deleted buf buf' s.
Proof.
  intros Hfit [Hs Hl]. unfold SP_DeleteRecord.
  destruct (s <? 0) eqn:E1; [apply Z.ltb_lt in E1; lia|].
  destruct (hdr_slotCount buf <=? s) eqn:E2; [apply Z.leb_le in E2; lia|].
  destruct (slot_length buf s <=? 0) eqn:E3; [apply Z.leb_le in E3; lia|].
  simpl. eexists. split; [reflexivity|].
  pose proof (load_short_range buf 0) as Hr.
  pose proof (load_short_range buf 2) as Hr2.
  unfold_fields.
  pose proof (store_short_within buf (8 + s * 4 + 2) (-1) ltac:(lia)) as W1.
  set (b1 := store_short buf (8 + s * 4 + 2) (-1)) in *.
  pose proof (store_short_within b1 (8 + s * 4) (load_short b1 2) ltac:(lia))
    as W2.
  set (b2 := store_short b1 (8 + s * 4) (load_short b1 2)) in *.
  pose proof (store_short_within b2 2 s ltac:(lia)) as W3.
  set (b3 := store_short b2 2 s) in *.
  assert (L1 : length b1 = length buf) by apply W1.
  assert (L2 : length b2 = length buf) by (destruct W2 as [-> _]; exact L1).
  constructor; unfold_fields.
  - destruct W3 as [-> _]. exact L2.
  - now frames.
  - now frames.
  - unfold b3. apply load_store_short; lia.
  - frames. unfold b1. apply load_store_short; lia.
  - frames. unfold b2. rewrite load_store_short; try lia.
    + now frames.
    + apply load_short_range.
  - intros i Hi Hne. split; now frames.
  - intros off len Hoff. now frames.
Qed.

Lemma delete_inv buf s buf' :
  inv buf -> live buf s -> deleted buf buf' s -> inv buf'.
Proof.
  intros [[Hlen Hsc Hdir Htop Hheap Hdisj] [l Hc]] Hlive D.
  destruct D as [Dl Dc Df Dh Dsl Dso Doth Dheap].
  assert (Hsub : forall i, live buf' i -> i <> s /\ live buf i).
  { intros i [Hi1 Hi2]. rewrite Dc in Hi1.
    destruct (Z.eq_dec i s) as [->|Hne]; [lia|].
    destruct (Doth i ltac:(lia) Hne) as [_ E]. rewrite E in Hi2.
    split; [exact Hne|split; assumption]. }
  constructor; [constructor|].
  - now rewrite Dl.
  - now rewrite Dc.
  - now rewrite Dc, Df.
  - now rewrite Df.
  - intros i Hi. destruct (Hsub i Hi) as [Hne Hi'].
    destruct (Doth i ltac:(apply Hi') Hne) as [E1 E2].
    unfold slot_end. rewrite E1, E2, Df. apply Hheap, Hi'.
  - intros i j Hi Hj Hne.
    destruct (Hsub i Hi) as [Hni Hi']. destruct (Hsub j Hj) as [Hnj Hj'].
    destruct (Doth i ltac:(apply Hi') Hni) as [E1 E2].
    destruct (Doth j ltac:(apply Hj') Hnj) as [E3 E4].
    unfold slot_end. rewrite E1, E2, E3, E4. now apply Hdisj.
  - exists (s :: l). rewrite Dh.
    assert (Hnin : s ∉ l).
    { intros Hin. destruct (free_chain_dead _ _ _ _ Hc Hin) as [_ H].
      destruct Hlive. lia. }
    constructor.
    + rewrite Dc. apply Hlive.
    + lia.
    + exact Hnin.
    + rewrite Dso. eapply free_chain_frame; [exact Hc|lia|].
      intros x Hx. apply Doth.
      * destruct (free_chain_dead _ _ _ _ Hc Hx). lia.
      * intros ->. contradiction.
Qed.

(** ** Insertion *)

(** The part of [SP_InsertRecord] that follows [SP_EnsureSpace]. *)
Definition insert_tail (buf : page) (data : list byte) (length : Z)
  : Z * page * option Z :=
  let dest := to_short (hdr_freePtr buf - length) in
  if to_size_t dest <? sizeof_SP_PageHeader then
    (SP_ERR_NOSPACE, buf, None)
  else
    let buf := memcpy buf dest data length in
    let buf := set_freePtr buf dest in
    let '(id, buf) := SP_ReserveSlot PF_PAGE_SIZE buf in
    if id <? 0 then (id, buf, None)
    else
      let buf := set_slot_offset buf id dest in
      let buf := set_slot_length buf id length in
      (SP_OK, buf, Some (to_short id)).

(** Bytes of directory an insertion needs on [buf]. *)
Definition need_slot (buf : page) : Z :=
  if hdr_freeListHead buf =? SP_INVALID_SLOT then sizeof_SP_SlotEntry else 0.

(** The slot an insertion on [buf] takes. *)
Definition next_slot (buf : page) : Z :=
  if hdr_freeListHead buf =? SP_INVALID_SLOT then hdr_slotCount buf
  else hdr_freeListHead buf.

Lemma insert_unfold buf data len :
  insert buf data len =
  if len <=? 0 then (SP_ERR_NOSPACE, buf, None)
  else
    let '(rc, b) := SP_EnsureSpace PF_PAGE_SIZE buf (len + need_slot buf) in
    if negb (rc =? SP_OK) then (SP_ERR_NOSPACE, b, None)
    else insert_tail b data len.
Proof.
  unfold SP_InsertRecord, insert_tail, need_slot.
  destruct (len <=? 0); [reflexivity|].
  destruct (SP_EnsureSpace _ _ _) as [rc b].
  destruct (negb (rc =? SP_OK)); reflexivity.
Qed.

(** Effect of the tail of a successful insertion into slot [id]. *)
Record inserted (b b' : page) (id : Z) (data : list byte) (len : Z)
  : Prop := {
  ins_length : length b' = length b;
  ins_id : id = next_slot b;
  ins_slotCount : hdr_slotCount b' = Z.max (hdr_slotCount b) (id + 1);
  ins_freePtr : hdr_freePtr b' = hdr_freePtr b - len;
  ins_freeListHead : hdr_freeListHead b' =
    if hdr_freeListHead b =? SP_INVALID_SLOT then SP_INVALID_SLOT
    else slot_offset b id;
  ins_slot_offset : slot_offset b' id = hdr_freePtr b - len;
  ins_slot_length : slot_length b' id = len;
  ins_others : forall i, 0 <= i < hdr_slotCount b -> i <> id ->
    slot_offset b' i = slot_offset b i /\
    slot_length b' i = slot_length b i;
  ins_heap : forall off n, hdr_freePtr b <= off ->
    memread b' off n = memread b off n;
  ins_data : memread b' (hdr_freePtr b - len) len = take (Z.to_nat len) data
}.

Lemma insert_tail_ok b data len :
  Z.of_nat (length b) = PF_PAGE_SIZE ->
  0 <= hdr_slotCount b ->
  hdr_freeListHead b = SP_INVALID_SLOT \/
    0 <= hdr_freeListHead b < hdr_slotCount b ->
  0 < len -> len <= Z.of_nat (length data) ->
  len + need_slot b <= SP_PageFreeSpace b ->
  hdr_freePtr b <= PF_PAGE_SIZE ->
  exists b',
    insert_tail b data len = (SP_OK, b', Some (next_slot b)) /\
    inserted b b' (next_slot b) data len.
Proof.
  intros Hlen Hsc Hhd Hpos Hdata Hspace Hfp.
  unfold insert_tail, SP_ReserveSlot, SP_MAX_SLOTS, SP_PageFreeSpace,
    need_slot, next_slot, memcpy in *.
  pose proof (load_short_range b 0) as R0.
  pose proof (load_short_range b 2) as R2.
  pose proof (load_short_range b 4) as R4.
  unfold_fields.
  set (sc := load_short b 0) in *. set (hd := load_short b 2) in *.
  set (fp := load_short b 4) in *.
  assert (Hdest : 8 + sc * 4 + (if hd =? -1 then 4 else 0) <= fp - len)
    by (destruct (hd =? -1); lia).
  assert (Hd8 : 8 <= fp - len <= 32767) by (destruct (hd =? -1); lia).
  rewrite (to_short_id (fp - len)) by lia.
  rewrite to_size_t_small by lia.
  destruct (fp - len <? 8) eqn:E; [apply Z.ltb_lt in E; lia|clear E].
  set (dest := fp - len) in *.
  assert (Hk : Z.of_nat (length (take (Z.to_nat len) data)) = len)
    by (rewrite length_take; lia).
  pose proof (list_inserts_within b dest (take (Z.to_nat len) data)
                ltac:(lia)) as W1.
  rewrite Hk in W1.
  pose proof (memread_inserts b dest (take (Z.to_nat len) data)
                ltac:(lia) ltac:(lia)) as D1.
  rewrite Hk in D1.
  set (b1 := list_inserts (Z.to_nat dest) (take (Z.to_nat len) data) b) in *.
  pose proof (writes_within_length _ _ _ _ _ W1 Hlen) as L1.
  pose proof (store_short_within b1 4 dest ltac:(lia)) as W2.
  set (b2 := store_short b1 4 dest) in *.
  pose proof (writes_within_length _ _ _ _ _ W2 L1) as L2.
  assert (H2hd : load_short b2 2 = hd) by (now frames).
  assert (H2sc : load_short b2 0 = sc) by (now frames).
  assert (H2fp : load_short b2 4 = dest)
    by (unfold b2; apply load_store_short; lia).
  rewrite H2hd, H2sc.
  destruct (hd =? -1) eqn:Ehd; simpl negb; cbv iota.
  - (* a new directory entry *)
    apply Z.eqb_eq in Ehd.
    rewrite (to_size_t_small (PF_PAGE_SIZE - 8)) by lia.
    rewrite (to_size_t_small sc) by lia.
    assert (Hmax : sc + 1 <= (PF_PAGE_SIZE - 8) / 4)
      by (apply Z.div_le_lower_bound; lia).
    destruct ((PF_PAGE_SIZE - 8) / 4 <=? sc) eqn:E;
      [apply Z.leb_le in E; lia|clear E].
    destruct (sc <? 0) eqn:E; [apply Z.ltb_lt in E; lia|clear E].
    rewrite (to_short_id (sc + 1)) by lia.
    rewrite (to_short_id sc) by lia.
    pose proof (store_short_within b2 0 (sc + 1) ltac:(lia)) as W3.
    set (b3 := store_short b2 0 (sc + 1)) in *.
    pose proof (writes_within_length _ _ _ _ _ W3 L2) as L3.
    pose proof (store_short_within b3 (8 + sc * 4) dest ltac:(lia)) as W4.
    set (b4 := store_short b3 (8 + sc * 4) dest) in *.
    pose proof (writes_within_length _ _ _ _ _ W4 L3) as L4.
    pose proof (store_short_within b4 (8 + sc * 4 + 2) len ltac:(lia)) as W5.
    set (b5 := store_short b4 (8 + sc * 4 + 2) len) in *.
    exists b5. split; [reflexivity|].
    constructor; unfold next_slot; unfold_fields; fold hd sc fp;
      try rewrite Ehd; simpl.
    + destruct W5 as [-> _], W4 as [-> _], W3 as [-> _], W2 as [-> _].
      apply W1.
    + reflexivity.
    + frames. unfold b3. rewrite load_store_short by lia. lia.
    + now frames.
    + frames. exact Ehd.
    + frames. unfold b4. apply load_store_short; lia.
    + unfold b5. apply load_store_short; lia.
    + intros i Hi Hne. split; now frames.
    + intros off n Hoff. now frames.
    + frames. exact D1.
  - (* the head of the tombstone chain *)
    apply Z.eqb_neq in Ehd. destruct Hhd as [Hhd|Hhd]; [lia|].
    destruct (hd <? 0) eqn:E; [apply Z.ltb_lt in E; lia|clear E].
    rewrite (to_short_id hd) by lia.
    pose proof (store_short_within b2 2 (load_short b2 (8 + hd * 4))
                  ltac:(lia)) as W3.
    set (b3 := store_short b2 2 (load_short b2 (8 + hd * 4))) in *.
    pose proof (writes_within_length _ _ _ _ _ W3 L2) as L3.
    pose proof (store_short_within b3 (8 + hd * 4) dest ltac:(lia)) as W4.
    set (b4 := store_short b3 (8 + hd * 4) dest) in *.
    pose proof (writes_within_length _ _ _ _ _ W4 L3) as L4.
    pose proof (store_short_within b4 (8 + hd * 4 + 2) len ltac:(lia)) as W5.
    set (b5 := store_short b4 (8 + hd * 4 + 2) len) in *.
    exists b5. split; [reflexivity|].
    constructor; unfold next_slot; unfold_fields; fold hd sc fp;
      try (destruct (hd =? -1) eqn:E; [apply Z.eqb_eq in E; lia|clear E]).
    + destruct W5 as [-> _], W4 as [-> _], W3 as [-> _], W2 as [-> _].
      apply W1.
    + reflexivity.
    + frames. fold sc. lia.
    + now frames.
    + frames. unfold b3. rewrite load_store_short; try lia.
      * now frames.
      * apply load_short_range.
    + frames. unfold b4. apply load_store_short; lia.
    + unfold b5. apply load_store_short; lia.
    + intros i Hi Hne. split; now frames.
    + intros off n Hoff. now frames.
    + frames. exact D1.
Qed.

Lemma next_slot_dead b : inv b -> ~ live b (next_slot b).
Proof.
  intros [Hlay [l Hc]] [H1 H2]. unfold next_slot in *.
  destruct (hdr_freeListHead b =? SP_INVALID_SLOT) eqn:E; [lia|].
  apply Z.eqb_neq in E.
  inversion Hc; subst; [congruence|]. lia.
Qed.

Lemma next_slot_range b : inv b -> 0 <= next_slot b <= hdr_slotCount b.
Proof.
  intros [Hlay [l Hc]]. unfold next_slot.
  pose proof (lay_slotCount _ _ _ Hlay).
  destruct (hdr_freeListHead b =? SP_INVALID_SLOT) eqn:E; [lia|].
  apply Z.eqb_neq in E.
  inversion Hc; subst; [congruence|]. lia.
Qed.

Lemma next_slot_dir b : inv b ->
  SP_SLOT (Z.max (hdr_slotCount b) (next_slot b + 1)) =
  SP_SLOT (hdr_slotCount b) + need_slot b.
Proof.
  intros [Hlay [l Hc]]. unfold next_slot, need_slot.
  pose proof (lay_slotCount _ _ _ Hlay).
  unfold SP_SLOT, sizeof_SP_PageHeader, sizeof_SP_SlotEntry.
  destruct (hdr_freeListHead b =? SP_INVALID_SLOT) eqn:E; [lia|].
  apply Z.eqb_neq in E.
  inversion Hc; subst; [congruence|]. lia.
Qed.

(** Records that were live before the tail of an insertion are untouched
    by it. *)
Lemma inserted_old b b' data len s :
  inv b -> inserted b b' (next_slot b) data len -> live b s ->
  live b' s /\ slot_offset b' s = slot_offset b s /\
  slot_length b' s = slot_length b s /\ record b' s = record b s.
Proof.
  intros Hinv I Hs. pose proof Hinv as [Hlay _].
  assert (Hne : s <> next_slot b).
  { intros ->. now apply (next_slot_dead b). }
  pose proof Hs as [Hs1 Hs2].
  destruct (ins_others _ _ _ _ _ I s Hs1 Hne) as [E1 E2].
  split; [|split; [exact E1|split; [exact E2|]]].
  - split; [rewrite (ins_slotCount _ _ _ _ _ I); lia|now rewrite E2].
  - unfold record. rewrite E1, E2.
    apply (ins_heap _ _ _ _ _ I).
    apply (lay_heap _ _ _ Hlay s Hs).
Qed.

Lemma inserted_inv b b' data len :
  inv b -> 0 < len -> len + need_slot b <= SP_PageFreeSpace b ->
  inserted b b' (next_slot b) data len -> inv b'.
Proof.
  intros Hinv Hpos Hspace I.
  pose proof Hinv as [[Hlen Hsc Hdir Htop Hheap Hdisj] [l Hc]].
  pose proof (next_slot_range b Hinv) as Hid.
  pose proof (next_slot_dead b Hinv) as Hdead.
  destruct I as [Il Iid Isc Ifp Ihd Iso Isl Ioth Iheap Idata].
  set (id := next_slot b) in *.
  assert (Hdir' : SP_SLOT (Z.max (hdr_slotCount b) (id + 1))
                  <= hdr_freePtr b - len).
  { unfold id. rewrite (next_slot_dir b Hinv).
    unfold SP_PageFreeSpace, SP_SLOT in *. lia. }
  assert (Hsub : forall i, live b' i ->
            i = id \/ (i <> id /\ live b i /\
                       slot_offset b' i = slot_offset b i /\
                       slot_length b' i = slot_length b i)).
  { intros i [Hi1 Hi2]. rewrite Isc in Hi1.
    destruct (Z.eq_dec i id) as [->|Hne]; [auto|right].
    assert (Hi : 0 <= i < hdr_slotCount b) by lia.
    destruct (Ioth i Hi Hne) as [E1 E2].
    split; [exact Hne|]. split; [split; [lia|now rewrite <- E2]|]. auto. }
  constructor; [constructor|].
  - now rewrite Il.
  - rewrite Isc. lia.
  - rewrite Isc, Ifp. exact Hdir'.
  - rewrite Ifp. lia.
  - intros i Hi. unfold slot_end. rewrite Ifp.
    destruct (Hsub i Hi) as [->|(Hne & Hl & E1 & E2)].
    + rewrite Iso, Isl. lia.
    + rewrite E1, E2. destruct (Hheap i Hl) as [H1 H2].
      unfold slot_end in H2. lia.
  - intros i j Hi Hj Hne. unfold slot_end.
    destruct (Hsub i Hi) as [->|(Hni & Hli & Ei1 & Ei2)];
      destruct (Hsub j Hj) as [->|(Hnj & Hlj & Ej1 & Ej2)].
    + congruence.
    + rewrite Iso, Isl, Ej1, Ej2. left.
      destruct (Hheap j Hlj). lia.
    + rewrite Iso, Isl, Ei1, Ei2. right.
      destruct (Hheap i Hli). lia.
    + rewrite Ei1, Ei2, Ej1, Ej2. now apply Hdisj.
  - rewrite Ihd. unfold next_slot in id.
    destruct (hdr_freeListHead b =? SP_INVALID_SLOT) eqn:E.
    + exists []. constructor.
    + apply Z.eqb_neq in E.
      inversion Hc as [|h r Hh Hhl Hnin Hr]; subst; [congruence|].
      exists r. eapply free_chain_frame; [exact Hr|lia|].
      intros x Hx. apply Ioth.
      * destruct (free_chain_dead _ _ _ _ Hr Hx). lia.
      * subst id. intros ->. contradiction.
Qed.

(** [b'] shows the same slots and records as [b]: the header counts, the
    slot lengths, the chain links and the record contents agree. *)
Record same_view (b b' : page) : Prop := {
  sv_slotCount : hdr_slotCount b' = hdr_slotCount b;
  sv_freeListHead : hdr_freeListHead b' = hdr_freeListHead b;
  sv_length : forall s, 0 <= s < hdr_slotCount b ->
    slot_length b' s = slot_length b s;
  sv_dead : forall s, 0 <= s < hdr_slotCount b -> ~ live b s ->
    slot_offset b' s = slot_offset b s;
  sv_record : forall s, live b s -> record b' s = record b s
}.

Lemma same_view_refl b : same_view b b.
Proof. constructor; auto. Qed.

Lemma same_view_live b b' s : same_view b b' -> live b' s <-> live b s.
Proof.
  intros V. unfold live. rewrite (sv_slotCount _ _ V).
  split; intros [H1 H2]; split; auto.
  - now rewrite <- (sv_length _ _ V s H1).
  - now rewrite (sv_length _ _ V s H1).
Qed.

Lemma same_view_next_slot b b' : same_view b b' -> next_slot b' = next_slot b.
Proof.
  intros V. unfold next_slot.
  now rewrite (sv_slotCount _ _ V), (sv_freeListHead _ _ V).
Qed.

Lemma compacted_same_view B b order :
  compacted PF_PAGE_SIZE B b (compact b) order -> same_view b (compact b).
Proof.
  intros C. constructor.
  - apply (cp_slotCount _ _ _ _ _ C).
  - apply (cp_freeListHead _ _ _ _ _ C).
  - apply (cp_length _ _ _ _ _ C).
  - apply (cp_dead _ _ _ _ _ C).
  - apply (cp_record _ _ _ _ _ C).
Qed.

(** [SP_EnsureSpace] on a page that satisfies the invariants. *)
Lemma ensure_space_spec buf needed :
  inv buf ->
  exists rc bX,
    SP_EnsureSpace PF_PAGE_SIZE buf needed = (rc, bX) /\
    inv bX /\ same_view buf bX /\
    hdr_freePtr buf <= hdr_freePtr bX /\
    ((rc = SP_OK /\ needed <= SP_PageFreeSpace bX) \/
     (rc = SP_ERR_NOSPACE /\ SP_PageFreeSpace bX < needed /\
      bX = compact buf)).
Proof.
  intros Hinv. unfold SP_EnsureSpace.
  destruct (needed <=? SP_PageFreeSpace buf) eqn:E1.
  - apply Z.leb_le in E1. exists SP_OK, buf.
    split; [reflexivity|]. split; [exact Hinv|].
    split; [apply same_view_refl|]. split; [lia|auto].
  - pose proof Hinv as [Hlay _].
    destruct (compact_compacted PF_PAGE_SIZE page_size_ok buf _ Hlay)
      as [order C].
    pose proof (compact_inv PF_PAGE_SIZE page_size_ok buf Hinv) as Hinv'.
    pose proof (compacted_same_view _ _ _ C) as V.
    pose proof (cp_bound _ _ _ _ _ C) as Hb.
    destruct (needed <=? SP_PageFreeSpace (compact buf)) eqn:E2.
    + apply Z.leb_le in E2. exists SP_OK, (compact buf).
      split; [reflexivity|]. split; [exact Hinv'|].
      split; [exact V|]. split; [lia|auto].
    + apply Z.leb_gt in E2. exists SP_ERR_NOSPACE, (compact buf).
      split; [reflexivity|]. split; [exact Hinv'|].
      split; [exact V|]. split; [lia|auto].
Qed.

(** [SP_InsertRecord] on a page that satisfies the invariants: either it
    fails with [SP_ERR_NOSPACE], leaving a page with the same slots and
    records, or it stores the record in the slot [next_slot buf] of the
    possibly compacted page [bX]. *)
Lemma insert_spec buf data len :
  inv buf -> len <= Z.of_nat (length data) ->
  exists rc buf' out,
    insert buf data len = (rc, buf', out) /\ inv buf' /\
    ((rc = SP_ERR_NOSPACE /\ out = None /\ same_view buf buf' /\
      (len <= 0 \/
       SP_PageFreeSpace (compact buf) < len + need_slot buf)) \/
     (rc = SP_OK /\ out = Some (next_slot buf) /\ 0 < len /\
      exists bX, inv bX /\ same_view buf bX /\
        hdr_freePtr buf <= hdr_freePtr bX /\
        len + need_slot buf <= SP_PageFreeSpace bX /\
        inserted bX buf' (next_slot buf) data len)).
Proof.
  intros Hinv Hdata. rewrite insert_unfold.
  destruct (len <=? 0) eqn:E0.
  { exists SP_ERR_NOSPACE, buf, None.
    split; [reflexivity|]. split; [exact Hinv|].
    apply Z.leb_le in E0. left. auto using same_view_refl. }
  apply Z.leb_gt in E0.
  destruct (ensure_space_spec buf (len + need_slot buf) Hinv)
    as (rc & bX & -> & HinvX & V & Hfp & [[-> Hspace]|(-> & Hspace & ->)]).
  - simpl negb. cbv iota.
    assert (Hneed : need_slot bX = need_slot buf)
      by (unfold need_slot; now rewrite (sv_freeListHead _ _ V)).
    pose proof HinvX as [[Hlen Hsc Hdir Htop _ _] [l Hc]].
    destruct (insert_tail_ok bX data len) as (b' & Heq & I); auto.
    { destruct (free_chain_head _ _ _ Hc) as [[H _]|(r & _ & H)]; auto. }
    { lia. }
    rewrite Heq. rewrite (same_view_next_slot _ _ V) in Heq |- *.
    exists SP_OK, b', (Some (next_slot buf)).
    split; [reflexivity|]. split.
    + apply (inserted_inv bX b' data len HinvX E0); [lia|exact I].
    + right. split; [reflexivity|]. split; [reflexivity|].
      split; [exact E0|]. exists bX.
      split; [exact HinvX|]. split; [exact V|]. split; [exact Hfp|].
      split; [lia|].
      rewrite <- (same_view_next_slot _ _ V). exact I.
  - simpl. exists SP_ERR_NOSPACE, (compact buf), None.
    split; [reflexivity|]. split; [exact HinvX|]. left. auto.
Qed.

Lemma get_record_live b s :
  live b s ->
  SP_GetRecord b s = (SP_OK, Some (slot_offset b s, slot_length b s)).
Proof.
  intros [H1 H2]. unfold SP_GetRecord.
  destruct (s <? 0) eqn:E1; [apply Z.ltb_lt in E1; lia|].
  destruct (hdr_slotCount b <=? s) eqn:E2; [apply Z.leb_le in E2; lia|].
  destruct (slot_length b s <=? 0) eqn:E3; [apply Z.leb_le in E3; lia|].
  reflexivity.
Qed.

(** Whatever [SP_InsertRecord] returns, the invariants hold afterwards and
    every record that was live is still live with the same length and
    bytes. *)
Lemma insert_preserves buf data len rc buf' out :
  inv buf -> len <= Z.of_nat (length data) ->
  insert buf data len = (rc, buf', out) ->
  inv buf' /\
  forall s, live buf s ->
    live buf' s /\ slot_length buf' s = slot_length buf s /\
    record buf' s = record buf s.
Proof.
  intros Hinv Hdata Heq.
  destruct (insert_spec buf data len Hinv Hdata)
    as (rc' & b' & out' & Heq' & Hinv' & Hcases).
  rewrite Heq in Heq'. injection Heq' as <- <- <-.
  split; [exact Hinv'|]. intros s Hs.
  destruct Hcases as [(_ & _ & V & _)|(_ & _ & _ & bX & HinvX & V & _ & _ & I)].
  - split; [now apply (same_view_live _ _ s V)|].
    split; [apply (sv_length _ _ V), Hs|now apply (sv_record _ _ V)].
  - rewrite <- (same_view_next_slot _ _ V) in I.
    assert (HsX : live bX s) by now apply (same_view_live _ _ s V).
    destruct (inserted_old bX buf' data len s HinvX I HsX)
      as (Hl & _ & E2 & E3).
    split; [exact Hl|]. split.
    + rewrite E2. apply (sv_length _ _ V), Hs.
    + rewrite E3. now apply (sv_record _ _ V).
Qed.

Lemma delete_cases buf s :
  inv buf ->
  (live buf s /\ exists buf', SP_DeleteRecord buf s = (SP_OK, buf') /\
                              deleted buf buf' s /\ inv buf') \/
  (~ live buf s /\ SP_DeleteRecord buf s = (SP_ERR_INVALID_SLOT, buf)).
Proof.
  intros Hinv.
  destruct (Z_lt_le_dec s 0) as [Hneg|Hnn];
    [right|destruct (Z_lt_le_dec s (hdr_slotCount buf)) as [Hin|Hout];
      [destruct (Z_lt_le_dec 0 (slot_length buf s)) as [Hl|Hd];
        [left|right]|right]].
  - split; [intros [H _]; lia|]. unfold SP_DeleteRecord.
    destruct (s <? 0) eqn:E; [reflexivity|apply Z.ltb_ge in E; lia].
  - assert (Hlive : live buf s) by (split; auto).
    split; [exact Hlive|].
    pose proof Hinv as [Hlay _].
    destruct (delete_ok buf s) as (b' & Heq & D); auto.
    { rewrite (lay_length _ _ _ Hlay).
      pose proof (lay_directory _ _ _ Hlay).
      pose proof (lay_top _ _ _ Hlay). lia. }
    exists b'. split; [exact Heq|]. split; [exact D|].
    eapply delete_inv; eauto.
  - split; [intros [_ H]; lia|]. unfold SP_DeleteRecord.
    destruct (s <? 0) eqn:E1; [reflexivity|].
    destruct (hdr_slotCount buf <=? s) eqn:E2; [reflexivity|]. simpl.
    destruct (slot_length buf s <=? 0) eqn:E3;
      [reflexivity|apply Z.leb_gt in E3; lia].
  - split; [intros [H _]; lia|]. unfold SP_DeleteRecord.
    destruct (s <? 0) eqn:E1; [reflexivity|].
    destruct (hdr_slotCount buf <=? s) eqn:E2;
      [reflexivity|apply Z.leb_gt in E2; lia].
Qed.

(** An insertion is given a buffer of at least [length] bytes. *)
Definition op_ok (op : sp_op) : Prop :=
  match op with
  | OpInsert data len => len <= Z.of_nat (length data)
  | OpDelete _ => True
  end.

Lemma step_inv buf op : inv buf -> op_ok op -> inv (sp_step PF_PAGE_SIZE buf op).
Proof.
  intros Hinv Hok. destruct op as [data len|s]; simpl in *.
  - destruct (insert buf data len) as [[rc b'] out] eqn:E.
    apply (insert_preserves buf data len rc b' out Hinv Hok E).
  - destruct (delete_cases buf s Hinv) as [(_ & b' & -> & _ & H)|(_ & ->)];
      auto.
Qed.

Lemma run_inv ops : forall buf,
  inv buf -> Forall op_ok ops -> inv (sp_run PF_PAGE_SIZE buf ops).
Proof.
  induction ops as [|op ops IH]; intros buf Hinv Hok; [exact Hinv|].
  apply Forall_cons in Hok as [H1 H2].
  unfold sp_run. cbn [fold_left]. apply IH; [|exact H2].
  now apply step_inv.
Qed.

(** C1: on a page initialised by [SP_InitPage] and then changed by any
    sequence of [SP_InsertRecord] and [SP_DeleteRecord] calls (with the
    compactions they trigger), the slot directory ends at or below
    [freePtr]: [headerSize + slotCount * slotEntrySize <= freePtr].  The
    sequence is arbitrary, so this holds after every call. *)
Theorem directory_never_overlaps_heap (pageBuf : page) (ops : list sp_op) :
  Z.of_nat (length pageBuf) = PF_PAGE_SIZE ->
  Forall op_ok ops ->
  let buf := sp_run PF_PAGE_SIZE (init pageBuf) ops in
  sizeof_SP_PageHeader + hdr_slotCount buf * sizeof_SP_SlotEntry
    <= hdr_freePtr buf.
Proof.
  intros Hlen Hok buf.
  assert (Hinv : inv buf) by (apply run_inv; [now apply init_inv|exact Hok]).
  destruct Hinv as [Hlay _]. apply (lay_directory _ _ _ Hlay).
Qed.

End Operations.

(** A page of 64 bytes after two insertions, a deletion and a third
    insertion. *)
Lemma directory_never_overlaps_heap_witness :
  let buf :=
    sp_run 64 (SP_InitPage 64 (replicate 64 x00))
      [OpInsert [x01; x02; x03] 3; OpInsert [x04; x05] 2;
       OpDelete 0; OpInsert [x06; x07; x08; x09] 4] in
  sizeof_SP_PageHeader + hdr_slotCount buf * sizeof_SP_SlotEntry
    <= hdr_freePtr buf.
Proof.
  apply (directory_never_overlaps_heap 64).
  - lia.
  - reflexivity.
  - repeat constructor; simpl; lia.
Defined.

(** ** Round trip, frame and tombstone reuse *)

Section CodecLaws.

Variable PF_PAGE_SIZE : Z.
Hypothesis page_size_ok : 8 <= PF_PAGE_SIZE <= 32767.

Local Abbreviation inv := (sp_inv PF_PAGE_SIZE).
Local Abbreviation init := (SP_InitPage PF_PAGE_SIZE).
Local Abbreviation insert := (SP_InsertRecord PF_PAGE_SIZE).
Local Abbreviation compact := (SP_CompactPage PF_PAGE_SIZE).

(** Insert the (bytes, length) pairs of [S] in order with [ins]; the
    result is the final page and the slot ids returned, or [None] as soon as
    one insertion does not return [SP_OK]. *)
Fixpoint insert_all_with (ins : page -> list byte -> Z -> Z * page * option Z)
    (buf : page) (S : list (list byte * Z)) : option (page * list Z) :=
  match S with
  | [] => Some (buf, [])
  | (data, len) :: rest =>
      match ins buf data len with
      | (rc, buf', Some id) =>
          if rc =? SP_OK then
            match insert_all_with ins buf' rest with
            | Some (b, ids) => Some (b, id :: ids)
            | None => None
            end
          else None
      | (_, _, None) => None
      end
  end.

(** The same with [SP_InsertRecord]. *)
Definition insert_all (buf : page) (S : list (list byte * Z))
  : option (page * list Z) :=
  insert_all_with insert buf S.

Lemma insert_all_cons buf data len rest :
  insert_all buf ((data, len) :: rest) =
  match insert buf data len with
  | (rc, buf', Some id) =>
      if rc =? SP_OK then
        match insert_all buf' rest with
        | Some (b, ids) => Some (b, id :: ids)
        | None => None
        end
      else None
  | (_, _, None) => None
  end.
Proof. reflexivity. Qed.

(** What [SP_GetRecord] yields for slot [id]: the length and the bytes. *)
Definition get_bytes (buf : page) (id : Z) : option (Z * list byte) :=
  match SP_GetRecord buf id with
  | (rc, Some ref) =>
      if rc =? SP_OK then Some (snd ref, deref buf ref) else None
  | (_, None) => None
  end.

Lemma get_bytes_live b s :
  live b s -> get_bytes b s = Some (slot_length b s, record b s).
Proof.
  intros H. unfold get_bytes. rewrite (get_record_live b s H). reflexivity.
Qed.

Lemma get_bytes_Some b s r : get_bytes b s = Some r -> live b s.
Proof.
  unfold get_bytes, SP_GetRecord, live.
  destruct (s <? 0) eqn:E1; simpl; [discriminate|].
  destruct (hdr_slotCount b <=? s) eqn:E2; simpl; [discriminate|].
  destruct (slot_length b s <=? 0) eqn:E3; simpl; [discriminate|].
  intros _. apply Z.ltb_ge in E1. apply Z.leb_gt in E2, E3. lia.
Qed.

(** A successful insertion makes its record readable through its id. *)
Lemma insert_ok_get buf data len buf' out :
  inv buf -> len <= Z.of_nat (length data) ->
  insert buf data len = (SP_OK, buf', out) ->
  exists id, out = Some id /\ id = next_slot buf /\ ~ live buf id /\
    get_bytes buf' id = Some (len, take (Z.to_nat len) data).
Proof.
  intros Hinv Hdata Heq.
  destruct (insert_spec PF_PAGE_SIZE page_size_ok buf data len Hinv Hdata)
    as (rc' & b' & out' & Heq' & Hinv' & Hcases).
  rewrite Heq in Heq'. injection Heq' as <- <- <-.
  destruct Hcases as [(Hrc & _)|(_ & -> & Hpos & bX & HinvX & V & _ & _ & I)];
    [discriminate|].
  exists (next_slot buf). split; [reflexivity|]. split; [reflexivity|].
  split.
  - rewrite <- (same_view_next_slot _ _ V).
    rewrite <- (same_view_live _ _ _ V).
    now apply (next_slot_dead PF_PAGE_SIZE).
  - assert (Hl : live buf' (next_slot buf)).
    { split.
      - rewrite (ins_slotCount _ _ _ _ _ I).
        rewrite <- (same_view_next_slot _ _ V).
        pose proof (next_slot_range PF_PAGE_SIZE bX HinvX). lia.
      - rewrite (ins_slot_length _ _ _ _ _ I). exact Hpos. }
    rewrite (get_bytes_live _ _ Hl). unfold record.
    rewrite (ins_slot_offset _ _ _ _ _ I), (ins_slot_length _ _ _ _ _ I).
    now rewrite (ins_data _ _ _ _ _ I).
Qed.

Lemma insert_all_preserves S : forall buf b ids,
  inv buf -> Forall (fun p => snd p <= Z.of_nat (length (fst p))) S ->
  insert_all buf S = Some (b, ids) ->
  inv b /\
  forall s, live buf s -> get_bytes b s = get_bytes buf s.
Proof.
  induction S as [|[data len] rest IH]; intros buf b ids Hinv Hok Heq.
  - change (Some (buf, []) = Some (b, ids)) in Heq.
    injection Heq as <- <-. auto.
  - apply Forall_cons in Hok as [Hd Hok]. simpl in Hd.
    rewrite insert_all_cons in Heq.
    destruct (insert buf data len) as [[rc buf'] [id|]] eqn:E; [|discriminate].
    destruct (rc =? SP_OK) eqn:Erc; [|discriminate].
    destruct (insert_all buf' rest) as [[b0 ids0]|] eqn:E2; [|discriminate].
    injection Heq as <- <-.
    destruct (insert_preserves PF_PAGE_SIZE page_size_ok buf data len rc buf'
                (Some id) Hinv Hd E) as [Hinv' Hold].
    destruct (IH buf' b0 ids0 Hinv' Hok E2) as [Hinvb Hkeep].
    split; [exact Hinvb|].
    intros s Hs. destruct (Hold s Hs) as (Hl & E3 & E4).
    rewrite (Hkeep s Hl), (get_bytes_live _ _ Hl), (get_bytes_live _ _ Hs).
    now rewrite E3, E4.
Qed.

(** C2: after [SP_InitPage], if every pair of [S] is inserted in order and
    every [SP_InsertRecord] returns [SP_OK] with a slot id, then
    [SP_GetRecord] on each returned id yields the length and exactly the
    bytes that were inserted under it. *)
Theorem insert_get_round_trip (pageBuf : page) (S : list (list byte * Z))
    (b : page) (ids : list Z) :
  Z.of_nat (length pageBuf) = PF_PAGE_SIZE ->
  Forall (fun p => Z.of_nat (length (fst p)) = snd p) S ->
  insert_all (init pageBuf) S = Some (b, ids) ->
  Forall2 (fun id p => get_bytes b id = Some (snd p, fst p)) ids S.
Proof.
  intros Hlen Hok.
  pose proof (init_inv PF_PAGE_SIZE page_size_ok pageBuf Hlen) as Hinv.
  revert Hinv. generalize (init pageBuf) as buf. revert b ids.
  induction S as [|[data len] rest IH]; intros b ids buf Hinv Heq.
  - change (Some (buf, []) = Some (b, ids)) in Heq.
    injection Heq as <- <-. constructor.
  - apply Forall_cons in Hok as [Hd Hok]. simpl in Hd.
    rewrite insert_all_cons in Heq.
    destruct (insert buf data len) as [[rc buf'] [id|]] eqn:E; [|discriminate].
    destruct (rc =? SP_OK) eqn:Erc; [|discriminate].
    apply Z.eqb_eq in Erc. subst rc.
    destruct (insert_all buf' rest) as [[b0 ids0]|] eqn:E2; [|discriminate].
    injection Heq as <- <-.
    destruct (insert_preserves PF_PAGE_SIZE page_size_ok buf data len _ buf'
                (Some id) Hinv ltac:(lia) E) as [Hinv' _].
    destruct (insert_ok_get buf data len buf' (Some id) Hinv ltac:(lia) E)
      as (id' & Hid & _ & _ & Hget).
    injection Hid as <-.
    assert (Hok' : Forall (fun p => snd p <= Z.of_nat (length (fst p))) rest).
    { eapply Forall_impl; [exact Hok|]. intros p Hp. simpl in Hp. lia. }
    destruct (insert_all_preserves rest buf' b0 ids0 Hinv' Hok' E2)
      as [_ Hkeep].
    constructor.
    + simpl. rewrite (Hkeep id (get_bytes_Some _ _ _ Hget)), Hget.
      f_equal. f_equal. rewrite <- Hd, Nat2Z.id. apply take_ge. lia.
    + apply (IH Hok b0 ids0 buf' Hinv' E2).
Qed.

(** C9: on a page that satisfies the invariants, when [SP_InsertRecord]
    succeeds every slot that was live before the call is live afterwards and
    [SP_GetRecord] returns for it the same length and the same bytes, also
    when the insertion compacted the page and moved records. *)
Theorem insert_keeps_live_records (buf : page) (data : list byte) (len : Z)
    (buf' : page) (out : option Z) (s : Z) :
  inv buf -> len <= Z.of_nat (length data) ->
  insert buf data len = (SP_OK, buf', out) ->
  live buf s ->
  live buf' s /\
  exists r, get_bytes buf s = Some r /\ get_bytes buf' s = Some r.
Proof.
  intros Hinv Hdata Heq Hs.
  destruct (insert_preserves PF_PAGE_SIZE page_size_ok buf data len _ buf' out
              Hinv Hdata Heq) as [_ Hold].
  destruct (Hold s Hs) as (Hl & E1 & E2).
  split; [exact Hl|].
  exists (slot_length buf s, record buf s).
  rewrite (get_bytes_live _ _ Hs), (get_bytes_live _ _ Hl), E1, E2. auto.
Qed.

(** After an insertion into slot [s] and the deletion of [s], the records
    still lie at or above the [freePtr] the page had before the insertion. *)
Lemma layout_after_delete bX b1 b2 data len :
  inv bX -> 0 < len -> len + need_slot bX <= SP_PageFreeSpace bX ->
  inserted bX b1 (next_slot bX) data len ->
  deleted b1 b2 (next_slot bX) ->
  sp_layout PF_PAGE_SIZE (hdr_freePtr bX) b2 /\
  hdr_slotCount b2 = Z.max (hdr_slotCount bX) (next_slot bX + 1).
Proof.
  intros Hinv Hpos Hspace I D.
  pose proof Hinv as [[Hlen Hsc Hdir Htop Hheap Hdisj] _].
  pose proof (next_slot_range PF_PAGE_SIZE bX Hinv) as Hid.
  pose proof (next_slot_dir PF_PAGE_SIZE bX Hinv) as Hnd.
  destruct I as [Il Iid Isc Ifp Ihd Iso Isl Ioth Iheap Idata].
  destruct D as [Dl Dc Df Dh Dsl Dso Doth Dheap].
  set (id := next_slot bX) in *.
  assert (Hc2 : hdr_slotCount b2 = Z.max (hdr_slotCount bX) (id + 1))
    by (now rewrite Dc, Isc).
  assert (Hsub : forall i, live b2 i ->
            live bX i /\ slot_offset b2 i = slot_offset bX i /\
            slot_length b2 i = slot_length bX i).
  { intros i [Hi1 Hi2]. rewrite Hc2 in Hi1.
    destruct (Z.eq_dec i id) as [->|Hne]; [lia|].
    destruct (Doth i ltac:(lia) Hne) as [E1 E2].
    destruct (Ioth i ltac:(lia) Hne) as [E3 E4].
    split; [split; [lia|now rewrite <- E4, <- E2]|].
    split; congruence. }
  split; [|exact Hc2]. constructor.
  - now rewrite Dl, Il.
  - rewrite Hc2. lia.
  - rewrite Hc2, Hnd. unfold SP_PageFreeSpace, SP_SLOT in *. lia.
  - exact Htop.
  - intros i Hi. destruct (Hsub i Hi) as (Hl & E1 & E2).
    unfold slot_end. rewrite E1, E2. apply Hheap, Hl.
  - intros i j Hi Hj Hne.
    destruct (Hsub i Hi) as (Hli & Ei1 & Ei2).
    destruct (Hsub j Hj) as (Hlj & Ej1 & Ej2).
    unfold slot_end. rewrite Ei1, Ei2, Ej1, Ej2. now apply Hdisj.
Qed.

(** C6: on a page that satisfies the invariants, after an insertion of
    length [L] that returned slot [s], the deletion of [s] succeeds and a
    second insertion of length [L] succeeds, returns the same slot [s] (the
    tombstone is reused) and leaves [slotCount] as it was after the first
    insertion. *)
Theorem tombstone_reuse (buf : page) (d1 d2 : list byte) (L : Z)
    (b1 : page) (s : Z) :
  inv buf ->
  L <= Z.of_nat (length d1) -> L <= Z.of_nat (length d2) ->
  insert buf d1 L = (SP_OK, b1, Some s) ->
  exists b2 b3,
    SP_DeleteRecord b1 s = (SP_OK, b2) /\
    insert b2 d2 L = (SP_OK, b3, Some s) /\
    hdr_slotCount b3 = hdr_slotCount b1.
Proof.
  intros Hinv Hd1 Hd2 Heq1.
  destruct (insert_spec PF_PAGE_SIZE page_size_ok buf d1 L Hinv Hd1)
    as (rc' & b' & out' & Heq' & Hinv1 & Hcases).
  rewrite Heq1 in Heq'. injection Heq' as <- <- <-.
  destruct Hcases
    as [(Hrc & _)|(_ & Hs & Hpos & bX & HinvX & V & _ & Hspace & I)];
    [discriminate|].
  injection Hs as ->.
  rewrite <- (same_view_next_slot _ _ V) in *.
  assert (Hneed : need_slot buf = need_slot bX)
    by (unfold need_slot; now rewrite (sv_freeListHead _ _ V)).
  rewrite Hneed in Hspace.
  pose proof (next_slot_range PF_PAGE_SIZE bX HinvX) as Hid.
  set (s := next_slot bX) in *.
  assert (Hlive1 : live b1 s).
  { split.
    - rewrite (ins_slotCount _ _ _ _ _ I). lia.
    - now rewrite (ins_slot_length _ _ _ _ _ I). }
  destruct (delete_cases PF_PAGE_SIZE b1 s Hinv1)
    as [(_ & b2 & Hdel & D & Hinv2)|(Hn & _)]; [|contradiction].
  exists b2.
  destruct (layout_after_delete bX b1 b2 d1 L HinvX Hpos Hspace I D)
    as [Hlay2 Hc2].
  assert (Hhd2 : hdr_freeListHead b2 = s) by apply (del_freeListHead _ _ _ D).
  assert (Hns2 : need_slot b2 = 0 /\ next_slot b2 = s).
  { unfold need_slot, next_slot. rewrite Hhd2.
    destruct (s =? SP_INVALID_SLOT) eqn:E; [|auto].
    apply Z.eqb_eq in E. unfold SP_INVALID_SLOT in E. lia. }
  destruct Hns2 as [Hn2 Hs2].
  destruct (insert_spec PF_PAGE_SIZE page_size_ok b2 d2 L Hinv2 Hd2)
    as (rc & b3 & out & Heq3 & Hinv3 & Hcases).
  destruct Hcases
    as [(-> & -> & V3 & [Hle|Hfull])
       |(-> & -> & _ & bY & HinvY & VY & _ & _ & I3)].
  - lia.
  - exfalso.
    destruct (compact_compacted PF_PAGE_SIZE page_size_ok b2 _ Hlay2)
      as [order C].
    pose proof (cp_bound _ _ _ _ _ C) as Hb.
    pose proof (cp_slotCount _ _ _ _ _ C) as Hc.
    pose proof (next_slot_dir PF_PAGE_SIZE bX HinvX) as Hnd.
    fold s in Hnd.
    unfold SP_PageFreeSpace, SP_SLOT in *. rewrite Hc, Hc2 in Hfull. lia.
  - exists b3. rewrite Hs2 in *. split; [exact Hdel|]. split; [exact Heq3|].
    rewrite (ins_slotCount _ _ _ _ _ I3), (sv_slotCount _ _ VY).
    rewrite (del_slotCount _ _ _ D). destruct Hlive1. lia.
Qed.

(** C7: on a page that satisfies the invariants, compacting twice gives
    the very page that compacting once gives (every byte, hence the header,
    the slot directory and the live records); and compaction keeps the
    slot count, the tombstone chain head, every slot length, the entries of
    the tombstones and the bytes of every live record: of the directory it
    changes only offsets of live slots. *)
Theorem compaction_idempotent (buf : page) :
  inv buf ->
  compact (compact buf) = compact buf /\
  hdr_slotCount (compact buf) = hdr_slotCount buf /\
  hdr_freeListHead (compact buf) = hdr_freeListHead buf /\
  (forall s, 0 <= s < hdr_slotCount buf ->
     slot_length (compact buf) s = slot_length buf s) /\
  (forall s, 0 <= s < hdr_slotCount buf -> ~ live buf s ->
     slot_offset (compact buf) s = slot_offset buf s) /\
  (forall s, live buf s -> get_bytes (compact buf) s = get_bytes buf s).
Proof.
  intros [Hlay Hc].
  destruct (compact_compacted PF_PAGE_SIZE page_size_ok buf _ Hlay)
    as [order C].
  split; [apply (compact_twice PF_PAGE_SIZE page_size_ok buf _ Hlay)|].
  split; [apply (cp_slotCount _ _ _ _ _ C)|].
  split; [apply (cp_freeListHead _ _ _ _ _ C)|].
  split; [apply (cp_length _ _ _ _ _ C)|].
  split; [apply (cp_dead _ _ _ _ _ C)|].
  intros s Hs.
  assert (Hl : live (compact buf) s)
    by now apply (compacted_live _ _ _ _ _ _ C).
  rewrite (get_bytes_live _ _ Hs), (get_bytes_live _ _ Hl).
  rewrite (cp_length _ _ _ _ _ C s ltac:(apply Hs)).
  now rewrite (cp_record _ _ _ _ _ C s Hs).
Qed.

End CodecLaws.

(** ** Scanning *)

Lemma first_live_none buf n : forall i,
  (forall j, i <= j < i + Z.of_nat n -> slot_length buf j <= 0) ->
  first_live buf n i = None.
Proof.
  induction n as [|n IH]; intros i Hdead; [reflexivity|].
  cbn [first_live].
  destruct (0 <? slot_length buf i) eqn:E.
  - apply Z.ltb_lt in E. specialize (Hdead i ltac:(lia)). lia.
  - apply IH. intros j Hj. apply Hdead. lia.
Qed.

Lemma first_live_some buf n : forall i j,
  i <= j < i + Z.of_nat n -> 0 < slot_length buf j ->
  (forall k, i <= k < j -> slot_length buf k <= 0) ->
  first_live buf n i = Some j.
Proof.
  induction n as [|n IH]; intros i j Hj Hl Hdead; [lia|].
  cbn [first_live].
  destruct (0 <? slot_length buf i) eqn:E.
  - apply Z.ltb_lt in E.
    destruct (Z.eq_dec i j) as [->|Hne]; [reflexivity|].
    specialize (Hdead i ltac:(lia)). lia.
  - apply Z.ltb_ge in E.
    destruct (Z.eq_dec i j) as [->|Hne]; [lia|].
    apply IH; try lia. intros k Hk. apply Hdead. lia.
Qed.

(** C10: when no slot at index [cursor + 1] or beyond is live,
    [SP_GetNextRecord] returns [SP_ERR_EMPTY] and sets the cursor to -1;
    the call that follows with this cursor starts again at slot 0 and
    returns the first live slot [j] of the page. *)
Theorem scan_exhausted_resets_cursor (buf : page) (cursor : Z) :
  -32768 <= cursor < 32767 ->
  (forall i, 0 <= i -> cursor < i < hdr_slotCount buf ->
     slot_length buf i <= 0) ->
  SP_GetNextRecord buf cursor = (SP_ERR_EMPTY, -1, None) /\
  forall j, live buf j ->
    (forall k, 0 <= k < j -> slot_length buf k <= 0) ->
    SP_GetNextRecord buf (snd (fst (SP_GetNextRecord buf cursor))) =
    (SP_OK, j, Some (slot_offset buf j, slot_length buf j)).
Proof.
  intros Hc Hdead.
  assert (E : SP_GetNextRecord buf cursor = (SP_ERR_EMPTY, -1, None)).
  { unfold SP_GetNextRecord.
    rewrite to_short_id by (destruct (cursor <? 0); lia).
    rewrite first_live_none; [reflexivity|].
    intros j Hj. destruct (cursor <? 0) eqn:E.
    - apply Z.ltb_lt in E. apply Hdead; lia.
    - apply Z.ltb_ge in E. apply Hdead; lia. }
  split; [exact E|].
  intros j [Hj Hl] Hfirst. rewrite E. simpl.
  pose proof (load_short_range buf 0) as Hr. fold (hdr_slotCount buf) in Hr.
  unfold SP_GetNextRecord. simpl.
  rewrite (to_short_id 0) by lia.
  rewrite (first_live_some buf _ 0 j); auto; try lia.
  rewrite to_short_id by lia. reflexivity.
Qed.

(** ** The deletion pass of the loader *)

(** Number of live slots among the [n] slots from [i] on. *)
Fixpoint live_count (buf : page) (n : nat) (i : Z) : Z :=
  match n with
  | O => 0
  | S n' =>
      (if 0 <? slot_length buf i then 1 else 0) + live_count buf n' (i + 1)
  end.

(** Number of records a page holds. *)
Definition page_records (buf : page) : Z :=
  live_count buf (Z.to_nat (hdr_slotCount buf)) 0.

(** Number of records a file holds. *)
Fixpoint file_records (f : PFfile) : Z :=
  match f with
  | [] => 0
  | buf :: rest => page_records buf + file_records rest
  end.

(** The slot directory of the page lies inside the page buffer. *)
Definition dir_ok (buf : page) : Prop :=
  0 <= hdr_slotCount buf /\
  SP_SLOT (hdr_slotCount buf) <= Z.of_nat (length buf).

Lemma live_count_ext b b' n : forall i,
  (forall s, i <= s < i + Z.of_nat n -> slot_length b' s = slot_length b s) ->
  live_count b' n i = live_count b n i.
Proof.
  induction n as [|n IH]; intros i Hsame; simpl; [reflexivity|].
  rewrite (Hsame i) by lia. f_equal. apply IH.
  intros s Hs. apply Hsame. lia.
Qed.

Lemma live_count_nonneg b n : forall i, 0 <= live_count b n i.
Proof.
  induction n as [|n IH]; intros i; simpl; [lia|].
  specialize (IH (i + 1)). destruct (0 <? slot_length b i); lia.
Qed.

Lemma live_count_dead b n : forall i,
  (forall s, i <= s < i + Z.of_nat n -> slot_length b s <= 0) ->
  live_count b n i = 0.
Proof.
  induction n as [|n IH]; intros i Hdead; simpl; [reflexivity|].
  rewrite IH by (intros s Hs; apply Hdead; lia).
  destruct (0 <? slot_length b i) eqn:E; [|reflexivity].
  apply Z.ltb_lt in E. specialize (Hdead i ltac:(lia)). lia.
Qed.

Lemma live_count_app b n m : forall i,
  live_count b (n + m) i = live_count b n i + live_count b m (i + Z.of_nat n).
Proof.
  induction n as [|n IH]; intros i.
  - simpl. now rewrite Z.add_0_r.
  - cbn [Nat.add live_count]. rewrite IH.
    replace (i + 1 + Z.of_nat n) with (i + Z.of_nat (S n)) by lia. lia.
Qed.

(** The live slots from [s] on, when [j] is the first of them. *)
Lemma live_count_first b s j sc :
  s <= j < sc -> 0 < slot_length b j ->
  (forall k, s <= k < j -> slot_length b k <= 0) ->
  live_count b (Z.to_nat (sc - s)) s =
  1 + live_count b (Z.to_nat (sc - (j + 1))) (j + 1).
Proof.
  intros Hj Hl Hdead.
  replace (Z.to_nat (sc - s))
    with (Z.to_nat (j - s) + (1 + Z.to_nat (sc - (j + 1))))%nat by lia.
  rewrite live_count_app, live_count_dead by (intros k Hk; apply Hdead; lia).
  replace (s + Z.of_nat (Z.to_nat (j - s))) with j by lia.
  cbn [Nat.add live_count].
  destruct (0 <? slot_length b j) eqn:E; [lia|apply Z.ltb_ge in E; lia].
Qed.

Lemma first_live_inv buf n : forall i,
  match first_live buf n i with
  | Some j => i <= j < i + Z.of_nat n /\ 0 < slot_length buf j /\
              forall k, i <= k < j -> slot_length buf k <= 0
  | None => forall k, i <= k < i + Z.of_nat n -> slot_length buf k <= 0
  end.
Proof.
  induction n as [|n IH]; intros i; cbn [first_live].
  - intros k Hk. lia.
  - destruct (0 <? slot_length buf i) eqn:E.
    + apply Z.ltb_lt in E. split; [lia|]. split; [exact E|]. intros k Hk. lia.
    + apply Z.ltb_ge in E. specialize (IH (i + 1)).
      destruct (first_live buf n (i + 1)) as [j|].
      * destruct IH as (H1 & H2 & H3). split; [lia|]. split; [exact H2|].
        intros k Hk. destruct (Z.eq_dec k i) as [->|Hne]; [exact E|].
        apply H3. lia.
      * intros k Hk. destruct (Z.eq_dec k i) as [->|Hne]; [exact E|].
        apply IH. lia.
Qed.

(** The two outcomes of [SP_GetNextRecord] for a cursor that is the
    sentinel or a slot of the page. *)
Lemma get_next_cases buf c :
  -1 <= c < hdr_slotCount buf \/ (c = -1 /\ hdr_slotCount buf <= 0) ->
  (exists j, c < j < hdr_slotCount buf /\ 0 < slot_length buf j /\
     (forall k, c < k < j -> slot_length buf k <= 0) /\
     SP_GetNextRecord buf c =
       (SP_OK, j, Some (slot_offset buf j, slot_length buf j))) \/
  ((forall k, c < k < hdr_slotCount buf -> slot_length buf k <= 0) /\
   SP_GetNextRecord buf c = (SP_ERR_EMPTY, -1, None)).
Proof.
  intros Hc.
  pose proof (load_short_range buf 0) as Hr. fold (hdr_slotCount buf) in Hr.
  unfold SP_GetNextRecord.
  assert (Hs : (if c <? 0 then 0 else c + 1) = c + 1).
  { destruct (c <? 0) eqn:E; [apply Z.ltb_lt in E; lia|reflexivity]. }
  rewrite Hs, (to_short_id (c + 1)) by lia.
  pose proof (first_live_inv buf (Z.to_nat (hdr_slotCount buf - (c + 1)))
                (c + 1)) as H.
  destruct (first_live buf _ (c + 1)) as [j|].
  - left. destruct H as (H1 & H2 & H3). exists j.
    rewrite to_short_id by lia.
    split; [lia|]. split; [exact H2|]. split; [|reflexivity].
    intros k Hk. apply H3. lia.
  - right. split; [|reflexivity]. intros k Hk. apply H. lia.
Qed.

Lemma count_scan_spec buf : 0 <= hdr_slotCount buf -> forall fuel c count,
  -1 <= c < hdr_slotCount buf \/ (c = -1 /\ hdr_slotCount buf <= 0) ->
  hdr_slotCount buf - (c + 1) < Z.of_nat fuel ->
  count_scan fuel buf c count =
  Some (count + live_count buf (Z.to_nat (hdr_slotCount buf - (c + 1))) (c + 1)).
Proof.
  intros Hsc0.
  induction fuel as [|fuel IH]; intros c count Hc Hfuel.
  - lia.
  - cbn [count_scan].
    destruct (get_next_cases buf c Hc)
      as [(j & Hj & Hl & Hdead & ->)|(Hdead & ->)].
    + cbn. rewrite IH by lia.
      rewrite (live_count_first buf (c + 1) j (hdr_slotCount buf));
        try lia.
      * f_equal. lia.
      * intros k Hk. apply Hdead. lia.
    + cbn. rewrite live_count_dead; [f_equal; lia|].
      intros k Hk. apply Hdead. lia.
Qed.

(** Quotients of consecutive counters. *)
Lemma div_succ_multiple (n k : Z) :
  0 <= n -> 0 < k -> (n + 1) mod k = 0 -> (n + 1) / k = n / k + 1.
Proof.
  intros Hn Hk Hm.
  pose proof (Z.div_mod (n + 1) k ltac:(lia)) as E1.
  pose proof (Z.div_mod n k ltac:(lia)) as E2.
  pose proof (Z.mod_pos_bound n k Hk) as B.
  rewrite Hm in E1. nia.
Qed.

Lemma div_succ_other (n k : Z) :
  0 <= n -> 0 < k -> (n + 1) mod k <> 0 -> (n + 1) / k = n / k.
Proof.
  intros Hn Hk Hm.
  pose proof (Z.div_mod (n + 1) k ltac:(lia)) as E1.
  pose proof (Z.div_mod n k ltac:(lia)) as E2.
  pose proof (Z.mod_pos_bound n k Hk) as B.
  pose proof (Z.mod_pos_bound (n + 1) k Hk) as B'.
  nia.
Qed.

Lemma live_count_skip b s j sc :
  s <= j < sc ->
  (forall k, s <= k <= j -> slot_length b k <= 0) ->
  live_count b (Z.to_nat (sc - s)) s =
  live_count b (Z.to_nat (sc - (j + 1))) (j + 1).
Proof.
  intros Hj Hdead.
  replace (Z.to_nat (sc - s))
    with (Z.to_nat (j + 1 - s) + Z.to_nat (sc - (j + 1)))%nat by lia.
  rewrite live_count_app, live_count_dead by (intros k Hk; apply Hdead; lia).
  replace (s + Z.of_nat (Z.to_nat (j + 1 - s))) with (j + 1) by lia.
  lia.
Qed.

(** The inner loop of [deleteEvery] on one page: it ends, counts the [n]
    live records after the cursor, deletes those whose running number is a
    multiple of [step], and leaves the other slots as they were. *)
Lemma delete_scan_spec step :
  0 < step ->
  forall fuel buf c counter deleted dirty,
  dir_ok buf ->
  -1 <= c < hdr_slotCount buf \/ (c = -1 /\ hdr_slotCount buf <= 0) ->
  hdr_slotCount buf - (c + 1) < Z.of_nat fuel ->
  0 <= counter ->
  let m := Z.to_nat (hdr_slotCount buf - (c + 1)) in
  let n := live_count buf m (c + 1) in
  let D := (counter + n) / step - counter / step in
  exists buf' dirty',
    delete_scan fuel step buf c counter deleted dirty =
      Some (buf', counter + n, deleted + D, dirty') /\
    dir_ok buf' /\
    hdr_slotCount buf' = hdr_slotCount buf /\
    (forall i, 0 <= i <= c -> slot_length buf' i = slot_length buf i) /\
    live_count buf' m (c + 1) = n - D /\
    (dirty' = true \/ (dirty' = dirty /\ buf' = buf)).
Proof.
  intros Hstep.
  induction fuel as [|fuel IH]; intros buf c counter deleted dirty
    Hdir Hc Hfuel Hcnt m n D; [unfold dir_ok in Hdir; lia|].
  cbn [delete_scan].
  destruct (get_next_cases buf c Hc)
    as [(j & Hj & Hl & Hdead & ->)|(Hdead & ->)].
  - cbn.
    assert (Hn : n = 1 + live_count buf
                   (Z.to_nat (hdr_slotCount buf - (j + 1))) (j + 1)).
    { unfold n, m. apply live_count_first; try lia.
      intros k Hk. apply Hdead. lia. }
    assert (Hst : (0 <? step) = true) by (apply Z.ltb_lt; lia).
    rewrite Hst, Z.rem_mod_nonneg by lia. cbn [andb].
    destruct ((counter + 1) mod step =? 0) eqn:Em.
    + (* the record is deleted *)
      apply Z.eqb_eq in Em.
      destruct (delete_ok buf j) as (b1 & Heq & Dl);
        [apply Hdir|split; [lia|exact Hl]|].
      rewrite Heq. cbn.
      assert (Hdir1 : dir_ok b1).
      { unfold dir_ok. rewrite (del_slotCount _ _ _ Dl), (del_length _ _ _ Dl).
        exact Hdir. }
      assert (Hlen1 : forall i, 0 <= i -> i <> j ->
                slot_length b1 i = slot_length buf i)
        by (intros i Hi Hne; apply (del_others _ _ _ Dl i Hi Hne)).
      destruct (IH b1 j (counter + 1) (deleted + 1) true Hdir1)
        as (buf' & dirty' & Heq' & Hdir' & Hsc' & Hkeep & Hrest & Hdirty).
      { rewrite (del_slotCount _ _ _ Dl). lia. }
      { rewrite (del_slotCount _ _ _ Dl). lia. }
      { lia. }
      rewrite (del_slotCount _ _ _ Dl) in *.
      rewrite (live_count_ext buf b1) in Heq', Hrest
        by (intros s Hs; apply Hlen1; lia).
      set (n1 := live_count buf
                   (Z.to_nat (hdr_slotCount buf - (j + 1))) (j + 1)) in *.
      pose proof (div_succ_multiple counter step Hcnt Hstep Em) as Hq.
      exists buf', dirty'. split.
      { rewrite Heq'. f_equal.
        repeat (apply pair_equal_spec; split); try reflexivity; [lia|].
        unfold D. rewrite Hn.
        replace (counter + (1 + n1)) with (counter + 1 + n1) by lia. lia. }
      split; [exact Hdir'|]. split; [exact Hsc'|]. split.
      { intros i Hi. rewrite Hkeep by lia. apply Hlen1; lia. }
      split.
      { unfold m. rewrite (live_count_skip buf' (c + 1) j); try lia.
        - rewrite Hrest. unfold D. rewrite Hn.
          replace (counter + (1 + n1)) with (counter + 1 + n1) by lia. lia.
        - intros k Hk. rewrite Hkeep by lia.
          destruct (Z.eq_dec k j) as [->|Hne].
          + rewrite (del_slot_length _ _ _ Dl). lia.
          + rewrite Hlen1 by lia. apply Hdead. lia. }
      destruct Hdirty as [->|[-> _]]; auto.
    + (* the record stays *)
      apply Z.eqb_neq in Em.
      destruct (IH buf j (counter + 1) deleted dirty Hdir)
        as (buf' & dirty' & Heq' & Hdir' & Hsc' & Hkeep & Hrest & Hdirty);
        try lia.
      set (n1 := live_count buf
                   (Z.to_nat (hdr_slotCount buf - (j + 1))) (j + 1)) in *.
      pose proof (div_succ_other counter step Hcnt Hstep Em) as Hq.
      exists buf', dirty'. split.
      { rewrite Heq'. f_equal.
        repeat (apply pair_equal_spec; split); try reflexivity; [lia|].
        unfold D. rewrite Hn.
        replace (counter + (1 + n1)) with (counter + 1 + n1) by lia. lia. }
      split; [exact Hdir'|]. split; [exact Hsc'|]. split.
      { intros i Hi. apply Hkeep. lia. }
      split; [|exact Hdirty].
      unfold m. rewrite (live_count_first buf' (c + 1) j); try lia.
      * rewrite Hrest. unfold D. rewrite Hn.
        replace (counter + (1 + n1)) with (counter + 1 + n1) by lia. lia.
      * rewrite Hkeep by lia. exact Hl.
      * intros k Hk. rewrite Hkeep by lia. apply Hdead. lia.
  - cbn.
    assert (Hn : n = 0).
    { unfold n, m. apply live_count_dead. intros k Hk. apply Hdead. lia. }
    assert (HD : D = 0) by (unfold D; rewrite Hn, Z.add_0_r; lia).
    exists buf, dirty. rewrite Hn, HD, !Z.add_0_r.
    split; [reflexivity|]. split; [exact Hdir|]. split; [reflexivity|].
    split; [auto|]. split; [|auto].
    fold n. lia.
Qed.

(** The page the iterator delivers when the pages [done] have been visited
    and [rest] remain. *)
Definition cur_of (done rest : PFfile) : option (Z * page) :=
  match rest with
  | [] => None
  | buf :: _ => Some (Z.of_nat (length done), buf)
  end.

Lemma insert_middle (l1 l2 : PFfile) (x y : page) :
  <[length l1 := y]> (l1 ++ x :: l2) = l1 ++ y :: l2.
Proof. induction l1 as [|a l1 IH]; simpl; [reflexivity|now rewrite IH]. Qed.

Lemma unfix_middle (done rest : PFfile) (b b' : page) (dirty : bool) :
  dirty = true \/ b' = b ->
  PF_UnfixPage (done ++ b :: rest) (Z.of_nat (length done)) b' dirty =
  done ++ b' :: rest.
Proof.
  intros H. unfold PF_UnfixPage. rewrite Nat2Z.id.
  destruct dirty.
  - apply insert_middle.
  - destruct H as [H| ->]; [discriminate|reflexivity].
Qed.

Lemma next_page_middle (done rest : PFfile) (b : page) :
  PF_GetNextPage (done ++ b :: rest) (Z.of_nat (length done)) =
  cur_of (done ++ [b]) rest.
Proof.
  unfold PF_GetNextPage, cur_of.
  replace (Z.to_nat (Z.of_nat (length done) + 1)) with (S (length done)) by lia.
  replace (done ++ b :: rest) with ((done ++ [b]) ++ rest)
    by (now rewrite <- app_assoc).
  replace (S (length done)) with (length (done ++ [b]) + 0)%nat
    by (rewrite length_app; simpl; lia).
  rewrite lookup_app_r by lia.
  replace (length (done ++ [b]) + 0 - length (done ++ [b]))%nat with 0%nat
    by lia.
  destruct rest as [|x rest]; simpl; [reflexivity|].
  f_equal. f_equal. rewrite length_app. simpl. lia.
Qed.

Lemma page_records_cursor buf :
  page_records buf =
  live_count buf (Z.to_nat (hdr_slotCount buf - (-1 + 1))) (-1 + 1).
Proof. unfold page_records. simpl. now rewrite Z.sub_0_r. Qed.

Lemma start_cursor_ok buf :
  0 <= hdr_slotCount buf ->
  -1 <= -1 < hdr_slotCount buf \/ (-1 = -1 /\ hdr_slotCount buf <= 0).
Proof. intros H. destruct (Z.eq_dec (hdr_slotCount buf) 0); [right|left]; lia. Qed.

Lemma count_pages_spec : forall rest done fuel count,
  Forall dir_ok rest ->
  32767 + Z.of_nat (length rest) < Z.of_nat fuel ->
  count_pages fuel (done ++ rest) (cur_of done rest) count =
  Some (count + file_records rest).
Proof.
  induction rest as [|b rest IH]; intros done fuel count Hok Hfuel.
  - destruct fuel; [simpl in Hfuel; lia|]. simpl. f_equal. lia.
  - destruct fuel as [|fuel]; [simpl in Hfuel; lia|].
    apply Forall_cons in Hok as [[Hsc Hb] Hok].
    pose proof (load_short_range b 0) as Hr. fold (hdr_slotCount b) in Hr.
    cbn [count_pages cur_of].
    rewrite (count_scan_spec b Hsc (S fuel) (-1) count (start_cursor_ok b Hsc))
      by lia.
    rewrite <- page_records_cursor.
    unfold PF_UnfixPage. rewrite next_page_middle.
    replace (done ++ b :: rest) with ((done ++ [b]) ++ rest)
      by (now rewrite <- app_assoc).
    rewrite IH; auto.
    + cbn [file_records]. f_equal. lia.
    + cbn [length] in Hfuel. lia.
Qed.

Lemma delete_pages_spec step :
  0 < step ->
  forall rest done fuel counter deleted,
  Forall dir_ok rest ->
  32767 + Z.of_nat (length rest) < Z.of_nat fuel ->
  0 <= counter ->
  let N := file_records rest in
  let D := (counter + N) / step - counter / step in
  exists rest',
    delete_pages fuel step (done ++ rest) (cur_of done rest) counter deleted =
      Some (deleted + D, done ++ rest') /\
    Forall dir_ok rest' /\ length rest' = length rest /\
    file_records rest' = N - D.
Proof.
  intros Hstep.
  induction rest as [|b rest IH]; intros done fuel counter deleted
    Hok Hfuel Hcnt N D.
  - destruct fuel; [simpl in Hfuel; lia|].
    exists []. unfold D, N. simpl. rewrite Z.add_0_r.
    rewrite Z.sub_diag, Z.add_0_r, Z.sub_0_r. repeat split; auto.
  - destruct fuel as [|fuel]; [simpl in Hfuel; lia|].
    apply Forall_cons in Hok as [Hb Hok]. pose proof Hb as [Hsc _].
    pose proof (load_short_range b 0) as Hr. fold (hdr_slotCount b) in Hr.
    cbn [delete_pages cur_of].
    destruct (delete_scan_spec step Hstep (S fuel) b (-1) counter deleted
                false Hb (start_cursor_ok b Hsc) ltac:(lia) Hcnt)
      as (b' & dirty' & Heq & Hb' & Hsc' & _ & Hrest & Hdirty).
    rewrite <- page_records_cursor in Heq, Hrest.
    rewrite Heq.
    rewrite unfix_middle by (destruct Hdirty as [H|[_ H]]; auto).
    rewrite next_page_middle.
    replace (done ++ b' :: rest) with ((done ++ [b']) ++ rest)
      by (now rewrite <- app_assoc).
    assert (Hpr : 0 <= page_records b) by apply live_count_nonneg.
    destruct (IH (done ++ [b']) fuel (counter + page_records b)
                (deleted + ((counter + page_records b) / step - counter / step))
                Hok ltac:(cbn [length] in Hfuel; lia) ltac:(lia))
      as (rest' & Heq2 & Hok' & Hlen' & Hrec').
    exists (b' :: rest'). split.
    { rewrite Heq2. rewrite <- app_assoc. simpl. f_equal. f_equal.
      unfold D, N. cbn [file_records].
      replace (counter + (page_records b + file_records rest))
        with (counter + page_records b + file_records rest) by lia.
      lia. }
    split; [constructor; auto|]. split; [simpl; lia|].
    cbn [file_records].
    assert (Hp' : page_records b' =
                  page_records b
                  - ((counter + page_records b) / step - counter / step)).
    { rewrite (page_records_cursor b'), Hsc'. exact Hrest. }
    rewrite Hp', Hrec'. unfold D, N. cbn [file_records].
    replace (counter + (page_records b + file_records rest))
      with (counter + page_records b + file_records rest) by lia.
    lia.
Qed.

(** C5: for every delete step [k > 0] and every file holding [N] records
    (on pages whose slot directory lies inside the page), the scan counts
    [N], the deletion pass ends and deletes exactly [N / k] records (every
    [k]-th in scan order, the counter running across pages), and the scan
    that follows counts [N - N / k]. *)
Theorem delete_every_kth (f : PFfile) (k : Z) (fuel : nat) :
  0 < k ->
  Forall dir_ok f ->
  32767 + Z.of_nat (length f) < Z.of_nat fuel ->
  let N := file_records f in
  scanCount fuel f = Some N /\
  exists f',
    deleteEvery fuel f k = Some (N / k, f') /\
    scanCount fuel f' = Some (N - N / k).
Proof.
  intros Hk Hok Hfuel N.
  assert (Hfirst : forall g : PFfile, PF_GetFirstPage g = cur_of [] g).
  { intros g. unfold PF_GetFirstPage, cur_of. destruct g; reflexivity. }
  split.
  - unfold scanCount. rewrite Hfirst.
    apply (count_pages_spec f [] fuel 0 Hok Hfuel).
  - destruct (delete_pages_spec k Hk f [] fuel 0 0 Hok Hfuel ltac:(lia))
      as (f' & Heq & Hok' & Hlen' & Hrec').
    exists f'. unfold deleteEvery, scanCount. rewrite !Hfirst.
    change ([] ++ f) with f in Heq. change ([] ++ f') with f' in Heq.
    fold N in Heq, Hrec'.
    assert (HD : (0 + N) / k - 0 / k = N / k)
      by (rewrite Z.add_0_l, Zdiv_0_l; lia).
    rewrite HD in Heq, Hrec'. rewrite Z.add_0_l in Heq.
    split; [exact Heq|].
    rewrite <- Hrec'.
    apply (count_pages_spec f' [] fuel 0 Hok'). lia.
Qed.

(** ** The line loop of the loader *)

(** [strip_eol] removes the maximal run of line terminators that ends at
    position [n]. *)
Lemma strip_eol_spec (line : list byte) : forall n : nat,
  let m := strip_eol line n in
  (m <= n)%nat /\
  (forall i : nat, (m <= i < n)%nat ->
     is_eol (byte_at line (Z.of_nat i)) = true) /\
  (m = 0%nat \/ is_eol (byte_at line (Z.of_nat (m - 1))) = false).
Proof.
  induction n as [|n IH]; cbn [strip_eol].
  - split; [lia|]. split; [intros i Hi; lia|auto].
  - destruct (is_eol (byte_at line (Z.of_nat n))) eqn:E.
    + destruct IH as (H1 & H2 & H3). split; [lia|]. split; [|exact H3].
      intros i Hi. destruct (Nat.eq_dec i n) as [->|Hne]; [exact E|].
      apply H2. lia.
    + split; [lia|]. split; [intros i Hi; lia|]. right.
      replace (S n - 1)%nat with n by lia. exact E.
Qed.

Lemma byte_at_lookup (l : list byte) (k : nat) (c : byte) :
  l !! k = Some c -> byte_at l (Z.of_nat k) = c.
Proof. intros H. unfold byte_at. now rewrite Nat2Z.id, H. Qed.

Lemma strlen_le (s : list byte) : (strlen s <= length s)%nat.
Proof.
  induction s as [|c s IH]; cbn [strlen length]; [lia|].
  destruct (Z_of_byte c =? 0); lia.
Qed.


(** The record the loader makes of a buffer: its bytes before the first
    NUL, without the carriage returns and line feeds that end them. *)
Lemma stripped_line (line : list byte) :
  let data := take (strip_eol line (strlen line)) line in
  let suffix := drop (strip_eol line (strlen line)) (take (strlen line) line) in
  take (strlen line) line = data ++ suffix /\
  Forall (fun c => is_eol c = true) suffix /\
  (forall c, last data = Some c -> is_eol c = false) /\
  length data = strip_eol line (strlen line).
Proof.
  intros data suffix.
  destruct (strip_eol_spec line (strlen line)) as (H1 & H2 & H3).
  pose proof (strlen_le line) as Hle.
  set (m := strip_eol line (strlen line)) in *.
  assert (Hlen : length data = m) by (unfold data; rewrite length_take; lia).
  split; [|split; [|split; [|exact Hlen]]].
  - unfold data, suffix.
    rewrite <- (take_drop m (take (strlen line) line)) at 1.
    rewrite take_take. now replace (m `min` strlen line)%nat with m by lia.
  - apply Forall_lookup. intros i c Hi. unfold suffix in Hi.
    rewrite lookup_drop in Hi.
    assert (Hlt : (m + i < strlen line)%nat).
    { apply lookup_lt_Some in Hi. rewrite length_take in Hi. lia. }
    rewrite lookup_take_lt in Hi by exact Hlt.
    rewrite <- (byte_at_lookup line (m + i) c Hi).
    apply H2. lia.
  - intros c Hc. rewrite last_lookup, Hlen in Hc.
    destruct (Nat.eq_dec m 0%nat) as [Hm|Hm].
    + unfold data in Hc. rewrite Hm in Hc. simpl in Hc. discriminate.
    + destruct H3 as [H3|H3]; [contradiction|].
      unfold data in Hc. rewrite lookup_take_lt in Hc by lia.
      replace (Init.Nat.pred m) with (m - 1)%nat in Hc by lia.
      now rewrite (byte_at_lookup line (m - 1) c Hc) in H3.
Qed.


(** What [fgets_read] stores and leaves: the stored bytes are a prefix of
    the stream of at most [n] bytes, none of them a line feed except
    possibly the last, and the prefix is as long as these conditions
    allow. *)
Lemma fgets_read_spec : forall (n : nat) (fp : list byte),
  let line := fst (fgets_read n fp) in
  let rest := snd (fgets_read n fp) in
  fp = line ++ rest /\ (length line <= n)%nat /\
  (forall (i : nat) c, line !! i = Some c -> Z_of_byte c = 10 ->
     S i = length line) /\
  (rest = [] \/ length line = n \/
   exists c, last line = Some c /\ Z_of_byte c = 10) /\
  (fp <> [] -> (0 < n)%nat -> line <> []).
Proof.
  induction n as [|n IH]; intros fp; cbn [fgets_read].
  - cbn. split; [reflexivity|]. split; [lia|].
    split; [intros i c H; discriminate|]. split; [auto|]. intros _ H. lia.
  - destruct fp as [|c fp].
    + cbn. split; [reflexivity|]. split; [lia|].
      split; [intros i c H; discriminate|]. split; [auto|].
      intros H. contradiction.
    + destruct (Z_of_byte c =? 10) eqn:E.
      * apply Z.eqb_eq in E. cbn. split; [reflexivity|]. split; [lia|].
        split.
        { intros [|i] c' H; [reflexivity|discriminate]. }
        split; [right; right; eauto|]. intros _ _. discriminate.
      * apply Z.eqb_neq in E.
        specialize (IH fp).
        destruct (fgets_read n fp) as [line rest]. cbn [fst snd] in *.
        destruct IH as (Happ & Hlen & Hlf & Hmax & _).
        split; [cbn; now rewrite <- Happ|]. split; [cbn; lia|].
        split.
        { intros [|i] c' H Hc'.
          - injection H as <-. contradiction.
          - cbn. f_equal. apply (Hlf i c' H Hc'). }
        split; [|intros _ _; discriminate].
        destruct Hmax as [H|[H|(c' & H & Hc')]]; [auto|right; left; cbn; lia|].
        right. right. exists c'. split; [|exact Hc'].
        destruct line; [discriminate|exact H].
Qed.

Lemma fgets_spec (fp line rest : list byte) :
  fgets LINE_SIZE fp = Some (line, rest) ->
  fp = line ++ rest /\ (0 < length line <= 4095)%nat /\
  (forall (i : nat) c, line !! i = Some c -> Z_of_byte c = 10 ->
     S i = length line) /\
  (rest = [] \/ length line = 4095%nat \/
   exists c, last line = Some c /\ Z_of_byte c = 10).
Proof.
  unfold fgets. destruct fp as [|c fp]; [discriminate|].
  pose proof (fgets_read_spec (Z.to_nat (LINE_SIZE - 1)) (c :: fp)) as Hs.
  remember (fgets_read (Z.to_nat (LINE_SIZE - 1)) (c :: fp)) as r eqn:Hr.
  intros H. injection H as ->. clear Hr. cbn [fst snd] in Hs.
  destruct Hs as (Happ & Hlen & Hlf & Hmax & Hne).
  assert (E : Z.to_nat (LINE_SIZE - 1) = 4095%nat)
    by (unfold LINE_SIZE; lia).
  rewrite E in *.
  split; [exact Happ|]. split; [|split; [exact Hlf|exact Hmax]].
  split; [|exact Hlen].
  destruct line; [exfalso; apply Hne; [discriminate|lia|reflexivity]|].
  cbn. lia.
Qed.

Lemma fgets_None (fp : list byte) : fgets LINE_SIZE fp = None <-> fp = [].
Proof.
  unfold fgets. destruct fp; split; intros H; try discriminate; reflexivity.
Qed.


(** ** Insertion on a fresh page *)

Section FreshPage.

Variable PF_PAGE_SIZE : Z.
Hypothesis page_size_ok : 8 <= PF_PAGE_SIZE <= 32767.

(** A record of at most [PF_PAGE_SIZE - 12] bytes (the page without its
    header and one directory entry) fits on a page that was just
    initialised. *)
Lemma insert_fresh (pageBuf data : list byte) (len : Z) :
  Z.of_nat (length pageBuf) = PF_PAGE_SIZE ->
  0 < len <= PF_PAGE_SIZE - 12 -> len <= Z.of_nat (length data) ->
  exists buf',
    SP_InsertRecord PF_PAGE_SIZE (SP_InitPage PF_PAGE_SIZE pageBuf) data len
    = (SP_OK, buf', Some 0).
Proof.
  intros Hlen Hl Hdata.
  pose proof (init_inv PF_PAGE_SIZE page_size_ok pageBuf Hlen) as Hinv.
  destruct (init_header PF_PAGE_SIZE page_size_ok pageBuf Hlen)
    as (_ & Hc & Hh & Hf).
  set (b0 := SP_InitPage PF_PAGE_SIZE pageBuf) in *.
  assert (Hnext : next_slot b0 = 0 /\ need_slot b0 = 4).
  { unfold next_slot, need_slot. rewrite Hh, Hc. auto. }
  destruct Hnext as [Hn Hs].
  destruct (insert_spec PF_PAGE_SIZE page_size_ok b0 data len Hinv Hdata)
    as (rc & b' & out & Heq & _ & Hcases).
  destruct Hcases as [(_ & _ & _ & [Hle|Hfull])|(-> & -> & _)].
  - lia.
  - exfalso. pose proof Hinv as [Hlay _].
    destruct (compact_compacted PF_PAGE_SIZE page_size_ok b0 _ Hlay)
      as [order C].
    pose proof (cp_bound _ _ _ _ _ C) as Hb.
    pose proof (cp_slotCount _ _ _ _ _ C) as Hsc.
    unfold SP_PageFreeSpace in Hfull.
    unfold sizeof_SP_PageHeader, sizeof_SP_SlotEntry in *.
    rewrite Hsc, Hc, Hs in Hfull. lia.
  - exists b'. now rewrite Heq, Hn.
Qed.

(** C4, as far as the code goes: for every line the loader accepts whose
    record is at most [PF_PAGE_SIZE - 12] bytes long, the insertion on a
    freshly allocated and initialised page returns [SP_OK]; hence
    [insertRecord] returns [SP_OK] whether or not the record fitted on the
    current page. *)
Theorem retry_on_fresh_page (line data : list byte) (len : Z)
    (f : PFfile) (store : StudentStore) :
  line_action line = Pack data len ->
  len <= PF_PAGE_SIZE - 12 ->
  lastPage store < 0 \/ is_Some (PF_GetThisPage f (lastPage store)) ->
  (forall pageBuf, Z.of_nat (length pageBuf) = PF_PAGE_SIZE ->
     fst (fst (SP_InsertRecord PF_PAGE_SIZE
                 (SP_InitPage PF_PAGE_SIZE pageBuf) data len)) = SP_OK) /\
  fst (fst (insertRecord PF_PAGE_SIZE f store data len)) = SP_OK.
Proof.
  intros Hact Hfit Hstore.
  assert (Hrec : 0 < len /\ Z.of_nat (length data) = len).
  { destruct (stripped_line line) as (_ & _ & _ & Hlen).
    unfold line_action in Hact.
    set (m := strip_eol line (strlen line)) in *.
    destruct (m =? 0)%nat eqn:E0; [discriminate|].
    destruct (negb (isdigit (byte_at (take m line) 0))); [discriminate|].
    destruct (32760 <=? Z.of_nat m) eqn:E1; [discriminate|].
    apply Z.leb_gt in E1. apply Nat.eqb_neq in E0.
    injection Hact as <- <-.
    rewrite to_short_id by lia. rewrite Hlen. lia. }
  destruct Hrec as [Hpos Hdata].
  assert (Hfresh : forall pageBuf, Z.of_nat (length pageBuf) = PF_PAGE_SIZE ->
            fst (fst (SP_InsertRecord PF_PAGE_SIZE
                        (SP_InitPage PF_PAGE_SIZE pageBuf) data len)) = SP_OK).
  { intros pageBuf Hlen.
    destruct (insert_fresh pageBuf data len Hlen ltac:(lia) ltac:(lia))
      as [b' ->]. reflexivity. }
  split; [exact Hfresh|].
  assert (Halloc : Z.of_nat (length (replicate (Z.to_nat PF_PAGE_SIZE) x00))
                   = PF_PAGE_SIZE) by (rewrite length_replicate; lia).
  pose proof (Hfresh _ Halloc) as Hretry.
  unfold insertRecord, PF_AllocPage.
  destruct (lastPage store <? 0) eqn:E.
  - cbn.
    destruct (SP_InsertRecord PF_PAGE_SIZE _ data len) as [[rc b] out] eqn:E1.
    simpl in Hretry. subst rc. reflexivity.
  - apply Z.ltb_ge in E. destruct Hstore as [H|[cur Hcur]]; [lia|].
    rewrite Hcur.
    destruct (SP_InsertRecord PF_PAGE_SIZE cur data len) as [[rc b] out].
    destruct (rc =? SP_OK) eqn:Erc; [reflexivity|].
    destruct (SP_InsertRecord PF_PAGE_SIZE _ data len) as [[rc' b'] out'].
    simpl in Hretry. subst rc'. reflexivity.
Qed.

End FreshPage.

(** ** The exit code of the index benchmark *)

(** An environment in which the data set loads and everything succeeds
    except [AM_CreateIndex] for the first ordering. *)
Definition ok_build : BuildEnv := mkBuildEnv AME_OK 3 [AME_OK; AME_OK].
Definition ok_query : QueryEnv := mkQueryEnv 3 [0; 0].
Definition failing_post_build : IndexEnv :=
  mkIndexEnv true 0 2 true true
    (mkBuildEnv (-1) 3 [AME_OK; AME_OK]) ok_query
    ok_build ok_query ok_build ok_query 0.

(** C3: when the build phase of the first ordering fails, [main] of the
    index benchmark leaves through the [cleanup] label and returns 0, and
    no metrics are written. *)
Theorem index_build_failure_exit_code :
  buildIndex (post_build failing_post_build) = -1 /\
  index_benchmark_main failing_post_build = (0, None).
Proof. split; reflexivity. Qed.

(** ** The specification's reading of the line filter *)






(** ** Concrete runs *)

(** A page of 64 bytes holding two records of 20 bytes, the first of which
    has been deleted: 8 bytes are free, 20 more are reclaimable. *)
Definition page_with_hole : page :=
  sp_run 64 (SP_InitPage 64 (replicate 64 x00))
    [OpInsert (replicate 20 x41) 20; OpInsert (replicate 20 x42) 20;
     OpDelete 0].

Lemma page_with_hole_inv : sp_inv 64 page_with_hole.
Proof.
  apply run_inv; [lia|apply init_inv; [lia|reflexivity]|].
  repeat constructor; simpl; lia.
Qed.

Lemma live_decide (buf : page) (s : Z) :
  (0 <=? s) && (s <? hdr_slotCount buf) && (0 <? slot_length buf s) = true ->
  live buf s.
Proof.
  intros H. apply andb_prop in H as [H H3]. apply andb_prop in H as [H1 H2].
  apply Z.leb_le in H1. apply Z.ltb_lt in H2, H3. split; [lia|exact H3].
Qed.

(** Three records written to a fresh 64-byte page and read back. *)
Lemma insert_get_round_trip_witness :
  exists b ids,
    insert_all 64 (SP_InitPage 64 (replicate 64 x00))
      [([x01; x02; x03], 3); ([x04; x05], 2); ([x06; x07; x08; x09], 4)]
    = Some (b, ids) /\
    Forall2 (fun id p => get_bytes b id = Some (snd p, fst p)) ids
      [([x01; x02; x03], 3); ([x04; x05], 2); ([x06; x07; x08; x09], 4)].
Proof.
  eexists. eexists. split; [vm_compute; reflexivity|].
  apply (insert_get_round_trip 64 ltac:(lia) (replicate 64 x00)).
  - reflexivity.
  - repeat constructor.
  - vm_compute. reflexivity.
Defined.

(** An insertion of 10 bytes into [page_with_hole] needs the compaction,
    which moves the record of slot 1; the record is read back unchanged. *)
Lemma insert_keeps_live_records_witness :
  let r := SP_InsertRecord 64 page_with_hole (replicate 10 x43) 10 in
  SP_PageFreeSpace page_with_hole < 10 /\
  slot_offset page_with_hole 1 <> slot_offset (snd (fst r)) 1 /\
  live (snd (fst r)) 1 /\
  exists rr, get_bytes page_with_hole 1 = Some rr /\
             get_bytes (snd (fst r)) 1 = Some rr.
Proof.
  intros r.
  split; [vm_compute; reflexivity|].
  split; [vm_compute; discriminate|].
  apply (insert_keeps_live_records 64 ltac:(lia) page_with_hole
           (replicate 10 x43) 10 (snd (fst r)) (snd r) 1).
  - exact page_with_hole_inv.
  - simpl. lia.
  - vm_compute. reflexivity.
  - apply live_decide. vm_compute. reflexivity.
Defined.

(** Insert, delete and insert again on [page_with_hole]. *)
Lemma tombstone_reuse_witness :
  let r := SP_InsertRecord 64 page_with_hole (replicate 5 x44) 5 in
  exists b2 b3,
    SP_DeleteRecord (snd (fst r)) 0 = (SP_OK, b2) /\
    SP_InsertRecord 64 b2 (replicate 5 x45) 5 = (SP_OK, b3, Some 0) /\
    hdr_slotCount b3 = hdr_slotCount (snd (fst r)).
Proof.
  intros r.
  apply (tombstone_reuse 64 ltac:(lia) page_with_hole (replicate 5 x44)
           (replicate 5 x45) 5 (snd (fst r)) 0).
  - exact page_with_hole_inv.
  - simpl. lia.
  - simpl. lia.
  - vm_compute. reflexivity.
Defined.

Lemma compaction_idempotent_witness :
  SP_CompactPage 64 (SP_CompactPage 64 page_with_hole)
  = SP_CompactPage 64 page_with_hole /\
  slot_offset (SP_CompactPage 64 page_with_hole) 1
  <> slot_offset page_with_hole 1.
Proof.
  split; [|vm_compute; discriminate].
  apply (compaction_idempotent 64 ltac:(lia) page_with_hole
           page_with_hole_inv).
Defined.

(** On [page_with_hole] slot 1 is the last live slot: a scan with cursor 1
    is exhausted, and the next call returns slot 1 again. *)
Lemma scan_exhausted_resets_cursor_witness :
  SP_GetNextRecord page_with_hole 1 = (SP_ERR_EMPTY, -1, None) /\
  SP_GetNextRecord page_with_hole
    (snd (fst (SP_GetNextRecord page_with_hole 1)))
  = (SP_OK, 1, Some (slot_offset page_with_hole 1,
                     slot_length page_with_hole 1)).
Proof.
  destruct (scan_exhausted_resets_cursor page_with_hole 1) as [H1 H2].
  - lia.
  - intros i Hi Hc. exfalso. revert Hc.
    change (hdr_slotCount page_with_hole) with 2. lia.
  - split; [exact H1|]. apply H2.
    + apply live_decide. vm_compute. reflexivity.
    + intros k Hk. assert (k = 0) as -> by lia. vm_compute. discriminate.
Defined.

(** A file of two pages with three records in all, and a delete step
    of 2. *)
Definition two_pages : PFfile :=
  [ sp_run 64 (SP_InitPage 64 (replicate 64 x00))
      [OpInsert [x31; x32] 2; OpInsert [x33] 1];
    sp_run 64 (SP_InitPage 64 (replicate 64 x00)) [OpInsert [x34; x35] 2] ].

Lemma delete_every_kth_witness :
  scanCount (Z.to_nat 40000) two_pages = Some 3 /\
  exists f',
    deleteEvery (Z.to_nat 40000) two_pages 2 = Some (1, f') /\
    scanCount (Z.to_nat 40000) f' = Some 2.
Proof.
  apply (delete_every_kth two_pages 2 (Z.to_nat 40000)).
  - lia.
  - repeat constructor; apply Z.leb_le; vm_compute; reflexivity.
  - simpl. lia.
Defined.

(** A line of digits ended by a line feed, on an empty store with pages
    of 64 bytes. *)
Lemma retry_on_fresh_page_witness :
  (forall pageBuf, Z.of_nat (length pageBuf) = 64 ->
     fst (fst (SP_InsertRecord 64 (SP_InitPage 64 pageBuf)
                 [x31; x32; x33] 3)) = SP_OK) /\
  fst (fst (insertRecord 64 [] (mkStore 3 (-1) 0 0) [x31; x32; x33] 3))
  = SP_OK.
Proof.
  apply (retry_on_fresh_page 64 ltac:(lia) [x31; x32; x33; x0a]).
  - reflexivity.
  - lia.
  - left. simpl. lia.
Defined.

(** C4, as stated, fails for pages of 4096 bytes: a line of 4090 digits is
    accepted by the loader, does not fit on the current page, and does not
    fit on a fresh page either. *)
Lemma retry_on_fresh_page_counterexample :
  ~ (forall (line data : list byte) (len : Z) (cur pageBuf : page),
       line_action line = Pack data len ->
       Z.of_nat (length pageBuf) = 4096 ->
       fst (fst (SP_InsertRecord 4096 cur data len)) = SP_ERR_NOSPACE ->
       fst (fst (SP_InsertRecord 4096 (SP_InitPage 4096 pageBuf) data len))
       = SP_OK).
Proof.
  intros H.
  specialize (H (replicate (Z.to_nat 4090) x31) (replicate (Z.to_nat 4090) x31)
                4090
                (SP_InitPage 4096 (replicate (Z.to_nat 4096) x00))
                (replicate (Z.to_nat 4096) x00)).
  assert (E : fst (fst (SP_InsertRecord 4096
                (SP_InitPage 4096 (replicate (Z.to_nat 4096) x00))
                (replicate (Z.to_nat 4090) x31) 4090)) = SP_ERR_NOSPACE)
    by (vm_compute; reflexivity).
  rewrite E in H.
  assert (H' : SP_ERR_NOSPACE = SP_OK).
  { apply H; [vm_compute; reflexivity|vm_compute; reflexivity|reflexivity]. }
  discriminate H'.
Qed.


(** An input whose first line has 4098 bytes before its line feed:
    [fgets] delivers its first 4095 bytes, which start with a letter, and
    then the digits that end it, which become a record. *)
Definition long_line_input : list byte :=
  x78 :: replicate (Z.to_nat 4094) x61 ++ [x31; x32; x33; x0a].


(** * Further properties of the codec *)

(** ** Used bytes *)

(** Sum of the lengths of the live slots among the [n] slots from [i] on. *)
Fixpoint used_sum (buf : page) (n : nat) (i : Z) : Z :=
  match n with
  | O => 0
  | S n' =>
      (if 0 <? slot_length buf i then slot_length buf i else 0)
      + used_sum buf n' (i + 1)
  end.

(** Sum of [len] over a list of slots. *)
Fixpoint len_sum (len : Z -> Z) (l : list Z) : Z :=
  match l with
  | [] => 0
  | s :: r => len s + len_sum len r
  end.

Lemma used_loop_sum buf n : forall i acc,
  used_loop buf n i acc = acc + used_sum buf n i.
Proof.
  induction n as [|n IH]; intros i acc; simpl; [lia|].
  rewrite IH. destruct (0 <? slot_length buf i); lia.
Qed.

Lemma used_bytes_sum buf :
  SP_PageUsedBytes buf = used_sum buf (Z.to_nat (hdr_slotCount buf)) 0.
Proof. unfold SP_PageUsedBytes. rewrite used_loop_sum. lia. Qed.

Lemma used_sum_ext b b' n : forall i,
  (forall s, i <= s < i + Z.of_nat n -> slot_length b' s = slot_length b s) ->
  used_sum b' n i = used_sum b n i.
Proof.
  induction n as [|n IH]; intros i Hsame; simpl; [reflexivity|].
  rewrite (Hsame i) by lia. f_equal. apply IH.
  intros s Hs. apply Hsame. lia.
Qed.

Lemma used_sum_app b n m : forall i,
  used_sum b (n + m) i = used_sum b n i + used_sum b m (i + Z.of_nat n).
Proof.
  induction n as [|n IH]; intros i.
  - simpl. now rewrite Z.add_0_r.
  - cbn [Nat.add used_sum]. rewrite IH.
    replace (i + 1 + Z.of_nat n) with (i + Z.of_nat (S n)) by lia. lia.
Qed.

Lemma used_sum_nonneg b n : forall i, 0 <= used_sum b n i.
Proof.
  induction n as [|n IH]; intros i; simpl; [lia|].
  specialize (IH (i + 1)).
  destruct (0 <? slot_length b i) eqn:E; [apply Z.ltb_lt in E|]; lia.
Qed.

(** The sums when the pages [b] and [b'] agree on all slots but [s]. *)
Lemma used_sum_update b b' s sc :
  0 <= s < sc ->
  (forall i, 0 <= i < sc -> i <> s -> slot_length b' i = slot_length b i) ->
  used_sum b' (Z.to_nat sc) 0 - Z.max 0 (slot_length b' s) =
  used_sum b (Z.to_nat sc) 0 - Z.max 0 (slot_length b s).
Proof.
  intros Hs Hsame.
  replace (Z.to_nat sc)
    with (Z.to_nat s + (1 + Z.to_nat (sc - (s + 1))))%nat by lia.
  rewrite !used_sum_app. cbn [Nat.add used_sum].
  rewrite (used_sum_ext b b' (Z.to_nat s)) by (intros i Hi; apply Hsame; lia).
  rewrite (used_sum_ext b b' (Z.to_nat (sc - (s + 1))))
    by (intros i Hi; apply Hsame; lia).
  replace (0 + Z.of_nat (Z.to_nat s)) with s by lia.
  destruct (0 <? slot_length b' s) eqn:E1; destruct (0 <? slot_length b s) eqn:E2;
    try apply Z.ltb_lt in E1; try apply Z.ltb_lt in E2;
    try apply Z.ltb_ge in E1; try apply Z.ltb_ge in E2; lia.
Qed.

Lemma live_count_update b b' s sc :
  0 <= s < sc ->
  (forall i, 0 <= i < sc -> i <> s -> slot_length b' i = slot_length b i) ->
  live_count b' (Z.to_nat sc) 0 - (if 0 <? slot_length b' s then 1 else 0) =
  live_count b (Z.to_nat sc) 0 - (if 0 <? slot_length b s then 1 else 0).
Proof.
  intros Hs Hsame.
  replace (Z.to_nat sc)
    with (Z.to_nat s + (1 + Z.to_nat (sc - (s + 1))))%nat by lia.
  rewrite !live_count_app. cbn [Nat.add live_count].
  rewrite (live_count_ext b b' (Z.to_nat s)) by (intros i Hi; apply Hsame; lia).
  rewrite (live_count_ext b b' (Z.to_nat (sc - (s + 1))))
    by (intros i Hi; apply Hsame; lia).
  replace (0 + Z.of_nat (Z.to_nat s)) with s by lia.
  lia.
Qed.

Lemma pack_end_sum len l : forall top,
  pack_end len l top = top - len_sum len l.
Proof.
  induction l as [|s l IH]; intros top; simpl; [lia|]. rewrite IH. lia.
Qed.

Lemma len_sum_app len l1 l2 :
  len_sum len (l1 ++ l2) = len_sum len l1 + len_sum len l2.
Proof. induction l1 as [|s l1 IH]; simpl; [reflexivity|]. rewrite IH. lia. Qed.

Lemma len_sum_perm len l1 l2 :
  Permutation l1 l2 -> len_sum len l1 = len_sum len l2.
Proof.
  induction 1; simpl; try lia.
Qed.

Lemma collect_live_sum buf n : forall i acc,
  0 <= i -> i + Z.of_nat n <= 32768 ->
  len_sum (slot_length buf) (collect_live buf n i acc) =
  len_sum (slot_length buf) acc + used_sum buf n i.
Proof.
  induction n as [|n IH]; intros i acc Hi Hn; simpl; [lia|].
  rewrite IH by lia.
  destruct (0 <? slot_length buf i); [|lia].
  rewrite len_sum_app, to_short_id by lia. simpl. lia.
Qed.

Lemma collect_live_length buf n : forall i acc,
  (length (collect_live buf n i acc) <= length acc + n)%nat.
Proof.
  induction n as [|n IH]; intros i acc; simpl; [lia|].
  etransitivity; [apply IH|].
  destruct (0 <? slot_length buf i); [rewrite length_app; simpl|]; lia.
Qed.

Lemma live_ids_sum buf :
  len_sum (slot_length buf) (live_ids buf) = SP_PageUsedBytes buf.
Proof.
  unfold live_ids.
  pose proof (load_short_range buf 0) as Hr. fold (hdr_slotCount buf) in Hr.
  rewrite collect_live_sum by lia. rewrite used_bytes_sum. simpl. lia.
Qed.

Section CodecExtras.

Variable PF_PAGE_SIZE : Z.
Hypothesis page_size_ok : 8 <= PF_PAGE_SIZE <= 32767.

Local Abbreviation inv := (sp_inv PF_PAGE_SIZE).
Local Abbreviation init := (SP_InitPage PF_PAGE_SIZE).
Local Abbreviation insert := (SP_InsertRecord PF_PAGE_SIZE).
Local Abbreviation compact := (SP_CompactPage PF_PAGE_SIZE).

(** Compaction leaves no hole: [freePtr] is the page size minus the used
    bytes. *)
Lemma compact_free_ptr buf :
  inv buf ->
  hdr_freePtr (compact buf) = PF_PAGE_SIZE - SP_PageUsedBytes buf /\
  SP_PageUsedBytes (compact buf) = SP_PageUsedBytes buf /\
  hdr_freePtr buf <= hdr_freePtr (compact buf).
Proof.
  intros [Hlay _].
  destruct (compact_compacted PF_PAGE_SIZE page_size_ok buf _ Hlay)
    as [order C].
  split; [|split].
  - rewrite (cp_freePtr _ _ _ _ _ C), pack_end_sum.
    rewrite (len_sum_perm _ _ _ (cp_order _ _ _ _ _ C)), live_ids_sum.
    reflexivity.
  - rewrite !used_bytes_sum, (cp_slotCount _ _ _ _ _ C).
    apply used_sum_ext. intros s Hs.
    pose proof (lay_slotCount _ _ _ Hlay).
    apply (cp_length _ _ _ _ _ C). lia.
  - apply (cp_bound _ _ _ _ _ C).
Qed.

(** The records of a page take no more room than its heap. *)
Lemma used_bytes_bound buf :
  inv buf -> 0 <= SP_PageUsedBytes buf <= PF_PAGE_SIZE - hdr_freePtr buf.
Proof.
  intros Hinv. destruct (compact_free_ptr buf Hinv) as (H1 & _ & H3).
  split; [rewrite used_bytes_sum; apply used_sum_nonneg|lia].
Qed.

Lemma same_view_used b b' :
  0 <= hdr_slotCount b -> same_view b b' ->
  SP_PageUsedBytes b' = SP_PageUsedBytes b /\
  page_records b' = page_records b.
Proof.
  intros Hsc V. rewrite !used_bytes_sum. unfold page_records.
  rewrite (sv_slotCount _ _ V). split.
  - apply used_sum_ext. intros s Hs. apply (sv_length _ _ V). lia.
  - apply live_count_ext. intros s Hs. apply (sv_length _ _ V). lia.
Qed.

Lemma get_bytes_dead b s : ~ live b s -> get_bytes b s = None.
Proof.
  intros H. destruct (get_bytes b s) as [r|] eqn:E; [|reflexivity].
  exfalso. apply H. eapply get_bytes_Some; eauto.
Qed.

Lemma same_view_get b b' s :
  same_view b b' -> get_bytes b' s = get_bytes b s.
Proof.
  intros V.
  destruct (get_bytes b s) as [r|] eqn:E.
  - pose proof (get_bytes_Some _ _ _ E) as Hl.
    assert (Hl' : live b' s) by now apply (same_view_live _ _ s V).
    rewrite (get_bytes_live _ _ Hl) in E. rewrite (get_bytes_live _ _ Hl').
    rewrite (sv_length _ _ V s ltac:(apply Hl)), (sv_record _ _ V s Hl).
    exact E.
  - apply get_bytes_dead. intros Hl'.
    apply (same_view_live _ _ s V) in Hl'.
    rewrite (get_bytes_live _ _ Hl') in E. discriminate.
Qed.

(** Counts after the tail of a successful insertion. *)
Lemma inserted_counts b b' data len :
  inv b -> 0 < len -> inserted b b' (next_slot b) data len ->
  SP_PageUsedBytes b' = SP_PageUsedBytes b + len /\
  page_records b' = page_records b + 1.
Proof.
  intros Hinv Hpos I.
  pose proof Hinv as [Hlay _]. pose proof (lay_slotCount _ _ _ Hlay) as Hsc.
  pose proof (next_slot_range PF_PAGE_SIZE b Hinv) as Hid.
  pose proof (next_slot_dead PF_PAGE_SIZE b Hinv) as Hdead.
  destruct I as [Il Iid Isc Ifp Ihd Iso Isl Ioth Iheap Idata].
  set (id := next_slot b) in *. set (sc := hdr_slotCount b) in *.
  rewrite !used_bytes_sum. unfold page_records. rewrite Isc. fold sc.
  destruct (Z.eq_dec id sc) as [Heq|Hne].
  - replace (Z.max sc (id + 1)) with (sc + 1) by lia.
    replace (Z.to_nat (sc + 1)) with (Z.to_nat sc + 1)%nat by lia.
    rewrite used_sum_app, live_count_app. cbn [used_sum live_count].
    replace (0 + Z.of_nat (Z.to_nat sc)) with id by lia.
    rewrite Isl.
    rewrite (used_sum_ext b b'), (live_count_ext b b')
      by (intros s Hs; apply Ioth; lia).
    destruct (0 <? len) eqn:E; [lia|apply Z.ltb_ge in E; lia].
  - replace (Z.max sc (id + 1)) with sc by lia.
    assert (Hs : 0 <= id < sc) by lia.
    assert (Hsame : forall i, 0 <= i < sc -> i <> id ->
              slot_length b' i = slot_length b i)
      by (intros i Hi Hn; apply Ioth; auto).
    pose proof (used_sum_update b b' id sc Hs Hsame) as HU.
    pose proof (live_count_update b b' id sc Hs Hsame) as HL.
    rewrite Isl in HU, HL.
    assert (Hd : slot_length b id <= 0).
    { destruct (Z_lt_le_dec 0 (slot_length b id)); [|lia].
      exfalso. apply Hdead. split; auto. }
    destruct (0 <? len) eqn:E1; [|apply Z.ltb_ge in E1; lia].
    destruct (0 <? slot_length b id) eqn:E2; [apply Z.ltb_lt in E2; lia|].
    lia.
Qed.

(** X1: a page that was just initialised is empty: it satisfies the
    invariants, has no slot, all of the page but the header is free, no
    byte is used, a scan finds nothing and no slot id can be read. *)
Theorem init_page_empty (pageBuf : page) :
  Z.of_nat (length pageBuf) = PF_PAGE_SIZE ->
  inv (init pageBuf) /\
  hdr_slotCount (init pageBuf) = 0 /\
  SP_PageFreeSpace (init pageBuf) = PF_PAGE_SIZE - sizeof_SP_PageHeader /\
  SP_PageUsedBytes (init pageBuf) = 0 /\
  SP_GetNextRecord (init pageBuf) (-1) = (SP_ERR_EMPTY, -1, None) /\
  forall s, SP_GetRecord (init pageBuf) s = (SP_ERR_INVALID_SLOT, None).
Proof.
  intros Hlen.
  destruct (init_header PF_PAGE_SIZE page_size_ok pageBuf Hlen)
    as (_ & Hc & Hh & Hf).
  split; [now apply init_inv|]. split; [exact Hc|].
  split; [unfold SP_PageFreeSpace; rewrite Hc, Hf;
          unfold sizeof_SP_PageHeader, sizeof_SP_SlotEntry; lia|].
  split; [unfold SP_PageUsedBytes; rewrite Hc; reflexivity|].
  split.
  - unfold SP_GetNextRecord. rewrite Hc. reflexivity.
  - intros s. unfold SP_GetRecord. rewrite Hc.
    destruct (s <? 0) eqn:E1; [reflexivity|].
    destruct (0 <=? s) eqn:E2; [reflexivity|].
    apply Z.ltb_ge in E1. apply Z.leb_gt in E2. lia.
Qed.

(** X2: on a page that satisfies the invariants, compaction reclaims every
    hole: afterwards the free space is the page size minus the header, the
    slot directory and the used bytes; it is never less than before, and
    the used bytes are unchanged. *)
Theorem compaction_reclaims_holes (buf : page) :
  inv buf ->
  SP_PageFreeSpace (compact buf) =
    PF_PAGE_SIZE - sizeof_SP_PageHeader
    - hdr_slotCount buf * sizeof_SP_SlotEntry - SP_PageUsedBytes buf /\
  SP_PageFreeSpace buf <= SP_PageFreeSpace (compact buf) /\
  SP_PageUsedBytes (compact buf) = SP_PageUsedBytes buf.
Proof.
  intros Hinv. destruct (compact_free_ptr buf Hinv) as (H1 & H2 & H3).
  pose proof Hinv as [Hlay _].
  destruct (compact_compacted PF_PAGE_SIZE page_size_ok buf _ Hlay)
    as [order C].
  unfold SP_PageFreeSpace. rewrite (cp_slotCount _ _ _ _ _ C), H1.
  split; [lia|]. split; [lia|exact H2].
Qed.

(** X3: on a page that satisfies the invariants, [SP_InsertRecord] returns
    [SP_OK] exactly when the length is positive and the record, with a new
    directory entry when no tombstone can be reused, fits in what the page
    has free once its holes are reclaimed; otherwise it returns
    [SP_ERR_NOSPACE]. *)
Theorem insert_succeeds_iff_fits (buf : page) (data : list byte) (len : Z) :
  inv buf -> len <= Z.of_nat (length data) ->
  let rc := fst (fst (insert buf data len)) in
  (rc = SP_OK \/ rc = SP_ERR_NOSPACE) /\
  (rc = SP_OK <->
   0 < len /\
   len + (if hdr_freeListHead buf =? SP_INVALID_SLOT
          then sizeof_SP_SlotEntry else 0)
   <= PF_PAGE_SIZE - sizeof_SP_PageHeader
      - hdr_slotCount buf * sizeof_SP_SlotEntry - SP_PageUsedBytes buf).
Proof.
  intros Hinv Hdata rc.
  destruct (compact_free_ptr buf Hinv) as (H1 & H2 & H3).
  pose proof Hinv as [Hlay _].
  destruct (compact_compacted PF_PAGE_SIZE page_size_ok buf _ Hlay)
    as [order C].
  pose proof (cp_slotCount _ _ _ _ _ C) as Hsc.
  destruct (insert_spec PF_PAGE_SIZE page_size_ok buf data len Hinv Hdata)
    as (rc' & b' & out & Heq & _ & Hcases).
  unfold rc. rewrite Heq. simpl. fold (need_slot buf).
  destruct Hcases
    as [(-> & _ & _ & Hwhy)
       |(-> & _ & Hpos & bX & HinvX & V & _ & Hspace & _)].
  - split; [auto|]. split; [discriminate|].
    intros [Hpos Hfit]. exfalso. destruct Hwhy as [Hle|Hfull]; [lia|].
    unfold SP_PageFreeSpace in Hfull. rewrite Hsc, H1 in Hfull. lia.
  - split; [auto|]. split; [|reflexivity]. intros _. split; [exact Hpos|].
    pose proof (used_bytes_bound bX HinvX) as Hb.
    destruct (same_view_used buf bX (lay_slotCount _ _ _ Hlay) V) as [Hu _].
    unfold SP_PageFreeSpace in Hspace.
    rewrite (sv_slotCount _ _ V), Hu in *. lia.
Qed.

(** X4: on a page that satisfies the invariants, deleting a live slot [s]
    succeeds and keeps the invariants; afterwards [s] cannot be read and a
    second deletion is rejected without changing the page; every other
    slot reads as before; the free space is unchanged (the bytes are only
    reclaimed by a later compaction) and the used bytes drop by the length
    of the record. *)
Theorem delete_live_slot (buf : page) (s : Z) :
  inv buf -> live buf s ->
  exists buf',
    SP_DeleteRecord buf s = (SP_OK, buf') /\
    inv buf' /\
    get_bytes buf' s = None /\
    SP_DeleteRecord buf' s = (SP_ERR_INVALID_SLOT, buf') /\
    (forall t, t <> s -> get_bytes buf' t = get_bytes buf t) /\
    SP_PageFreeSpace buf' = SP_PageFreeSpace buf /\
    SP_PageUsedBytes buf' = SP_PageUsedBytes buf - slot_length buf s.
Proof.
  intros Hinv Hlive.
  destruct (delete_cases PF_PAGE_SIZE buf s Hinv)
    as [(_ & b' & Heq & D & Hinv')|(Hn & _)]; [|contradiction].
  exists b'. split; [exact Heq|]. split; [exact Hinv'|].
  pose proof Hinv as [Hlay _]. pose proof (lay_slotCount _ _ _ Hlay) as Hsc.
  assert (Hdead : ~ live b' s).
  { intros [_ H]. rewrite (del_slot_length _ _ _ D) in H. lia. }
  split; [now apply get_bytes_dead|]. split.
  { destruct (delete_cases PF_PAGE_SIZE b' s Hinv')
      as [(H & _)|(_ & H)]; [contradiction|exact H]. }
  split.
  { intros t Hne.
    destruct (Z_lt_le_dec t 0) as [Hneg|Hnn].
    { rewrite !get_bytes_dead; auto; intros [H _]; lia. }
    destruct (del_others _ _ _ D t Hnn Hne) as [E1 E2].
    destruct (get_bytes buf t) as [r|] eqn:E.
    - pose proof (get_bytes_Some _ _ _ E) as Hl.
      assert (Hl' : live b' t).
      { split; [rewrite (del_slotCount _ _ _ D); apply Hl|].
        rewrite E2. apply Hl. }
      rewrite (get_bytes_live _ _ Hl) in E. rewrite (get_bytes_live _ _ Hl').
      rewrite <- E. unfold record. rewrite E1, E2. f_equal. f_equal.
      apply (del_heap _ _ _ D).
      destruct (lay_heap _ _ _ Hlay t Hl) as [Hh _].
      pose proof (lay_directory _ _ _ Hlay).
      pose proof (SP_SLOT_mono (s + 1) (hdr_slotCount buf)
                    ltac:(destruct Hlive; lia)). lia.
    - apply get_bytes_dead. intros [Hl1 Hl2].
      rewrite (del_slotCount _ _ _ D) in Hl1. rewrite E2 in Hl2.
      rewrite (get_bytes_live buf t) in E by (split; auto). discriminate. }
  split.
  { unfold SP_PageFreeSpace.
    now rewrite (del_slotCount _ _ _ D), (del_freePtr _ _ _ D). }
  rewrite !used_bytes_sum, (del_slotCount _ _ _ D).
  assert (Hsame : forall i, 0 <= i < hdr_slotCount buf -> i <> s ->
            slot_length b' i = slot_length buf i)
    by (intros i Hi Hn; apply (del_others _ _ _ D); lia).
  pose proof (used_sum_update buf b' s (hdr_slotCount buf)
                ltac:(apply Hlive) Hsame) as HU.
  rewrite (del_slot_length _ _ _ D) in HU. destruct Hlive as [_ Hl]. lia.
Qed.

End CodecExtras.

Section TombstoneOrder.

Variable PF_PAGE_SIZE : Z.
Hypothesis page_size_ok : 8 <= PF_PAGE_SIZE <= 32767.

Local Abbreviation inv := (sp_inv PF_PAGE_SIZE).
Local Abbreviation insert := (SP_InsertRecord PF_PAGE_SIZE).

(** A successful insertion takes the head of the tombstone chain and makes
    the next tombstone the head. *)
Lemma insert_takes_head buf data len b' out h :
  inv buf -> len <= Z.of_nat (length data) ->
  hdr_freeListHead buf = h -> 0 <= h ->
  insert buf data len = (SP_OK, b', out) ->
  out = Some h /\ inv b' /\ hdr_freeListHead b' = slot_offset buf h.
Proof.
  intros Hinv Hdata Hh Hh0 Heq.
  destruct (insert_spec PF_PAGE_SIZE page_size_ok buf data len Hinv Hdata)
    as (rc' & b2 & out' & Heq' & Hinv' & Hcases).
  rewrite Heq in Heq'. injection Heq' as <- <- <-.
  destruct Hcases as [(Hrc & _)|(_ & -> & _ & bX & HinvX & V & _ & _ & I)];
    [discriminate|].
  assert (Hne : (h =? SP_INVALID_SLOT) = false)
    by (apply Z.eqb_neq; unfold SP_INVALID_SLOT; lia).
  assert (Hn : next_slot buf = h) by (unfold next_slot; now rewrite Hh, Hne).
  rewrite Hn in *. split; [reflexivity|]. split; [exact Hinv'|].
  rewrite (ins_freeListHead _ _ _ _ _ I), (sv_freeListHead _ _ V), Hh, Hne.
  apply (sv_dead _ _ V).
  - pose proof (next_slot_range PF_PAGE_SIZE buf Hinv) as Hr.
    pose proof (next_slot_dir PF_PAGE_SIZE buf Hinv) as Hd.
    rewrite Hn in Hr, Hd. unfold need_slot in Hd. rewrite Hh, Hne in Hd.
    unfold SP_SLOT, sizeof_SP_SlotEntry in Hd. lia.
  - rewrite <- Hn. now apply (next_slot_dead PF_PAGE_SIZE).
Qed.

(** X5: tombstones are reused last deleted first: after deleting the live
    slots [s1] and then [s2], the next successful insertion returns [s2]
    and the one after it returns [s1]. *)
Theorem tombstones_reused_lifo (buf : page) (s1 s2 : Z)
    (d3 d4 : list byte) (L3 L4 : Z) (b3 b4 : page) (out3 out4 : option Z) :
  inv buf -> live buf s1 -> live buf s2 -> s1 <> s2 ->
  L3 <= Z.of_nat (length d3) -> L4 <= Z.of_nat (length d4) ->
  let b1 := snd (SP_DeleteRecord buf s1) in
  let b2 := snd (SP_DeleteRecord b1 s2) in
  insert b2 d3 L3 = (SP_OK, b3, out3) ->
  insert b3 d4 L4 = (SP_OK, b4, out4) ->
  out3 = Some s2 /\ out4 = Some s1.
Proof.
  intros Hinv Hl1 Hl2 Hne Hd3 Hd4 b1 b2 H3 H4.
  destruct (delete_cases PF_PAGE_SIZE buf s1 Hinv)
    as [(_ & c1 & Heq1 & D1 & Hinv1)|(Hn & _)]; [|contradiction].
  assert (Hb1 : b1 = c1) by (unfold b1; now rewrite Heq1). subst c1.
  assert (Hl2' : live b1 s2).
  { destruct Hl2 as [Ha Hb].
    destruct (del_others _ _ _ D1 s2 ltac:(lia) ltac:(auto)) as [_ E].
    split; [now rewrite (del_slotCount _ _ _ D1)|now rewrite E]. }
  destruct (delete_cases PF_PAGE_SIZE b1 s2 Hinv1)
    as [(_ & c2 & Heq2 & D2 & Hinv2)|(Hn & _)]; [|contradiction].
  assert (Hb2 : b2 = c2) by (unfold b2; now rewrite Heq2). subst c2.
  destruct (insert_takes_head b2 d3 L3 b3 out3 s2 Hinv2 Hd3
              (del_freeListHead _ _ _ D2) ltac:(destruct Hl2; lia) H3)
    as (Ho3 & Hinv3 & Hh3).
  split; [exact Ho3|].
  rewrite (del_slot_offset _ _ _ D2), (del_freeListHead _ _ _ D1) in Hh3.
  destruct (insert_takes_head b3 d4 L4 b4 out4 s1 Hinv3 Hd4 Hh3
              ltac:(destruct Hl1; lia) H4) as (Ho4 & _).
  exact Ho4.
Qed.

(** X6: an insertion that does not return [SP_OK] returns
    [SP_ERR_NOSPACE], stores no slot id and, although it may have compacted
    the page, leaves the invariants, the slot count and every record as
    they were. *)
Theorem failed_insert_keeps_records (buf : page) (data : list byte)
    (len : Z) (rc : Z) (buf' : page) (out : option Z) :
  inv buf -> len <= Z.of_nat (length data) ->
  insert buf data len = (rc, buf', out) -> rc <> SP_OK ->
  rc = SP_ERR_NOSPACE /\ out = None /\ inv buf' /\
  hdr_slotCount buf' = hdr_slotCount buf /\
  SP_PageUsedBytes buf' = SP_PageUsedBytes buf /\
  forall s, get_bytes buf' s = get_bytes buf s.
Proof.
  intros Hinv Hdata Heq Hrc.
  destruct (insert_spec PF_PAGE_SIZE page_size_ok buf data len Hinv Hdata)
    as (rc' & b2 & out' & Heq' & Hinv' & Hcases).
  rewrite Heq in Heq'. injection Heq' as <- <- <-.
  destruct Hcases as [(-> & -> & V & _)|(-> & _)]; [|contradiction].
  pose proof Hinv as [Hlay _].
  split; [reflexivity|]. split; [reflexivity|]. split; [exact Hinv'|].
  split; [apply (sv_slotCount _ _ V)|]. split.
  - apply (same_view_used buf buf' (lay_slotCount _ _ _ Hlay) V).
  - intros s. now apply same_view_get.
Qed.

(** X7: on a page that satisfies the invariants the slot count is at most
    [SP_MAX_SLOTS], so the [order] array of [SP_CompactPage], which has
    [SP_MAX_SLOTS] entries, holds the ids of all live slots. *)
Theorem order_array_large_enough (buf : page) :
  inv buf ->
  hdr_slotCount buf <= SP_MAX_SLOTS PF_PAGE_SIZE /\
  Z.of_nat (length (collect_live buf (Z.to_nat (hdr_slotCount buf)) 0 []))
    <= SP_MAX_SLOTS PF_PAGE_SIZE.
Proof.
  intros [Hlay _].
  pose proof (lay_slotCount _ _ _ Hlay) as Hsc.
  pose proof (lay_directory _ _ _ Hlay) as Hdir.
  pose proof (lay_top _ _ _ Hlay) as Htop.
  assert (H : hdr_slotCount buf <= SP_MAX_SLOTS PF_PAGE_SIZE).
  { unfold SP_MAX_SLOTS, sizeof_SP_PageHeader, sizeof_SP_SlotEntry.
    rewrite to_size_t_small by lia.
    apply Z.div_le_lower_bound; [lia|].
    unfold SP_SLOT, sizeof_SP_PageHeader, sizeof_SP_SlotEntry in Hdir. lia. }
  split; [exact H|].
  pose proof (collect_live_length buf (Z.to_nat (hdr_slotCount buf)) 0 []).
  simpl in *. lia.
Qed.

End TombstoneOrder.

(** X8: when [SP_GetNextRecord] returns [SP_OK] for a cursor that is the
    sentinel or a slot id, the slot [j] it stores in the cursor is the
    first live slot after the old cursor: no live slot is skipped, no
    tombstone is returned, and the data pointer and length are those
    [SP_GetRecord] gives for [j]. *)
Theorem scan_returns_next_live (buf : page) (c j : Z) (out : option (Z * Z)) :
  -1 <= c < hdr_slotCount buf ->
  SP_GetNextRecord buf c = (SP_OK, j, out) ->
  c < j < hdr_slotCount buf /\ live buf j /\
  (forall k, c < k < j -> ~ live buf k) /\
  SP_GetRecord buf j = (SP_OK, out).
Proof.
  intros Hc Heq.
  destruct (get_next_cases buf c (or_introl Hc))
    as [(j' & Hj & Hl & Hdead & Heq')|(_ & Heq')];
    rewrite Heq in Heq'; [|discriminate].
  injection Heq' as -> ->.
  assert (Hlive : live buf j') by (split; [lia|exact Hl]).
  split; [exact Hj|]. split; [exact Hlive|]. split.
  - intros k Hk [_ H]. specialize (Hdead k Hk). lia.
  - now apply get_record_live.
Qed.

(** * Further properties of the loader *)

(** Bytes used by the records of a file. *)
Fixpoint file_used (f : PFfile) : Z :=
  match f with
  | [] => 0
  | buf :: rest => SP_PageUsedBytes buf + file_used rest
  end.

(** The buffers the successive calls of [fgets] in the line loop deliver
    on the stream [fp], until it returns the null pointer. *)
Fixpoint fgets_pieces (fuel : nat) (fp : list byte) : list (list byte) :=
  match fuel with
  | O => []
  | S fuel' =>
      match fgets LINE_SIZE fp with
      | None => []
      | Some (line, fp') => line :: fgets_pieces fuel' fp'
      end
  end.

(** Every call takes at least one byte, so the length of the stream bounds
    the number of calls. *)
Definition input_pieces (fp : list byte) : list (list byte) :=
  fgets_pieces (length fp) fp.

(** Number of buffers the line loop hands to [insertRecord], and the bytes
    of their records. *)
Fixpoint accepted_count (pieces : list (list byte)) : Z :=
  match pieces with
  | [] => 0
  | line :: rest =>
      match line_action line with
      | Pack _ _ => 1 + accepted_count rest
      | _ => accepted_count rest
      end
  end.

Fixpoint accepted_bytes (pieces : list (list byte)) : Z :=
  match pieces with
  | [] => 0
  | line :: rest =>
      match line_action line with
      | Pack data _ => Z.of_nat (length data) + accepted_bytes rest
      | _ => accepted_bytes rest
      end
  end.

(** The [while (err == PFE_OK)] loop of [computeUsage]. *)
Fixpoint usage_pages (fuel : nat) (f : PFfile) (cur : option (Z * page))
    (totalPages totalPayload : Z) : option (Z * Z) :=
  match fuel with
  | O => None
  | S fuel' =>
      match cur with
      | None => Some (totalPages, totalPayload)
      | Some (pageNum, pageBuf) =>
          let totalPages := totalPages + 1 in
          let totalPayload := totalPayload + SP_PageUsedBytes pageBuf in
          let f := PF_UnfixPage f pageNum pageBuf false in
          usage_pages fuel' f (PF_GetNextPage f pageNum)
                      totalPages totalPayload
      end
  end.

(** [computeUsage] with non-null [pages] and [payload]: the values stored
    through them. *)
Definition computeUsage (fuel : nat) (f : PFfile) : option (Z * Z) :=
  usage_pages fuel f (PF_GetFirstPage f) 0 0.

Lemma file_records_app f1 f2 :
  file_records (f1 ++ f2) = file_records f1 + file_records f2.
Proof. induction f1 as [|b f1 IH]; simpl; [reflexivity|]. rewrite IH. lia. Qed.

Lemma file_used_app f1 f2 :
  file_used (f1 ++ f2) = file_used f1 + file_used f2.
Proof. induction f1 as [|b f1 IH]; simpl; [reflexivity|]. rewrite IH. lia. Qed.

Lemma usage_pages_spec : forall rest done fuel p u,
  (length rest < fuel)%nat ->
  usage_pages fuel (done ++ rest) (cur_of done rest) p u =
  Some (p + Z.of_nat (length rest), u + file_used rest).
Proof.
  induction rest as [|b rest IH]; intros done fuel p u Hfuel.
  - destruct fuel; [simpl in Hfuel; lia|]. simpl. f_equal. f_equal; lia.
  - destruct fuel as [|fuel]; [simpl in Hfuel; lia|].
    cbn [usage_pages cur_of]. unfold PF_UnfixPage.
    rewrite next_page_middle.
    replace (done ++ b :: rest) with ((done ++ [b]) ++ rest)
      by (now rewrite <- app_assoc).
    rewrite IH by (simpl in Hfuel; lia).
    cbn [file_used length]. f_equal. f_equal; lia.
Qed.

(** What the line loop knows of a record it packs. *)
Lemma pack_record line data len :
  line_action line = Pack data len ->
  0 < len < 32760 /\ Z.of_nat (length data) = len.
Proof.
  intros Hact.
  destruct (stripped_line line) as (_ & _ & _ & Hlen).
  unfold line_action in Hact.
  set (m := strip_eol line (strlen line)) in *.
  destruct (m =? 0)%nat eqn:E0; [discriminate|].
  destruct (negb (isdigit (byte_at (take m line) 0))); [discriminate|].
  destruct (32760 <=? Z.of_nat m) eqn:E1; [discriminate|].
  apply Z.leb_gt in E1. apply Nat.eqb_neq in E0.
  injection Hact as <- <-.
  rewrite to_short_id by lia. rewrite Hlen. lia.
Qed.

Lemma fgets_shorter (fp line rest : list byte) :
  fgets LINE_SIZE fp = Some (line, rest) -> (length rest < length fp)%nat.
Proof.
  intros H. destruct (fgets_spec fp line rest H) as (-> & Hlen & _).
  rewrite length_app. lia.
Qed.

Lemma fgets_pieces_fuel : forall (fuel1 fuel2 : nat) (fp : list byte),
  (length fp <= fuel1)%nat -> (length fp <= fuel2)%nat ->
  fgets_pieces fuel1 fp = fgets_pieces fuel2 fp.
Proof.
  induction fuel1 as [|fuel1 IH]; intros fuel2 fp H1 H2.
  - destruct fp; [|simpl in H1; lia]. destruct fuel2; reflexivity.
  - destruct fuel2 as [|fuel2].
    + destruct fp; [reflexivity|simpl in H2; lia].
    + cbn [fgets_pieces].
      destruct (fgets LINE_SIZE fp) as [[line rest]|] eqn:E; [|reflexivity].
      pose proof (fgets_shorter fp line rest E).
      f_equal. apply IH; lia.
Qed.

Lemma input_pieces_nil : input_pieces [] = [].
Proof. reflexivity. Qed.

Lemma input_pieces_cons (fp line rest : list byte) :
  fgets LINE_SIZE fp = Some (line, rest) ->
  input_pieces fp = line :: input_pieces rest.
Proof.
  intros E. pose proof (fgets_shorter fp line rest E) as Hlt.
  unfold input_pieces.
  destruct (length fp) as [|n] eqn:En; [lia|].
  cbn [fgets_pieces]. rewrite E. f_equal.
  apply fgets_pieces_fuel; lia.
Qed.

Section LoaderExtras.

Variable PF_PAGE_SIZE : Z.
Hypothesis page_size_ok : 8 <= PF_PAGE_SIZE <= 32767.

Local Abbreviation inv := (sp_inv PF_PAGE_SIZE).
Local Abbreviation init := (SP_InitPage PF_PAGE_SIZE).
Local Abbreviation insert := (SP_InsertRecord PF_PAGE_SIZE).

(** The store describes the file: every page satisfies the invariants, the
    counters agree with the file, and [lastPage] is its last page. *)
Definition store_ok (f : PFfile) (store : StudentStore) : Prop :=
  Forall inv f /\
  pageCount store = Z.of_nat (length f) /\
  recordCount store = file_records f /\
  ((lastPage store < 0 /\ f = []) \/
   (lastPage store = Z.of_nat (length f) - 1 /\ f <> [])).

Lemma inv_dir_ok buf : inv buf -> dir_ok buf.
Proof.
  intros [Hlay _]. split; [apply (lay_slotCount _ _ _ Hlay)|].
  rewrite (lay_length _ _ _ Hlay).
  pose proof (lay_directory _ _ _ Hlay). pose proof (lay_top _ _ _ Hlay). lia.
Qed.

(** Counts after a successful [SP_InsertRecord]. *)
Lemma insert_counts buf data len b' out :
  inv buf -> len <= Z.of_nat (length data) ->
  insert buf data len = (SP_OK, b', out) ->
  inv b' /\
  page_records b' = page_records buf + 1 /\
  SP_PageUsedBytes b' = SP_PageUsedBytes buf + len.
Proof.
  intros Hinv Hdata Heq.
  destruct (insert_spec PF_PAGE_SIZE page_size_ok buf data len Hinv Hdata)
    as (rc' & b2 & out' & Heq' & Hinv' & Hcases).
  rewrite Heq in Heq'. injection Heq' as <- <- <-.
  destruct Hcases as [(Hrc & _)|(_ & _ & Hpos & bX & HinvX & V & _ & _ & I)];
    [discriminate|].
  split; [exact Hinv'|].
  pose proof Hinv as [Hlay _].
  destruct (same_view_used buf bX (lay_slotCount _ _ _ Hlay) V) as [Hu Hr].
  rewrite <- (same_view_next_slot _ _ V) in I.
  destruct (inserted_counts PF_PAGE_SIZE bX b' data len HinvX Hpos I)
    as [Hu' Hr'].
  split; lia.
Qed.

Lemma fresh_page_counts :
  let p := init (replicate (Z.to_nat PF_PAGE_SIZE) x00) in
  inv p /\ page_records p = 0 /\ SP_PageUsedBytes p = 0.
Proof.
  intros p.
  assert (Hlen : Z.of_nat (length (replicate (Z.to_nat PF_PAGE_SIZE) x00))
                 = PF_PAGE_SIZE) by (rewrite length_replicate; lia).
  destruct (init_header PF_PAGE_SIZE page_size_ok _ Hlen) as (_ & Hc & _).
  split; [now apply init_inv|].
  unfold page_records, SP_PageUsedBytes. fold p in Hc. rewrite Hc. auto.
Qed.

(** A successful [insertRecord] adds exactly one record, of [len] bytes, and
    keeps the store consistent with the file. *)
Lemma insertRecord_ok f store data len f' store' :
  store_ok f store -> len <= Z.of_nat (length data) ->
  insertRecord PF_PAGE_SIZE f store data len = (SP_OK, f', store') ->
  store_ok f' store' /\
  file_records f' = file_records f + 1 /\
  file_used f' = file_used f + len.
Proof.
  intros (Hpages & Hpc & Hrc & Hlast) Hdata.
  destruct fresh_page_counts as (Hfi & Hfr & Hfu).
  set (blank := replicate (Z.to_nat PF_PAGE_SIZE) x00) in *.
  unfold insertRecord, PF_AllocPage. fold blank.
  destruct Hlast as [[Hneg ->]|[Hl Hne]].
  - (* no page yet *)
    destruct (lastPage store <? 0) eqn:E; [|apply Z.ltb_ge in E; lia].
    cbn [length app Z.of_nat lastPage pageCount recordCount fd].
    destruct (insert (init blank) data len) as [[rc b1] o1] eqn:E1.
    destruct (rc =? SP_OK) eqn:Erc.
    + apply Z.eqb_eq in Erc. subst rc. intros Heq.
      injection Heq as <- <-.
      destruct (insert_counts _ _ _ _ _ Hfi Hdata E1) as (Hi1 & Hr1 & Hu1).
      unfold PF_UnfixPage. cbn.
      split; [|split; cbn; lia].
      split; [apply Forall_singleton; exact Hi1|]. cbn.
      split; [simpl in Hpc; lia|]. split; [simpl in Hrc; lia|].
      right. split; [reflexivity|discriminate].
    + (* the retry meets the same freshly initialised page *)
      cbn [negb]. intros Heq.
      injection Heq as Hbad _ _. rewrite Hbad in Erc. discriminate.
  - (* the last page of the file *)
    destruct (exists_last Hne) as (pre & cur & ->).
    rewrite length_app in Hl, Hpc. simpl in Hl, Hpc.
    destruct (lastPage store <? 0) eqn:E; [apply Z.ltb_lt in E; lia|].
    assert (Hcur : PF_GetThisPage (pre ++ [cur]) (lastPage store) = Some cur).
    { unfold PF_GetThisPage. rewrite E, Hl.
      replace (Z.to_nat (Z.of_nat (length pre + 1) - 1)) with (length pre)
        by lia.
      apply list_lookup_middle. reflexivity. }
    rewrite Hcur.
    apply Forall_app in Hpages as [Hpre Hc]. apply Forall_inv in Hc.
    rewrite file_records_app in Hrc. simpl in Hrc.
    destruct (insert cur data len) as [[rc b1] o1] eqn:E1.
    destruct (rc =? SP_OK) eqn:Erc.
    + apply Z.eqb_eq in Erc. subst rc. intros Heq.
      injection Heq as <- <-.
      destruct (insert_counts _ _ _ _ _ Hc Hdata E1) as (Hi1 & Hr1 & Hu1).
      unfold PF_UnfixPage. rewrite Hl.
      replace (Z.to_nat (Z.of_nat (length pre + 1) - 1)) with (length pre)
        by lia.
      rewrite insert_middle.
      rewrite !file_records_app, !file_used_app. cbn.
      split; [|split; lia].
      split; [apply Forall_app; split; [exact Hpre|apply Forall_singleton; exact Hi1]|].
      rewrite length_app. cbn.
      split; [lia|]. split; [rewrite file_records_app; cbn; lia|].
      right. split; [lia|]. intros H. apply app_eq_nil in H as [_ H].
      discriminate.
    + unfold PF_UnfixPage at 2.
      destruct (insert (init blank) data len) as [[rc2 b2] o2] eqn:E2.
      destruct (negb (rc2 =? SP_OK)) eqn:Erc2.
      * intros Heq. injection Heq as Hbad _ _. subst rc2. discriminate.
      * apply negb_false_iff, Z.eqb_eq in Erc2. subst rc2. intros Heq.
        injection Heq as <- <-.
        destruct (insert_counts _ _ _ _ _ Hfi Hdata E2) as (Hi2 & Hr2 & Hu2).
        unfold PF_UnfixPage. rewrite Nat2Z.id.
        rewrite insert_middle.
        rewrite !file_records_app, !file_used_app. cbn.
        split; [|split; lia].
        split.
        { apply Forall_app. split.
          - apply Forall_app. split; [exact Hpre|apply Forall_singleton; exact Hc].
          - apply Forall_singleton. exact Hi2. }
        rewrite !length_app. cbn.
        split; [lia|]. split; [rewrite !file_records_app; cbn; lia|].
        right. split; [lia|]. intros H. apply app_eq_nil in H as [_ H].
        discriminate.
Qed.

(** The line loop: when it reaches the end of the input, the counters it
    kept and the file it built agree with the buffers it accepted. *)
Lemma load_lines_spec : forall fuel fp f store tr tb f' store' tr' tb',
  store_ok f store ->
  load_lines PF_PAGE_SIZE fuel f store tr tb fp
    = Some (inr (f', store', tr', tb')) ->
  store_ok f' store' /\
  tr' = tr + accepted_count (input_pieces fp) /\
  tb' = tb + accepted_bytes (input_pieces fp) /\
  file_records f' = file_records f + accepted_count (input_pieces fp) /\
  file_used f' = file_used f + accepted_bytes (input_pieces fp).
Proof.
  induction fuel as [|fuel IH]; intros fp f store tr tb f' store' tr' tb'
    Hok Heq; cbn [load_lines] in Heq; [discriminate|].
  destruct (fgets LINE_SIZE fp) as [[line rest]|] eqn:Hget.
  - rewrite (input_pieces_cons fp line rest Hget).
    cbn [accepted_count accepted_bytes].
    destruct (line_action line) as [| |data len] eqn:Hact.
    + apply (IH _ _ _ _ _ _ _ _ _ Hok Heq).
    + discriminate.
    + destruct (pack_record line data len Hact) as [Hlen Hdata].
      destruct (insertRecord PF_PAGE_SIZE f store data len)
        as [[rc f1] store1] eqn:Hins.
      destruct (negb (rc =? SP_OK)) eqn:Erc; [discriminate|].
      apply negb_false_iff, Z.eqb_eq in Erc. subst rc.
      destruct (insertRecord_ok f store data len f1 store1 Hok ltac:(lia) Hins)
        as (Hok1 & Hr1 & Hu1).
      destruct (IH _ _ _ _ _ _ _ _ _ Hok1 Heq)
        as (Hok' & Htr & Htb & Hr & Hu).
      split; [exact Hok'|]. lia.
  - apply fgets_None in Hget. subst fp. rewrite input_pieces_nil.
    injection Heq as <- <- <- <-. split; [exact Hok|].
    cbn [accepted_count accepted_bytes]. lia.
Qed.

Lemma first_page_cursor (g : PFfile) : PF_GetFirstPage g = cur_of [] g.
Proof. unfold PF_GetFirstPage, cur_of. destruct g; reflexivity. Qed.

(** X9: a load that reaches the end of its input leaves a file whose scan
    counts exactly the buffers that were accepted (among those [fgets]
    delivered: non-empty after stripping the line terminators, starting
    with a digit), whose payload as measured by [computeUsage] is the total
    length of their records, and whose page count is the one the store
    kept. *)
Theorem load_accounting (fd0 : Z) (fp : list byte) (fuel0 fuel : nat)
    (f : PFfile) (store : StudentStore) (totalRecords totalBytes : Z) :
  load_lines PF_PAGE_SIZE fuel0 [] (mkStore fd0 (-1) 0 0) 0 0 fp
    = Some (inr (f, store, totalRecords, totalBytes)) ->
  32767 + Z.of_nat (length f) < Z.of_nat fuel ->
  totalRecords = accepted_count (input_pieces fp) /\
  totalBytes = accepted_bytes (input_pieces fp) /\
  recordCount store = totalRecords /\
  scanCount fuel f = Some totalRecords /\
  computeUsage fuel f = Some (pageCount store, totalBytes).
Proof.
  intros Hload Hfuel.
  assert (H0 : store_ok [] (mkStore fd0 (-1) 0 0)).
  { split; [constructor|]. cbn. split; [reflexivity|]. split; [reflexivity|].
    left. split; [lia|reflexivity]. }
  destruct (load_lines_spec _ _ _ _ _ _ _ _ _ _ H0 Hload)
    as ((Hpages & Hpc & Hrc & _) & Htr & Htb & Hr & Hu).
  cbn [file_records file_used] in Hr, Hu.
  split; [lia|]. split; [lia|]. split; [lia|]. split.
  - unfold scanCount. rewrite first_page_cursor.
    assert (Hdir : Forall dir_ok f).
    { eapply Forall_impl; [exact Hpages|]. intros b Hb. now apply inv_dir_ok. }
    pose proof (count_pages_spec f [] fuel 0 Hdir Hfuel) as Hc.
    change ([] ++ f) with f in Hc. rewrite Hc. f_equal. lia.
  - unfold computeUsage. rewrite first_page_cursor.
    pose proof (usage_pages_spec f [] fuel 0 0 ltac:(lia)) as Hc.
    change ([] ++ f) with f in Hc. rewrite Hc. f_equal. f_equal; lia.
Qed.

End LoaderExtras.

(** ** [deleteEvery] with a step that is not positive *)

Lemma delete_scan_no_step step buf :
  step <= 0 -> 0 <= hdr_slotCount buf ->
  forall fuel c counter deleted dirty,
  -1 <= c < hdr_slotCount buf \/ (c = -1 /\ hdr_slotCount buf <= 0) ->
  hdr_slotCount buf - (c + 1) < Z.of_nat fuel ->
  delete_scan fuel step buf c counter deleted dirty =
  Some (buf,
        counter + live_count buf (Z.to_nat (hdr_slotCount buf - (c + 1))) (c + 1),
        deleted, dirty).
Proof.
  intros Hstep Hsc0.
  assert (E : (0 <? step) = false) by (apply Z.ltb_ge; lia).
  induction fuel as [|fuel IH]; intros c counter deleted dirty Hc Hfuel.
  - lia.
  - cbn [delete_scan].
    destruct (get_next_cases buf c Hc)
      as [(j & Hj & Hl & Hdead & ->)|(Hdead & ->)].
    + cbn [Z.eqb SP_OK]. rewrite E. cbn [andb]. rewrite IH by lia.
      rewrite (live_count_first buf (c + 1) j (hdr_slotCount buf));
        try lia.
      * f_equal. f_equal. f_equal. f_equal. lia.
      * intros k Hk. apply Hdead. lia.
    + cbn. rewrite live_count_dead; [f_equal; f_equal; f_equal; f_equal; lia|].
      intros k Hk. apply Hdead. lia.
Qed.

Lemma delete_pages_no_step step :
  step <= 0 ->
  forall rest done fuel counter deleted,
  Forall dir_ok rest ->
  32767 + Z.of_nat (length rest) < Z.of_nat fuel ->
  delete_pages fuel step (done ++ rest) (cur_of done rest) counter deleted =
  Some (deleted, done ++ rest).
Proof.
  intros Hstep.
  induction rest as [|b rest IH]; intros done fuel counter deleted Hok Hfuel.
  - destruct fuel; [simpl in Hfuel; lia|]. reflexivity.
  - destruct fuel as [|fuel]; [simpl in Hfuel; lia|].
    apply Forall_cons in Hok as [[Hsc Hb] Hok].
    pose proof (load_short_range b 0) as Hr. fold (hdr_slotCount b) in Hr.
    cbn [delete_pages cur_of].
    rewrite (delete_scan_no_step step b Hstep Hsc (S fuel) (-1) counter
               deleted false (start_cursor_ok b Hsc)) by lia.
    rewrite unfix_middle by (right; reflexivity).
    rewrite next_page_middle.
    replace (done ++ b :: rest) with ((done ++ [b]) ++ rest)
      by (now rewrite <- app_assoc).
    apply IH; [exact Hok|]. cbn [length] in Hfuel. lia.
Qed.

(** X10: with a step that is zero or negative [deleteEvery] visits every
    page, deletes nothing and writes no page back. *)
Theorem delete_step_not_positive (f : PFfile) (step : Z) (fuel : nat) :
  step <= 0 ->
  Forall dir_ok f ->
  32767 + Z.of_nat (length f) < Z.of_nat fuel ->
  deleteEvery fuel f step = Some (0, f).
Proof.
  intros Hstep Hok Hfuel. unfold deleteEvery.
  rewrite first_page_cursor.
  apply (delete_pages_no_step step Hstep f [] fuel 0 0 Hok Hfuel).
Qed.

(** X11: the load followed by the deletion pass, as [main] of the student
    store runs them with a positive delete step [k]: of the [n] buffers
    that were accepted among those [fgets] delivered the pass deletes
    [n / k], the scan that follows counts [n - n / k], and the usage pass
    still reports the page count kept by the store. *)
Theorem load_then_delete (PF_PAGE_SIZE : Z) (fd0 : Z)
    (fp : list byte) (k : Z) (fuel0 fuel : nat)
    (f : PFfile) (store : StudentStore) (totalRecords totalBytes : Z) :
  8 <= PF_PAGE_SIZE <= 32767 ->
  load_lines PF_PAGE_SIZE fuel0 [] (mkStore fd0 (-1) 0 0) 0 0 fp
    = Some (inr (f, store, totalRecords, totalBytes)) ->
  0 < k ->
  32767 + Z.of_nat (length f) < Z.of_nat fuel ->
  let n := accepted_count (input_pieces fp) in
  exists f',
    deleteEvery fuel f k = Some (n / k, f') /\
    scanCount fuel f' = Some (n - n / k) /\
    computeUsage fuel f' = Some (pageCount store, file_used f').
Proof.
  intros Hps Hload Hk Hfuel n.
  assert (H0 : store_ok PF_PAGE_SIZE [] (mkStore fd0 (-1) 0 0)).
  { split; [constructor|]. cbn. split; [reflexivity|]. split; [reflexivity|].
    left. split; [lia|reflexivity]. }
  destruct (load_lines_spec PF_PAGE_SIZE Hps _ _ _ _ _ _ _ _ _ _ H0 Hload)
    as ((Hpages & Hpc & _) & _ & _ & Hr & _).
  fold n in Hr.
  cbn [file_records] in Hr. rewrite Z.add_0_l in Hr.
  assert (Hdir : Forall dir_ok f).
  { eapply Forall_impl; [exact Hpages|]. intros b Hb.
    now apply (inv_dir_ok PF_PAGE_SIZE). }
  destruct (delete_pages_spec k Hk f [] fuel 0 0 Hdir Hfuel ltac:(lia))
    as (f' & Heq & Hok' & Hlen' & Hrec').
  change ([] ++ f) with f in Heq. change ([] ++ f') with f' in Heq.
  rewrite Hr in Heq, Hrec'.
  assert (HD : (0 + n) / k - 0 / k = n / k)
    by (rewrite Z.add_0_l, Zdiv_0_l; lia).
  rewrite HD in Heq, Hrec'. rewrite Z.add_0_l in Heq.
  exists f'. unfold deleteEvery, scanCount, computeUsage.
  rewrite !first_page_cursor.
  split; [exact Heq|]. split.
  - rewrite <- Hrec'.
    pose proof (count_pages_spec f' [] fuel 0 Hok' ltac:(lia)) as Hc.
    change ([] ++ f') with f' in Hc. rewrite Hc. f_equal.
  - pose proof (usage_pages_spec f' [] fuel 0 0 ltac:(lia)) as Hc.
    change ([] ++ f') with f' in Hc. rewrite Hc. f_equal. f_equal; lia.
Qed.

(** ** student_store.c: the static rows of [writeMetrics] *)

(** A [long] of 64 bits. *)
Definition to_long (z : Z) : Z := (z + 2 ^ 63) mod 2 ^ 64 - 2 ^ 63.

(** One iteration of the [for] loop over [cfg->staticLens]: [None] for a
    [continue], otherwise the [pagesNeeded] and [spaceBytes] it prints. *)
Definition static_row (PF_PAGE_SIZE maxLen activeRecords : Z)
  : option (Z * Z) :=
  if (maxLen <=? 0) || (PF_PAGE_SIZE <? maxLen) then None
  else
    let slotsPerPage := Z.quot PF_PAGE_SIZE maxLen in
    if slotsPerPage =? 0 then None
    else
      let pagesNeeded :=
        Z.quot (to_long (to_long (activeRecords + slotsPerPage) - 1))
               slotsPerPage in
      let spaceBytes := to_long (pagesNeeded * PF_PAGE_SIZE) in
      Some (pagesNeeded, spaceBytes).

(** The rows [static,maxLen,activeRecords,pagesNeeded,spaceBytes,...] in
    the order they are printed. *)
Fixpoint static_rows (PF_PAGE_SIZE : Z) (staticLens : list Z)
    (activeRecords : Z) : list (Z * Z * Z) :=
  match staticLens with
  | [] => []
  | maxLen :: rest =>
      match static_row PF_PAGE_SIZE maxLen activeRecords with
      | None => static_rows PF_PAGE_SIZE rest activeRecords
      | Some (pagesNeeded, spaceBytes) =>
          (maxLen, pagesNeeded, spaceBytes)
          :: static_rows PF_PAGE_SIZE rest activeRecords
      end
  end.

Lemma to_long_id z : - 2 ^ 63 <= z < 2 ^ 63 -> to_long z = z.
Proof. intros H. unfold to_long. rewrite Z.mod_small by lia. lia. Qed.

Lemma static_row_spec (PF_PAGE_SIZE maxLen activeRecords : Z) :
  0 < PF_PAGE_SIZE <= 32767 -> 0 <= activeRecords < 2 ^ 47 ->
  if (0 <? maxLen) && (maxLen <=? PF_PAGE_SIZE) then
    exists pages,
      static_row PF_PAGE_SIZE maxLen activeRecords
        = Some (pages, pages * PF_PAGE_SIZE) /\
      (pages - 1) * (PF_PAGE_SIZE / maxLen) < activeRecords
        <= pages * (PF_PAGE_SIZE / maxLen)
  else static_row PF_PAGE_SIZE maxLen activeRecords = None.
Proof.
  intros HP HA. unfold static_row.
  destruct (0 <? maxLen) eqn:E1; cbn [andb].
  2:{ apply Z.ltb_ge in E1.
      replace (maxLen <=? 0) with true by (symmetry; apply Z.leb_le; lia).
      reflexivity. }
  apply Z.ltb_lt in E1.
  replace (maxLen <=? 0) with false by (symmetry; apply Z.leb_gt; lia).
  cbn [orb].
  destruct (maxLen <=? PF_PAGE_SIZE) eqn:E2.
  2:{ apply Z.leb_gt in E2.
      replace (PF_PAGE_SIZE <? maxLen) with true
        by (symmetry; apply Z.ltb_lt; lia).
      reflexivity. }
  apply Z.leb_le in E2.
  replace (PF_PAGE_SIZE <? maxLen) with false
    by (symmetry; apply Z.ltb_ge; lia).
  rewrite Z.quot_div_nonneg by lia.
  set (spp := PF_PAGE_SIZE / maxLen).
  assert (Hspp : 1 <= spp <= PF_PAGE_SIZE).
  { unfold spp. split.
    - apply Z.div_le_lower_bound; lia.
    - apply Z.div_le_upper_bound; nia. }
  replace (spp =? 0) with false by (symmetry; apply Z.eqb_neq; lia).
  assert (H47 : 2 ^ 47 < 2 ^ 63) by (apply Z.pow_lt_mono_r; lia).
  assert (H47' : 0 < 2 ^ 47) by (apply Z.pow_pos_nonneg; lia).
  rewrite (to_long_id (activeRecords + spp)) by lia.
  rewrite to_long_id by lia.
  rewrite Z.quot_div_nonneg by lia.
  set (pages := (activeRecords + spp - 1) / spp).
  pose proof (Z.div_mod (activeRecords + spp - 1) spp ltac:(lia)) as Hdm.
  pose proof (Z.mod_pos_bound (activeRecords + spp - 1) spp ltac:(lia)) as Hm.
  fold pages in Hdm.
  assert (Hpg : 0 <= pages <= activeRecords).
  { split; [apply Z.div_pos; lia|].
    destruct (Z_le_gt_dec pages activeRecords) as [H|H]; [exact H|].
    assert (spp * (activeRecords + 1) <= spp * pages)
      by (apply Z.mul_le_mono_nonneg_l; lia).
    nia. }
  exists pages. split.
  - rewrite to_long_id; [reflexivity|]. split; [nia|].
    assert (2 ^ 47 * 32768 <= 2 ^ 63).
    { change 32768 with (2 ^ 15). rewrite <- Z.pow_add_r by lia.
      apply Z.pow_le_mono_r; lia. }
    nia.
  - split; nia.
Qed.

(** X12: for a record count that [scanCount] can return and page sizes of
    the paged-file layer, [writeMetrics] prints a static row exactly for
    the lengths between 1 and the page size, in their order; the page count
    of a row is the least one whose slots hold all records, and its space
    is that many whole pages. *)
Theorem static_layout_pages (PF_PAGE_SIZE : Z) (staticLens : list Z)
    (activeRecords : Z) :
  0 < PF_PAGE_SIZE <= 32767 -> 0 <= activeRecords < 2 ^ 47 ->
  let rows := static_rows PF_PAGE_SIZE staticLens activeRecords in
  map (fun r => fst (fst r)) rows =
    filter (fun m => 0 < m <= PF_PAGE_SIZE) staticLens /\
  Forall (fun r =>
            let '(maxLen, pages, space) := r in
            space = pages * PF_PAGE_SIZE /\
            (pages - 1) * (PF_PAGE_SIZE / maxLen) < activeRecords
              <= pages * (PF_PAGE_SIZE / maxLen)) rows.
Proof.
  intros HP HA. cbn zeta.
  induction staticLens as [|m rest [IH1 IH2]]; cbn [static_rows].
  - split; [reflexivity|constructor].
  - pose proof (static_row_spec PF_PAGE_SIZE m activeRecords HP HA) as Hrow.
    rewrite filter_cons.
    destruct (decide (0 < m <= PF_PAGE_SIZE)) as [Hm|Hm].
    + replace ((0 <? m) && (m <=? PF_PAGE_SIZE)) with true in Hrow
        by (symmetry; apply andb_true_iff; split;
            [apply Z.ltb_lt|apply Z.leb_le]; lia).
      destruct Hrow as (pages & -> & Hpages).
      cbn [map fst]. split; [now rewrite IH1|].
      constructor; [split; [reflexivity|exact Hpages]|exact IH2].
    + replace ((0 <? m) && (m <=? PF_PAGE_SIZE)) with false in Hrow.
      * rewrite Hrow. split; assumption.
      * symmetry. apply andb_false_iff.
        destruct (Z_lt_dec 0 m);
          [right; apply Z.leb_gt|left; apply Z.ltb_ge]; lia.
Qed.

(** ** [equalsIgnoreCase] (student_store.c and index_benchmark.c) *)

(** [tolower] in the C locale, on the value of an [unsigned char]. *)
Definition tolower (c : Z) : Z :=
  if (65 <=? c) && (c <=? 90) then c + 32 else c.

(** Conversion to [char] (signed, 8 bits). *)
Definition to_char (z : Z) : Z := (z + 128) mod 256 - 128.

(** The [while] loop and the final test.  A string is the list of its
    bytes; the byte read at its end is the terminating NUL. *)
Fixpoint equalsIgnoreCase_loop (a b : list byte) : Z :=
  match a, b with
  | ca :: a', cb :: b' =>
      if negb (Z_of_byte ca =? 0) && negb (Z_of_byte cb =? 0) then
        if negb (to_char (tolower (Z_of_byte ca))
                 =? to_char (tolower (Z_of_byte cb)))
        then 0
        else equalsIgnoreCase_loop a' b'
      else if (Z_of_byte ca =? 0) && (Z_of_byte cb =? 0) then 1 else 0
  | [], cb :: _ => if Z_of_byte cb =? 0 then 1 else 0
  | ca :: _, [] => if Z_of_byte ca =? 0 then 1 else 0
  | [], [] => 1
  end.

(** [None] is the null pointer. *)
Definition equalsIgnoreCase (a b : option (list byte)) : Z :=
  match a, b with
  | Some a, Some b => equalsIgnoreCase_loop a b
  | _, _ => 0
  end.

Lemma tolower_range c : 0 <= c < 256 -> 0 <= tolower c < 256.
Proof.
  intros H. unfold tolower.
  destruct ((65 <=? c) && (c <=? 90)) eqn:E; [|lia].
  apply andb_true_iff in E as [E1 E2].
  apply Z.leb_le in E1, E2. lia.
Qed.

Lemma to_char_inj x y :
  0 <= x < 256 -> 0 <= y < 256 -> to_char x = to_char y -> x = y.
Proof.
  intros Hx Hy. unfold to_char. intros H.
  assert (E : (x + 128) mod 256 = (y + 128) mod 256) by lia.
  destruct (Z_lt_dec x 128), (Z_lt_dec y 128).
  - rewrite !Z.mod_small in E by lia. lia.
  - rewrite (Z.mod_small (x + 128)) in E by lia.
    replace (y + 128) with (y - 128 + 1 * 256) in E by lia.
    rewrite Z.mod_add, Z.mod_small in E by lia. lia.
  - rewrite (Z.mod_small (y + 128)) in E by lia.
    replace (x + 128) with (x - 128 + 1 * 256) in E by lia.
    rewrite Z.mod_add, Z.mod_small in E by lia. lia.
  - replace (y + 128) with (y - 128 + 1 * 256) in E by lia.
    replace (x + 128) with (x - 128 + 1 * 256) in E by lia.
    rewrite !Z.mod_add, !Z.mod_small in E by lia. lia.
Qed.

(** X13: on two strings [equalsIgnoreCase] returns 1 when they are equal
    once every upper-case ASCII letter is replaced by its lower-case one,
    and 0 otherwise (in particular when one is a proper prefix of the
    other); with a null pointer it returns 0. *)
Theorem equalsIgnoreCase_spec (a b : list byte) :
  Forall (fun c => Z_of_byte c <> 0) a ->
  Forall (fun c => Z_of_byte c <> 0) b ->
  let lower := map (fun c => tolower (Z_of_byte c)) in
  equalsIgnoreCase (Some a) (Some b)
    = (if decide (lower a = lower b) then 1 else 0) /\
  equalsIgnoreCase None (Some b) = 0 /\
  equalsIgnoreCase (Some a) None = 0.
Proof.
  intros Ha Hb lower. split; [|split; reflexivity].
  cbn [equalsIgnoreCase]. revert b Hb.
  induction a as [|ca a IH]; intros [|cb b] Hb.
  - reflexivity.
  - apply Forall_cons in Hb as [Hcb _]. cbn.
    apply Z.eqb_neq in Hcb. now rewrite Hcb.
  - apply Forall_cons in Ha as [Hca _]. cbn.
    apply Z.eqb_neq in Hca. now rewrite Hca.
  - apply Forall_cons in Ha as [Hca Ha]. apply Forall_cons in Hb as [Hcb Hb].
    cbn [equalsIgnoreCase_loop].
    apply Z.eqb_neq in Hca, Hcb. rewrite Hca, Hcb. cbn [negb andb].
    pose proof (tolower_range _ (Z_of_byte_range ca)) as Ra.
    pose proof (tolower_range _ (Z_of_byte_range cb)) as Rb.
    destruct (to_char (tolower (Z_of_byte ca))
              =? to_char (tolower (Z_of_byte cb))) eqn:E; cbn [negb].
    + apply Z.eqb_eq in E. apply to_char_inj in E; [|lia|lia].
      rewrite (IH Ha b Hb).
      destruct (decide (lower a = lower b)) as [H|H];
        destruct (decide (lower (ca :: a) = lower (cb :: b))) as [H'|H'];
        try reflexivity; exfalso.
      * apply H'. unfold lower in *. cbn [map]. now rewrite E, H.
      * apply H. unfold lower in *. cbn [map] in H'. now injection H'.
    + apply Z.eqb_neq in E.
      destruct (decide (lower (ca :: a) = lower (cb :: b))) as [H'|H'];
        [|reflexivity].
      exfalso. apply E. unfold lower in H'. cbn [map] in H'.
      injection H' as -> _. reflexivity.
Qed.

(** ** index_benchmark.c: [shuffleRecords] and [selectQueries] *)

Record RecordKey := mkRecordKey { roll : Z; recId : Z }.

(** The [for] loop of [shuffleRecords] from index [i] down to 1.  [rand]
    gives the value of each call of the C library's [rand], [calls] counts
    the calls made so far; [None] is an access outside the array. *)
Fixpoint shuffle_loop (rand : nat -> Z) (calls : nat) (i : nat)
    (records : list RecordKey) : option (list RecordKey) :=
  match i with
  | O => Some records
  | S i' =>
      let j := Z.to_nat (Z.rem (rand calls) (Z.of_nat i + 1)) in
      match records !! i, records !! j with
      | Some tmp, Some rj =>
          shuffle_loop rand (S calls) i' (<[j := tmp]> (<[i := rj]> records))
      | _, _ => None
      end
  end.

Definition shuffleRecords (rand : nat -> Z) (records : list RecordKey)
    (count : Z) : option (list RecordKey) :=
  shuffle_loop rand 0 (Z.to_nat (count - 1)) records.

(** The [for] loop of [selectQueries]; [None] is a division by zero or an
    access outside the array. *)
Fixpoint select_loop (rand : nat -> Z) (calls : nat) (n : nat)
    (records : list RecordKey) (count : Z) : option (list Z) :=
  match n with
  | O => Some []
  | S n' =>
      if count =? 0 then None
      else
        let idx := Z.rem (rand calls) count in
        if idx <? 0 then None
        else
          match records !! Z.to_nat idx with
          | Some r =>
              match select_loop rand (S calls) n' records count with
              | Some keys => Some (roll r :: keys)
              | None => None
              end
          | None => None
          end
  end.

(** [selectQueries] when [malloc] succeeds. *)
Definition selectQueries (rand : nat -> Z) (records : list RecordKey)
    (count queryCount : Z) : option (list Z) :=
  select_loop rand 0 (Z.to_nat queryCount) records count.

Lemma shuffle_loop_spec (rand : nat -> Z) :
  (forall n, 0 <= rand n) ->
  forall i calls records, (i < length records)%nat ->
  exists records',
    shuffle_loop rand calls i records = Some records' /\
    Permutation records' records /\ drop (S i) records' = drop (S i) records.
Proof.
  intros Hrand. induction i as [|i IH]; intros calls records Hlen.
  - exists records. split; [reflexivity|]. split; reflexivity.
  - cbn [shuffle_loop].
    set (j := Z.to_nat (Z.rem (rand calls) (Z.of_nat (S i) + 1))).
    assert (Hj : (j <= S i)%nat).
    { unfold j. pose proof (Hrand calls).
      pose proof (Z.rem_bound_pos (rand calls) (Z.of_nat (S i) + 1)
                    ltac:(lia) ltac:(lia)). lia. }
    destruct (lookup_lt_is_Some_2 records (S i) Hlen) as [tmp Hi].
    destruct (lookup_lt_is_Some_2 records j ltac:(lia)) as [rj Hrj].
    rewrite Hi, Hrj.
    destruct (IH (S calls) (<[j := tmp]> (<[S i := rj]> records)))
      as (records' & Heq & Hperm & Hdrop).
    { rewrite !length_insert. lia. }
    exists records'. split; [exact Heq|]. split.
    + rewrite Hperm. now apply Permutation_insert_swap.
    + apply (f_equal (drop 1)) in Hdrop. rewrite !drop_drop in Hdrop.
      replace (S i + 1)%nat with (S (S i)) in Hdrop by lia.
      rewrite Hdrop.
      rewrite !drop_insert_lt by lia. reflexivity.
Qed.

(** X14: when [count] is at most the length of the array and [rand]
    returns non-negative values, [shuffleRecords] stays inside the array
    and returns a permutation of it that leaves the entries from [count]
    on in place: the incremental ordering indexes exactly the records that
    were loaded. *)
Theorem shuffle_is_permutation (rand : nat -> Z) (records : list RecordKey)
    (count : Z) :
  (forall n, 0 <= rand n) ->
  count <= Z.of_nat (length records) ->
  exists records',
    shuffleRecords rand records count = Some records' /\
    Permutation records' records /\
    drop (Z.to_nat count) records' = drop (Z.to_nat count) records.
Proof.
  intros Hrand Hcount. unfold shuffleRecords.
  destruct (Z_le_gt_dec count 1) as [Hc|Hc].
  - replace (Z.to_nat (count - 1)) with 0%nat by lia.
    exists records. split; [reflexivity|]. split; reflexivity.
  - destruct (shuffle_loop_spec rand Hrand (Z.to_nat (count - 1)) 0%nat
                records ltac:(lia)) as (records' & Heq & Hperm & Hdrop).
    exists records'. split; [exact Heq|]. split; [exact Hperm|].
    replace (Z.to_nat count) with (S (Z.to_nat (count - 1))) by lia.
    exact Hdrop.
Qed.

Lemma select_loop_spec (rand : nat -> Z) (records : list RecordKey)
    (count : Z) :
  (forall n, 0 <= rand n) ->
  0 < count <= Z.of_nat (length records) ->
  forall n calls,
  exists keys,
    select_loop rand calls n records count = Some keys /\
    length keys = n /\
    Forall (fun k => exists r, In r (take (Z.to_nat count) records) /\
                               roll r = k) keys.
Proof.
  intros Hrand Hcount. induction n as [|n IH]; intros calls.
  - exists []. split; [reflexivity|]. split; [reflexivity|constructor].
  - cbn [select_loop].
    replace (count =? 0) with false by (symmetry; apply Z.eqb_neq; lia).
    pose proof (Z.rem_bound_pos (rand calls) count (Hrand calls) ltac:(lia))
      as Hidx.
    replace (Z.rem (rand calls) count <? 0) with false
      by (symmetry; apply Z.ltb_ge; lia).
    destruct (lookup_lt_is_Some_2 records
                (Z.to_nat (Z.rem (rand calls) count)) ltac:(lia)) as [r Hr].
    rewrite Hr.
    destruct (IH (S calls)) as (keys & -> & Hlen & Hall).
    exists (roll r :: keys). split; [reflexivity|].
    split; [simpl; lia|]. constructor; [|exact Hall].
    exists r. split; [|reflexivity].
    apply list_elem_of_In.
    apply (list_elem_of_lookup_2 _ (Z.to_nat (Z.rem (rand calls) count))).
    rewrite lookup_take_lt by lia. exact Hr.
Qed.

(** X15: for a positive [count] within the array and a [rand] that returns
    non-negative values, [selectQueries] returns [queryCount] keys, each
    the roll number of one of the first [count] records: every query of
    the benchmark looks up a key that was indexed. *)
Theorem queries_are_loaded_keys (rand : nat -> Z) (records : list RecordKey)
    (count queryCount : Z) :
  (forall n, 0 <= rand n) ->
  0 < count <= Z.of_nat (length records) ->
  0 <= queryCount ->
  exists keys,
    selectQueries rand records count queryCount = Some keys /\
    Z.of_nat (length keys) = queryCount /\
    Forall (fun k => exists r, In r (take (Z.to_nat count) records) /\
                               roll r = k) keys.
Proof.
  intros Hrand Hcount Hq. unfold selectQueries.
  destruct (select_loop_spec rand records count Hrand Hcount
              (Z.to_nat queryCount) 0%nat) as (keys & Heq & Hlen & Hall).
  exists keys. split; [exact Heq|]. split; [lia|exact Hall].
Qed.

(** ** index_benchmark.c: when [main] writes the metrics *)

Lemma insert_loop_ok (rcs : list Z) :
  insert_loop rcs = 0 <-> Forall (fun err => err = AME_OK) rcs.
Proof.
  induction rcs as [|err rest IH]; cbn [insert_loop].
  - split; [constructor|reflexivity].
  - destruct (err =? AME_OK) eqn:E; cbn [negb].
    + apply Z.eqb_eq in E. rewrite IH. split.
      * intros H. constructor; assumption.
      * intros H. apply Forall_cons in H as [_ H]. exact H.
    + apply Z.eqb_neq in E. split; [discriminate|].
      intros H. apply Forall_cons in H as [H _]. contradiction.
Qed.

Lemma query_loop_ok (sds : list Z) :
  query_loop sds = 0 <-> Forall (fun sd => 0 <= sd) sds.
Proof.
  induction sds as [|sd rest IH]; cbn [query_loop].
  - split; [constructor|reflexivity].
  - destruct (sd <? 0) eqn:E.
    + apply Z.ltb_lt in E. split; [discriminate|].
      intros H. apply Forall_cons in H as [H _]. lia.
    + apply Z.ltb_ge in E. rewrite IH. split.
      * intros H. constructor; assumption.
      * intros H. apply Forall_cons in H as [_ H]. exact H.
Qed.

(** Every call of a build phase succeeded. *)
Definition build_ok (e : BuildEnv) : Prop :=
  AM_CreateIndex_rc e = AME_OK /\ 0 <= build_PF_OpenFile_fd e /\
  Forall (fun err => err = AME_OK) (AM_InsertEntry_rcs e).

(** Every call of a query phase succeeded. *)
Definition query_ok (e : QueryEnv) : Prop :=
  0 <= query_PF_OpenFile_fd e /\
  Forall (fun sd => 0 <= sd) (AM_OpenIndexScan_sds e).

Lemma buildIndex_ok (e : BuildEnv) : buildIndex e = 0 <-> build_ok e.
Proof.
  unfold buildIndex, build_ok.
  destruct (AM_CreateIndex_rc e =? AME_OK) eqn:E1; cbn [negb].
  - apply Z.eqb_eq in E1.
    destruct (build_PF_OpenFile_fd e <? 0) eqn:E2.
    + apply Z.ltb_lt in E2. split; [discriminate|]. intros (_ & H & _). lia.
    + apply Z.ltb_ge in E2. rewrite insert_loop_ok. tauto.
  - apply Z.eqb_neq in E1. split; [discriminate|]. tauto.
Qed.

Lemma runQueries_ok (e : QueryEnv) : runQueries e = 0 <-> query_ok e.
Proof.
  unfold runQueries, query_ok.
  destruct (query_PF_OpenFile_fd e <? 0) eqn:E2.
  - apply Z.ltb_lt in E2. split; [discriminate|]. intros (H & _). lia.
  - apply Z.ltb_ge in E2. rewrite query_loop_ok. tauto.
Qed.

(** X16: [main] of the index benchmark hands rows to [writeMetrics] exactly
    when the data set was loaded and is not empty, the copies and the
    queries were allocated, and every call of all three build phases and
    all three query phases succeeded; it then passes all six rows, and one
    failing [AM_InsertEntry] or [AM_OpenIndexScan] suppresses the whole
    table. *)
Theorem metrics_only_on_full_success (e : IndexEnv) :
  (forall n, snd (index_benchmark_main e) = Some n -> n = 6) /\
  (snd (index_benchmark_main e) = Some 6 <->
   have_dataPath e = true /\ loadRecords_rc e = 0 /\
   loaded_recordCount e <> 0 /\
   copyRecords_ok e = true /\ selectQueries_ok e = true /\
   build_ok (post_build e) /\ query_ok (post_query e) /\
   build_ok (inc_build e) /\ query_ok (inc_query e) /\
   build_ok (bulk_build e) /\ query_ok (bulk_query e)).
Proof.
  rewrite <- !buildIndex_ok, <- !runQueries_ok.
  unfold index_benchmark_main.
  destruct (have_dataPath e); cbn [negb];
    [|split; [discriminate|split; [discriminate|intros (H & _); discriminate]]].
  destruct (loadRecords_rc e =? 0) eqn:E1; cbn [negb];
    [apply Z.eqb_eq in E1
    |apply Z.eqb_neq in E1;
     split; [discriminate|split; [discriminate|tauto]]].
  destruct (loaded_recordCount e =? 0) eqn:E2;
    [apply Z.eqb_eq in E2;
     split; [discriminate|split; [discriminate|tauto]]
    |apply Z.eqb_neq in E2].
  destruct (copyRecords_ok e); cbn [negb];
    [|split; [discriminate|split; [discriminate|
        intros (_ & _ & _ & H & _); discriminate]]].
  destruct (selectQueries_ok e); cbn [negb];
    [|split; [discriminate|split; [discriminate|
        intros (_ & _ & _ & _ & H & _); discriminate]]].
  destruct (buildIndex (post_build e) =? 0) eqn:B1; cbn [negb];
    [apply Z.eqb_eq in B1
    |apply Z.eqb_neq in B1;
     split; [discriminate|split; [discriminate|tauto]]].
  destruct (runQueries (post_query e) =? 0) eqn:Q1; cbn [negb];
    [apply Z.eqb_eq in Q1
    |apply Z.eqb_neq in Q1;
     split; [discriminate|split; [discriminate|tauto]]].
  destruct (buildIndex (inc_build e) =? 0) eqn:B2; cbn [negb];
    [apply Z.eqb_eq in B2
    |apply Z.eqb_neq in B2;
     split; [discriminate|split; [discriminate|tauto]]].
  destruct (runQueries (inc_query e) =? 0) eqn:Q2; cbn [negb];
    [apply Z.eqb_eq in Q2
    |apply Z.eqb_neq in Q2;
     split; [discriminate|split; [discriminate|tauto]]].
  destruct (buildIndex (bulk_build e) =? 0) eqn:B3; cbn [negb];
    [apply Z.eqb_eq in B3
    |apply Z.eqb_neq in B3;
     split; [discriminate|split; [discriminate|tauto]]].
  destruct (runQueries (bulk_query e) =? 0) eqn:Q3; cbn [negb];
    [apply Z.eqb_eq in Q3
    |apply Z.eqb_neq in Q3;
     split; [discriminate|split; [discriminate|tauto]]].
  cbn [snd]. split; [intros n H; now injection H|].
  split; [intros _; tauto|reflexivity].
Qed.

(** ** pf_stats.c *)

(** [unsigned long] of 64 bits. *)
Definition to_ulong (z : Z) : Z := z mod 2 ^ 64.

Record PF_Stats := mkPF_Stats {
  logicalReads : Z;
  logicalWrites : Z;
  physicalReads : Z;
  physicalWrites : Z;
  inputCount : Z;
  outputCount : Z;
  pageFixes : Z;
  dirtyMarks : Z
}.

(** The functions of pf_stats.c that change the global [PFstats]. *)
Inductive StatsCall :=
| CallReset | CallIncLogicalRead | CallIncLogicalWrite
| CallIncPhysicalRead | CallIncPhysicalWrite
| CallIncPageFix | CallIncDirtyMark.

Definition PFStatsReset (_ : PF_Stats) : PF_Stats :=
  mkPF_Stats 0 0 0 0 0 0 0 0.

Definition PFStatsIncLogicalRead (s : PF_Stats) : PF_Stats :=
  mkPF_Stats (to_ulong (logicalReads s + 1)) (logicalWrites s)
    (physicalReads s) (physicalWrites s) (inputCount s) (outputCount s)
    (pageFixes s) (dirtyMarks s).

Definition PFStatsIncLogicalWrite (s : PF_Stats) : PF_Stats :=
  mkPF_Stats (logicalReads s) (to_ulong (logicalWrites s + 1))
    (physicalReads s) (physicalWrites s) (inputCount s) (outputCount s)
    (pageFixes s) (dirtyMarks s).

Definition PFStatsIncPhysicalRead (s : PF_Stats) : PF_Stats :=
  mkPF_Stats (logicalReads s) (logicalWrites s)
    (to_ulong (physicalReads s + 1)) (physicalWrites s)
    (to_ulong (inputCount s + 1)) (outputCount s)
    (pageFixes s) (dirtyMarks s).

Definition PFStatsIncPhysicalWrite (s : PF_Stats) : PF_Stats :=
  mkPF_Stats (logicalReads s) (logicalWrites s)
    (physicalReads s) (to_ulong (physicalWrites s + 1))
    (inputCount s) (to_ulong (outputCount s + 1))
    (pageFixes s) (dirtyMarks s).

Definition PFStatsIncPageFix (s : PF_Stats) : PF_Stats :=
  mkPF_Stats (logicalReads s) (logicalWrites s)
    (physicalReads s) (physicalWrites s) (inputCount s) (outputCount s)
    (to_ulong (pageFixes s + 1)) (dirtyMarks s).

Definition PFStatsIncDirtyMark (s : PF_Stats) : PF_Stats :=
  mkPF_Stats (logicalReads s) (logicalWrites s)
    (physicalReads s) (physicalWrites s) (inputCount s) (outputCount s)
    (pageFixes s) (to_ulong (dirtyMarks s + 1)).

Definition stats_call (s : PF_Stats) (c : StatsCall) : PF_Stats :=
  match c with
  | CallReset => PFStatsReset s
  | CallIncLogicalRead => PFStatsIncLogicalRead s
  | CallIncLogicalWrite => PFStatsIncLogicalWrite s
  | CallIncPhysicalRead => PFStatsIncPhysicalRead s
  | CallIncPhysicalWrite => PFStatsIncPhysicalWrite s
  | CallIncPageFix => PFStatsIncPageFix s
  | CallIncDirtyMark => PFStatsIncDirtyMark s
  end.

(** [PFStatsInit] followed by a sequence of calls. *)
Definition stats_run (s : PF_Stats) (calls : list StatsCall) : PF_Stats :=
  fold_left stats_call calls (PFStatsReset s).

#[local] Instance StatsCall_eq_dec : EqDecision StatsCall.
Proof. solve_decision. Defined.

(** Number of calls of [c] since the last [CallReset]. *)
Fixpoint calls_since_reset (c : StatsCall) (calls : list StatsCall)
    (acc : Z) : Z :=
  match calls with
  | [] => acc
  | CallReset :: rest => calls_since_reset c rest 0
  | d :: rest =>
      calls_since_reset c rest
        (if decide (d = c) then acc + 1 else acc)
  end.

Lemma to_ulong_succ a : to_ulong (to_ulong a + 1) = to_ulong (a + 1).
Proof. unfold to_ulong. now rewrite Zplus_mod_idemp_l. Qed.

(** The counters agree with the numbers of calls. *)
Definition stats_agree (s : PF_Stats) (lr lw pr pw pf dm : Z) : Prop :=
  logicalReads s = to_ulong lr /\ logicalWrites s = to_ulong lw /\
  physicalReads s = to_ulong pr /\ physicalWrites s = to_ulong pw /\
  inputCount s = to_ulong pr /\ outputCount s = to_ulong pw /\
  pageFixes s = to_ulong pf /\ dirtyMarks s = to_ulong dm.

Lemma stats_fold_agree : forall calls s lr lw pr pw pf dm,
  stats_agree s lr lw pr pw pf dm ->
  stats_agree (fold_left stats_call calls s)
    (calls_since_reset CallIncLogicalRead calls lr)
    (calls_since_reset CallIncLogicalWrite calls lw)
    (calls_since_reset CallIncPhysicalRead calls pr)
    (calls_since_reset CallIncPhysicalWrite calls pw)
    (calls_since_reset CallIncPageFix calls pf)
    (calls_since_reset CallIncDirtyMark calls dm).
Proof.
  induction calls as [|c calls IH]; intros s lr lw pr pw pf dm H.
  - exact H.
  - destruct H as (H1 & H2 & H3 & H4 & H5 & H6 & H7 & H8).
    cbn [fold_left].
    destruct c; cbn [calls_since_reset]; apply IH;
      unfold stats_agree, stats_call, PFStatsReset, PFStatsIncLogicalRead,
        PFStatsIncLogicalWrite, PFStatsIncPhysicalRead,
        PFStatsIncPhysicalWrite, PFStatsIncPageFix, PFStatsIncDirtyMark;
      cbn [logicalReads logicalWrites physicalReads physicalWrites
           inputCount outputCount pageFixes dirtyMarks];
      repeat match goal with
             | |- context [decide ?P] => destruct (decide P); try discriminate
             end;
      rewrite ?H1, ?H2, ?H3, ?H4, ?H5, ?H6, ?H7, ?H8, ?to_ulong_succ;
      try tauto; repeat split; reflexivity.
Qed.

(** X17: whatever sequence of statistics calls follows [PFStatsInit], the
    input count always equals the physical reads and the output count the
    physical writes, and every counter is the number of calls of its
    increment since the last reset, modulo [2 ^ 64]. *)
Theorem stats_counters (s0 : PF_Stats) (calls : list StatsCall) :
  let s := stats_run s0 calls in
  inputCount s = physicalReads s /\
  outputCount s = physicalWrites s /\
  logicalReads s = to_ulong (calls_since_reset CallIncLogicalRead calls 0) /\
  logicalWrites s = to_ulong (calls_since_reset CallIncLogicalWrite calls 0) /\
  physicalReads s
    = to_ulong (calls_since_reset CallIncPhysicalRead calls 0) /\
  physicalWrites s
    = to_ulong (calls_since_reset CallIncPhysicalWrite calls 0) /\
  pageFixes s = to_ulong (calls_since_reset CallIncPageFix calls 0) /\
  dirtyMarks s = to_ulong (calls_since_reset CallIncDirtyMark calls 0).
Proof.
  intros s.
  destruct (stats_fold_agree calls (PFStatsReset s0) 0 0 0 0 0 0)
    as (H1 & H2 & H3 & H4 & H5 & H6 & H7 & H8).
  { unfold stats_agree. cbn. repeat split; reflexivity. }
  fold (stats_run s0 calls) in H1, H2, H3, H4, H5, H6, H7, H8.
  fold s in H1, H2, H3, H4, H5, H6, H7, H8.
  split; [congruence|]. split; [congruence|]. tauto.
Qed.

(** ** pf_benchmark.c: the workload mix *)

(** An [int] of 32 bits. *)
Definition to_int (z : Z) : Z := (z + 2 ^ 31) mod 2 ^ 32 - 2 ^ 31.

Record WorkloadSpec := mkWorkloadSpec { readWeight : Z; writeWeight : Z }.

(** [strchr] for a character that is not NUL: the suffix that starts at
    its first occurrence. *)
Fixpoint strchr (s : list byte) (c : Z) : option (list byte) :=
  match s with
  | [] => None
  | b :: rest => if Z_of_byte b =? c then Some s else strchr rest c
  end.

Section Mix.

(** The C library's [atoi], which returns an [int]. *)
Variable atoi : list byte -> Z.

(** [parseMix]: the return value and the [WorkloadSpec] behind [spec]. *)
Definition parseMix (arg : list byte) (spec : WorkloadSpec)
  : Z * WorkloadSpec :=
  let sep :=
    match strchr arg 58 with
    | Some p => Some p
    | None => strchr arg 47
    end in
  match sep with
  | None => (-1, spec)
  | Some p =>
      let spec := mkWorkloadSpec (atoi arg) (atoi (tail p)) in
      if (readWeight spec <? 0) || (writeWeight spec <? 0) then (-1, spec)
      else if to_int (readWeight spec + writeWeight spec) =? 0
           then (-1, spec)
      else (0, spec)
  end.

(** [pick] and [isWrite] of one operation of the benchmark loop, for the
    value [rnd] returned by [rand]. *)
Definition op_pick (mix : WorkloadSpec) (rnd : Z) : Z :=
  Z.rem rnd (to_int (readWeight mix + writeWeight mix)).

Definition op_isWrite (mix : WorkloadSpec) (rnd : Z) : bool :=
  readWeight mix <=? op_pick mix rnd.

(** X18: a mix that [parseMix] accepts has a separator, weights that are
    not negative and a sum that is not zero, so the benchmark loop never
    divides by zero; when the sum fits an [int], [pick] is below the sum,
    a mix with write weight 0 issues only reads and a mix with read weight
    0 only writes. *)
Theorem accepted_mix (arg : list byte) (spec mix : WorkloadSpec) :
  parseMix arg spec = (0, mix) ->
  (strchr arg 58 <> None \/ strchr arg 47 <> None) /\
  0 <= readWeight mix /\ 0 <= writeWeight mix /\
  to_int (readWeight mix + writeWeight mix) <> 0 /\
  (readWeight mix + writeWeight mix < 2 ^ 31 ->
   forall rnd, 0 <= rnd ->
     0 <= op_pick mix rnd < readWeight mix + writeWeight mix /\
     (writeWeight mix = 0 -> op_isWrite mix rnd = false) /\
     (readWeight mix = 0 -> op_isWrite mix rnd = true)).
Proof.
  unfold parseMix. intros H.
  assert (Hsep : exists p,
            match strchr arg 58 with
            | Some p => Some p
            | None => strchr arg 47
            end = Some p /\
            (strchr arg 58 <> None \/ strchr arg 47 <> None)).
  { destruct (strchr arg 58) as [p|] eqn:E1.
    - exists p. split; [reflexivity|]. left. discriminate.
    - destruct (strchr arg 47) as [p|] eqn:E2; [|discriminate].
      exists p. split; [reflexivity|]. right. discriminate. }
  destruct Hsep as (p & Hp & Hsep). rewrite Hp in H.
  cbn [readWeight writeWeight] in H.
  destruct (atoi arg <? 0) eqn:Er; [discriminate|].
  destruct (atoi (tail p) <? 0) eqn:Ew; [discriminate|].
  cbn [orb] in H.
  destruct (to_int (atoi arg + atoi (tail p)) =? 0) eqn:Es; [discriminate|].
  injection H as <-. cbn [readWeight writeWeight].
  apply Z.ltb_ge in Er, Ew. apply Z.eqb_neq in Es.
  split; [exact Hsep|]. split; [exact Er|]. split; [exact Ew|].
  split; [exact Es|].
  intros Hsum rnd Hrnd.
  unfold op_isWrite, op_pick. cbn [readWeight writeWeight].
  assert (Hid : to_int (atoi arg + atoi (tail p))
                = atoi arg + atoi (tail p)).
  { unfold to_int. rewrite Z.mod_small; [lia|].
    assert (2 ^ 32 = 2 * 2 ^ 31) by reflexivity. lia. }
  rewrite Hid in *.
  pose proof (Z.rem_bound_pos rnd (atoi arg + atoi (tail p)) Hrnd
                ltac:(lia)) as Hb.
  split; [exact Hb|]. split; intros H0.
  - apply Z.leb_gt. lia.
  - apply Z.leb_le. lia.
Qed.

End Mix.

(** ** When the loader fails *)

Section LoaderLimits.

Variable PF_PAGE_SIZE : Z.
Hypothesis page_size_ok : 8 <= PF_PAGE_SIZE <= 32767.

Local Abbreviation inv := (sp_inv PF_PAGE_SIZE).
Local Abbreviation init := (SP_InitPage PF_PAGE_SIZE).
Local Abbreviation insert := (SP_InsertRecord PF_PAGE_SIZE).

(** A record that was inserted leaves room for the header and one slot. *)
Lemma insert_ok_bound buf data len b' out :
  inv buf -> len <= Z.of_nat (length data) ->
  insert buf data len = (SP_OK, b', out) ->
  0 < len <= PF_PAGE_SIZE - 12.
Proof.
  intros Hinv Hdata Heq.
  destruct (insert_spec PF_PAGE_SIZE page_size_ok buf data len Hinv Hdata)
    as (rc' & b2 & out' & Heq' & _ & Hcases).
  rewrite Heq in Heq'. injection Heq' as <- <- <-.
  destruct Hcases as [(Hrc & _)|(_ & _ & Hpos & bX & HinvX & V & _ & Hsp & _)];
    [discriminate|].
  split; [exact Hpos|].
  pose proof HinvX as [HlayX _]. pose proof Hinv as [Hlay [l Hc]].
  pose proof (lay_top _ _ _ HlayX) as Htop.
  pose proof (lay_slotCount _ _ _ Hlay) as Hsc.
  unfold SP_PageFreeSpace in Hsp. rewrite (sv_slotCount _ _ V) in Hsp.
  unfold need_slot in Hsp.
  change sizeof_SP_SlotEntry with 4 in Hsp.
  change sizeof_SP_PageHeader with 8 in Hsp.
  destruct (hdr_freeListHead buf =? SP_INVALID_SLOT) eqn:E; [lia|].
  apply Z.eqb_neq in E.
  destruct (free_chain_head _ _ _ Hc) as [[H _]|(r & _ & H)]; [contradiction|].
  lia.
Qed.

(** [insertRecord] on a consistent store succeeds exactly for the records
    that fit an empty page. *)
Lemma insertRecord_rc f store data len :
  store_ok PF_PAGE_SIZE f store -> len <= Z.of_nat (length data) ->
  fst (fst (insertRecord PF_PAGE_SIZE f store data len)) = SP_OK <->
  0 < len <= PF_PAGE_SIZE - 12.
Proof.
  intros (Hpages & Hpc & Hrc & Hlast) Hdata.
  destruct (fresh_page_counts PF_PAGE_SIZE page_size_ok) as (Hfi & _ & _).
  assert (Hfresh : 0 < len <= PF_PAGE_SIZE - 12 ->
            fst (fst (insert (init (replicate (Z.to_nat PF_PAGE_SIZE) x00))
                             data len)) = SP_OK).
  { intros Hfit.
    destruct (insert_fresh PF_PAGE_SIZE page_size_ok
                (replicate (Z.to_nat PF_PAGE_SIZE) x00) data len)
      as (b & ->); [rewrite length_replicate; lia|exact Hfit|exact Hdata|].
    reflexivity. }
  set (blank := replicate (Z.to_nat PF_PAGE_SIZE) x00) in *.
  unfold insertRecord, PF_AllocPage. fold blank.
  destruct Hlast as [[Hneg ->]|[Hl Hne]].
  - destruct (lastPage store <? 0) eqn:E; [|apply Z.ltb_ge in E; lia].
    destruct (insert (init blank) data len) as [[rc b1] o1] eqn:E1.
    cbn [fst] in Hfresh.
    destruct (rc =? SP_OK) eqn:Erc.
    + apply Z.eqb_eq in Erc. subst rc. cbn [fst]. split; [|reflexivity].
      intros _. apply (insert_ok_bound _ _ _ _ _ Hfi Hdata E1).
    + cbn [negb fst]. apply Z.eqb_neq in Erc. split; [contradiction|].
      intros H. exfalso. apply Erc, Hfresh, H.
  - destruct (exists_last Hne) as (pre & cur & ->).
    rewrite length_app in Hl. simpl in Hl.
    destruct (lastPage store <? 0) eqn:E; [apply Z.ltb_lt in E; lia|].
    assert (Hcur : PF_GetThisPage (pre ++ [cur]) (lastPage store) = Some cur).
    { unfold PF_GetThisPage. rewrite E, Hl.
      replace (Z.to_nat (Z.of_nat (length pre + 1) - 1)) with (length pre)
        by lia.
      apply list_lookup_middle. reflexivity. }
    rewrite Hcur.
    apply Forall_app in Hpages as [_ Hc]. apply Forall_inv in Hc.
    destruct (insert cur data len) as [[rc b1] o1] eqn:E1.
    destruct (rc =? SP_OK) eqn:Erc.
    + apply Z.eqb_eq in Erc. subst rc. cbn [fst]. split; [|reflexivity].
      intros _. apply (insert_ok_bound _ _ _ _ _ Hc Hdata E1).
    + destruct (insert (init blank) data len) as [[rc2 b2] o2] eqn:E2.
      cbn [fst] in Hfresh.
      destruct (rc2 =? SP_OK) eqn:Erc2; cbn [negb fst].
      * apply Z.eqb_eq in Erc2. subst rc2. split; [|reflexivity].
        intros _. apply (insert_ok_bound _ _ _ _ _ Hfi Hdata E2).
      * apply Z.eqb_neq in Erc2. split; [contradiction|].
        intros H. exfalso. apply Erc2, Hfresh, H.
Qed.

(** The line loop does not stop at the buffer [line]: it is skipped, or
    its record fits an empty page. *)
Definition line_fits (line : list byte) : Prop :=
  match line_action line with
  | Skip => True
  | TooLong => False
  | Pack _ len => len <= PF_PAGE_SIZE - 12
  end.

Lemma load_lines_result : forall fuel fp f store tr tb,
  (length fp < fuel)%nat ->
  store_ok PF_PAGE_SIZE f store ->
  exists r,
    load_lines PF_PAGE_SIZE fuel f store tr tb fp = Some r /\
    match r with
    | inr _ => Forall line_fits (input_pieces fp)
    | inl rc => rc = 1 /\ ~ Forall line_fits (input_pieces fp)
    end.
Proof.
  induction fuel as [|fuel IH]; intros fp f store tr tb Hfuel Hok; [lia|].
  cbn [load_lines].
  destruct (fgets LINE_SIZE fp) as [[line rest]|] eqn:Hget.
  2:{ apply fgets_None in Hget. subst fp. eexists. split; [reflexivity|].
      rewrite input_pieces_nil. constructor. }
  pose proof (fgets_shorter fp line rest Hget) as Hlt.
  rewrite (input_pieces_cons fp line rest Hget).
  destruct (line_action line) as [| |data len] eqn:Hact.
  - destruct (IH rest f store tr tb ltac:(lia) Hok) as (r & -> & Hr).
    exists r. split; [reflexivity|]. destruct r as [rc|r].
    + destruct Hr as [-> Hno]. split; [reflexivity|].
      intros H. apply Forall_cons in H as [_ H]. now apply Hno.
    + constructor; [unfold line_fits; now rewrite Hact|exact Hr].
  - exists (inl 1). split; [reflexivity|]. split; [reflexivity|].
    intros H. apply Forall_cons in H as [H _].
    unfold line_fits in H. now rewrite Hact in H.
  - destruct (pack_record line data len Hact) as [Hlen Hdata].
    pose proof (insertRecord_rc f store data len Hok ltac:(lia)) as Hiff.
    destruct (insertRecord PF_PAGE_SIZE f store data len)
      as [[rc f1] store1] eqn:Hins.
    cbn [fst] in Hiff.
    destruct (rc =? SP_OK) eqn:Erc; cbn [negb].
    + apply Z.eqb_eq in Erc. subst rc.
      destruct (insertRecord_ok PF_PAGE_SIZE page_size_ok f store data len
                  f1 store1 Hok ltac:(lia) Hins) as (Hok1 & _).
      destruct (IH rest f1 store1 (tr + 1) (tb + Z.of_nat (length data))
                  ltac:(lia) Hok1) as (r & -> & Hr).
      exists r. split; [reflexivity|]. destruct r as [rc|r].
      * destruct Hr as [-> Hno]. split; [reflexivity|].
        intros H. apply Forall_cons in H as [_ H]. now apply Hno.
      * constructor; [|exact Hr]. unfold line_fits. rewrite Hact.
        apply Hiff. reflexivity.
    + apply Z.eqb_neq in Erc. exists (inl 1). split; [reflexivity|].
      split; [reflexivity|].
      intros H. apply Forall_cons in H as [H _].
      unfold line_fits in H. rewrite Hact in H.
      apply Erc, Hiff. lia.
Qed.

(** X19: on an initially empty store the line loop ends for every input
    (a fuel above the length of the input suffices); it reaches the end of
    the input exactly when the record of every buffer [fgets] delivered
    that is not skipped is at most [PF_PAGE_SIZE - 12] bytes long (the page
    without its header and one slot entry); otherwise the exit code is
    1. *)
Theorem load_succeeds_iff_lines_fit (fd0 : Z) (fp : list byte)
    (fuel : nat) :
  (length fp < fuel)%nat ->
  exists r,
    load_lines PF_PAGE_SIZE fuel [] (mkStore fd0 (-1) 0 0) 0 0 fp = Some r /\
    ((exists s, r = inr s) <-> Forall line_fits (input_pieces fp)) /\
    (forall rc, r = inl rc -> rc = 1).
Proof.
  intros Hfuel.
  assert (H0 : store_ok PF_PAGE_SIZE [] (mkStore fd0 (-1) 0 0)).
  { split; [constructor|]. cbn. split; [reflexivity|]. split; [reflexivity|].
    left. split; [lia|reflexivity]. }
  destruct (load_lines_result fuel fp [] _ 0 0 Hfuel H0) as (r & Heq & H).
  exists r. split; [exact Heq|].
  destruct r as [rc|s].
  - destruct H as [-> Hno]. split.
    + split; [intros [s Hs]; discriminate|intros Hall; contradiction].
    + intros rc Hrc. now injection Hrc as <-.
  - split; [|intros rc Hrc; discriminate].
    split; [intros _; exact H|intros _; now exists s].
Qed.

End LoaderLimits.

(** ** Lines that are read whole *)

Lemma fgets_read_line : forall (l : list byte) (n : nat) (rest : list byte),
  Forall (fun c => Z_of_byte c <> 10) l -> (length l < n)%nat ->
  fgets_read n (l ++ x0a :: rest) = (l ++ [x0a], rest).
Proof.
  induction l as [|c l IH]; intros n rest Hl Hn.
  - destruct n; [simpl in Hn; lia|]. reflexivity.
  - destruct n; [simpl in Hn; lia|].
    apply Forall_cons in Hl as [Hc Hl]. apply Z.eqb_neq in Hc.
    cbn [app fgets_read]. rewrite Hc.
    rewrite IH by (try assumption; simpl in Hn; lia). reflexivity.
Qed.

Lemma fgets_read_tail : forall (l : list byte) (n : nat),
  Forall (fun c => Z_of_byte c <> 10) l -> (length l <= n)%nat ->
  fgets_read n l = (l, []).
Proof.
  induction l as [|c l IH]; intros n Hl Hn.
  - destruct n; reflexivity.
  - destruct n; [simpl in Hn; lia|].
    apply Forall_cons in Hl as [Hc Hl]. apply Z.eqb_neq in Hc.
    cbn [fgets_read]. rewrite Hc.
    rewrite IH by (try assumption; simpl in Hn; lia). reflexivity.
Qed.

Lemma fgets_line (l rest : list byte) :
  Forall (fun c => Z_of_byte c <> 10) l -> (length l <= 4094)%nat ->
  fgets LINE_SIZE (l ++ x0a :: rest) = Some (l ++ [x0a], rest).
Proof.
  intros Hl Hn. unfold fgets.
  rewrite <- (fgets_read_line l (Z.to_nat (LINE_SIZE - 1)) rest Hl)
    by (unfold LINE_SIZE; lia).
  destruct l; reflexivity.
Qed.

(** X20: an input made of lines of at most 4094 bytes, each ended by a
    line feed, and possibly a last line of at most 4095 bytes without one,
    is processed line by line: the buffers [fgets] delivers to the line
    loop are exactly the lines with their line feed, and the last line if
    it is not empty. *)
Theorem whole_lines_read (ls : list (list byte)) (final : list byte) :
  Forall (fun l => Forall (fun c => Z_of_byte c <> 10) l /\
                   (length l <= 4094)%nat) ls ->
  Forall (fun c => Z_of_byte c <> 10) final ->
  (length final <= 4095)%nat ->
  input_pieces (concat (map (fun l => l ++ [x0a]) ls) ++ final) =
  map (fun l => l ++ [x0a]) ls ++
  match final with [] => [] | _ => [final] end.
Proof.
  intros Hls Hfin Hlen.
  induction ls as [|l ls IH]; cbn [map concat app].
  - destruct final as [|c final]; [reflexivity|].
    rewrite (input_pieces_cons (c :: final) (c :: final) []);
      [reflexivity|].
    unfold fgets. rewrite fgets_read_tail;
      [reflexivity|exact Hfin|unfold LINE_SIZE; lia].
  - apply Forall_cons in Hls as [[Hl Hn] Hls].
    rewrite <- !app_assoc. cbn [app].
    rewrite (input_pieces_cons _ _ _ (fgets_line l _ Hl Hn)).
    now rewrite (IH Hls).
Qed.

(** ** [insertRecord] on a consistent store *)

(** X21: on a store that is consistent with its file (every page
    satisfies the invariants, the counters agree with the file and
    [lastPage] is its last page), [insertRecord] returns [SP_OK] exactly
    for the records of 1 to [PF_PAGE_SIZE - 12] bytes; it then leaves a
    consistent store, with one record and [len] used bytes more in the
    file. *)
Theorem insertRecord_succeeds_iff_fits (PF_PAGE_SIZE : Z) (f : PFfile)
    (store : StudentStore) (data : list byte) (len : Z) :
  8 <= PF_PAGE_SIZE <= 32767 ->
  store_ok PF_PAGE_SIZE f store -> len <= Z.of_nat (length data) ->
  let r := insertRecord PF_PAGE_SIZE f store data len in
  (fst (fst r) = SP_OK <-> 0 < len <= PF_PAGE_SIZE - 12) /\
  (fst (fst r) = SP_OK ->
   store_ok PF_PAGE_SIZE (snd (fst r)) (snd r) /\
   file_records (snd (fst r)) = file_records f + 1 /\
   file_used (snd (fst r)) = file_used f + len /\
   recordCount (snd r) = recordCount store + 1).
Proof.
  intros Hps Hok Hdata r.
  split; [apply (insertRecord_rc PF_PAGE_SIZE Hps f store data len Hok Hdata)|].
  intros Hrc. destruct r as [[rc f'] store'] eqn:Er. cbn [fst snd] in *.
  subst rc.
  destruct (insertRecord_ok PF_PAGE_SIZE Hps f store data len f' store'
              Hok Hdata Er) as (Hok' & Hr & Hu).
  split; [exact Hok'|]. split; [exact Hr|]. split; [exact Hu|].
  destruct Hok as (_ & _ & Hc & _). destruct Hok' as (_ & _ & Hc' & _).
  lia.
Qed.

(** ** Concrete runs of the properties above *)

Lemma init_page_empty_witness :
  SP_PageFreeSpace (SP_InitPage 64 (replicate 64 x00))
    = 64 - sizeof_SP_PageHeader /\
  SP_GetNextRecord (SP_InitPage 64 (replicate 64 x00)) (-1)
    = (SP_ERR_EMPTY, -1, None).
Proof.
  destruct (init_page_empty 64 ltac:(lia) (replicate 64 x00))
    as (_ & _ & H1 & _ & H2 & _).
  - reflexivity.
  - split; [exact H1|exact H2].
Defined.

(** On [page_with_hole] 8 bytes are free before the compaction and 28
    after it. *)
Lemma compaction_reclaims_holes_witness :
  SP_PageFreeSpace page_with_hole = 8 /\
  SP_PageFreeSpace (SP_CompactPage 64 page_with_hole) =
    64 - sizeof_SP_PageHeader
    - hdr_slotCount page_with_hole * sizeof_SP_SlotEntry
    - SP_PageUsedBytes page_with_hole /\
  SP_PageUsedBytes (SP_CompactPage 64 page_with_hole)
    = SP_PageUsedBytes page_with_hole.
Proof.
  split; [vm_compute; reflexivity|].
  destruct (compaction_reclaims_holes 64 ltac:(lia) page_with_hole
              page_with_hole_inv) as (H1 & _ & H3).
  split; [exact H1|exact H3].
Defined.

(** [page_with_hole] has a tombstone and 28 reclaimable bytes: a record of
    28 bytes fits, one of 29 does not. *)
Lemma insert_succeeds_iff_fits_witness :
  fst (fst (SP_InsertRecord 64 page_with_hole (replicate 28 x43) 28))
    = SP_OK /\
  fst (fst (SP_InsertRecord 64 page_with_hole (replicate 29 x43) 29))
    = SP_ERR_NOSPACE.
Proof.
  destruct (insert_succeeds_iff_fits 64 ltac:(lia) page_with_hole
              (replicate 28 x43) 28 page_with_hole_inv) as [_ H28].
  { simpl. lia. }
  destruct (insert_succeeds_iff_fits 64 ltac:(lia) page_with_hole
              (replicate 29 x43) 29 page_with_hole_inv) as [H29 H29'].
  { simpl. lia. }
  split.
  - apply H28. vm_compute. split; [reflexivity|discriminate].
  - destruct H29 as [H|H]; [|exact H].
    apply H29' in H. exfalso. revert H. vm_compute.
    intros [_ H]. apply H. reflexivity.
Defined.

Lemma delete_live_slot_witness :
  exists buf',
    SP_DeleteRecord page_with_hole 1 = (SP_OK, buf') /\
    get_bytes buf' 1 = None /\
    SP_PageUsedBytes buf' = SP_PageUsedBytes page_with_hole - 20.
Proof.
  destruct (delete_live_slot 64 page_with_hole 1 page_with_hole_inv)
    as (buf' & H1 & _ & H2 & _ & _ & _ & H3).
  - apply live_decide. vm_compute. reflexivity.
  - exists buf'. split; [exact H1|]. split; [exact H2|].
    rewrite H3. f_equal.
Defined.

(** A page of 64 bytes with two live records. *)
Definition two_records : page :=
  sp_run 64 (SP_InitPage 64 (replicate 64 x00))
    [OpInsert (replicate 5 x41) 5; OpInsert (replicate 5 x42) 5].

Lemma two_records_inv : sp_inv 64 two_records.
Proof.
  apply run_inv; [lia|apply init_inv; [lia|reflexivity]|].
  repeat constructor; simpl; lia.
Qed.

Lemma tombstones_reused_lifo_witness :
  let b2 := snd (SP_DeleteRecord (snd (SP_DeleteRecord two_records 0)) 1) in
  let r3 := SP_InsertRecord 64 b2 [x43] 1 in
  let r4 := SP_InsertRecord 64 (snd (fst r3)) [x44] 1 in
  snd r3 = Some 1 /\ snd r4 = Some 0.
Proof.
  intros b2 r3 r4.
  apply (tombstones_reused_lifo 64 ltac:(lia) two_records 0 1 [x43] [x44]
           1 1 (snd (fst r3)) (snd (fst r4)) (snd r3) (snd r4)
           two_records_inv).
  - apply live_decide. vm_compute. reflexivity.
  - apply live_decide. vm_compute. reflexivity.
  - lia.
  - simpl. lia.
  - simpl. lia.
  - vm_compute. reflexivity.
  - vm_compute. reflexivity.
Defined.

Lemma failed_insert_keeps_records_witness :
  let r := SP_InsertRecord 64 page_with_hole (replicate 40 x43) 40 in
  fst (fst r) = SP_ERR_NOSPACE /\ snd r = None /\
  forall s, get_bytes (snd (fst r)) s = get_bytes page_with_hole s.
Proof.
  intros r.
  destruct (failed_insert_keeps_records 64 ltac:(lia) page_with_hole
              (replicate 40 x43) 40 (fst (fst r)) (snd (fst r)) (snd r)
              page_with_hole_inv) as (H1 & H2 & _ & _ & _ & H3).
  - simpl. lia.
  - vm_compute. reflexivity.
  - vm_compute. discriminate.
  - split; [exact H1|]. split; [exact H2|exact H3].
Defined.

Lemma order_array_large_enough_witness :
  hdr_slotCount page_with_hole <= SP_MAX_SLOTS 64.
Proof.
  apply (order_array_large_enough 64 ltac:(lia) page_with_hole
           page_with_hole_inv).
Defined.

(** The scan of [page_with_hole] steps over the tombstone in slot 0. *)
Lemma scan_returns_next_live_witness :
  live page_with_hole 1 /\
  (forall k, -1 < k < 1 -> ~ live page_with_hole k) /\
  SP_GetRecord page_with_hole 1
    = (SP_OK, snd (SP_GetNextRecord page_with_hole (-1))).
Proof.
  destruct (scan_returns_next_live page_with_hole (-1) 1
              (snd (SP_GetNextRecord page_with_hole (-1))))
    as (_ & H1 & H2 & H3).
  - vm_compute. split; [discriminate|reflexivity].
  - vm_compute. reflexivity.
  - split; [exact H1|]. split; [exact H2|exact H3].
Defined.

(** An input of four lines: two records, an empty line and a heading. *)
Definition four_lines : list byte :=
  [x31; x3b; x41; x0a] ++ [x0d; x0a] ++ [x52; x6f; x6c; x6c; x0a]
  ++ [x32; x3b; x42; x43].

Definition loaded_four_lines : PFfile * StudentStore * Z * Z :=
  Eval vm_compute in
    match load_lines 64 20 [] (mkStore 3 (-1) 0 0) 0 0 four_lines with
    | Some (inr r) => r
    | _ => ([], mkStore 3 (-1) 0 0, 0, 0)
    end.

Definition loaded_long_line : PFfile * StudentStore * Z * Z :=
  Eval vm_compute in
    match load_lines 64 5 [] (mkStore 3 (-1) 0 0) 0 0 long_line_input with
    | Some (inr r) => r
    | _ => ([], mkStore 3 (-1) 0 0, 0, 0)
    end.

Lemma load_accounting_witness :
  let f := fst (fst (fst loaded_long_line)) in
  accepted_count (input_pieces long_line_input) = 1 /\
  scanCount (Z.to_nat 40000) f = Some 1 /\
  computeUsage (Z.to_nat 40000) f = Some (1, 3).
Proof.
  intros f.
  destruct (load_accounting 64 ltac:(lia) 3 long_line_input 5
              (Z.to_nat 40000) f (snd (fst (fst loaded_long_line)))
              (snd (fst loaded_long_line)) (snd loaded_long_line))
    as (H0 & _ & _ & H1 & H2).
  - vm_compute. reflexivity.
  - vm_compute. reflexivity.
  - split; [symmetry; exact H0|]. split; [exact H1|exact H2].
Defined.

Lemma delete_step_not_positive_witness :
  deleteEvery (Z.to_nat 40000) two_pages 0 = Some (0, two_pages).
Proof.
  apply (delete_step_not_positive two_pages 0 (Z.to_nat 40000)).
  - lia.
  - repeat constructor; apply Z.leb_le; vm_compute; reflexivity.
  - simpl. lia.
Defined.

Lemma load_then_delete_witness :
  exists f',
    deleteEvery (Z.to_nat 40000) (fst (fst (fst loaded_four_lines))) 2
      = Some (1, f') /\
    scanCount (Z.to_nat 40000) f' = Some 1.
Proof.
  destruct (load_then_delete 64 3 four_lines 2 20%nat (Z.to_nat 40000)
              (fst (fst (fst loaded_four_lines)))
              (snd (fst (fst loaded_four_lines)))
              (snd (fst loaded_four_lines)) (snd loaded_four_lines))
    as (f' & H1 & H2 & _).
  - lia.
  - vm_compute. reflexivity.
  - lia.
  - vm_compute. reflexivity.
  - exists f'. split; [exact H1|exact H2].
Defined.

(** 100 records on pages of 4096 bytes: 32 slots of 128 bytes, or 16 of
    256, to the page; the lengths 0 and 5000 give no row. *)
Lemma static_layout_pages_witness :
  static_rows 4096 [128; 0; 5000; 256] 100
  = [(128, 4, 16384); (256, 7, 28672)] /\
  map (fun r => fst (fst r)) (static_rows 4096 [128; 0; 5000; 256] 100)
  = filter (fun m => 0 < m <= 4096) [128; 0; 5000; 256].
Proof.
  split; [vm_compute; reflexivity|].
  apply (static_layout_pages 4096 [128; 0; 5000; 256] 100).
  - lia.
  - split; [lia|reflexivity].
Defined.

(** MRU and mru. *)
Lemma equalsIgnoreCase_spec_witness :
  equalsIgnoreCase (Some [x4d; x52; x55]) (Some [x6d; x72; x75]) = 1.
Proof.
  destruct (equalsIgnoreCase_spec [x4d; x52; x55] [x6d; x72; x75])
    as (H & _).
  - repeat (constructor; [vm_compute; discriminate|]). constructor.
  - repeat (constructor; [vm_compute; discriminate|]). constructor.
  - rewrite H. vm_compute. reflexivity.
Defined.

Definition three_records : list RecordKey :=
  [mkRecordKey 101 1; mkRecordKey 102 2; mkRecordKey 103 3].

Lemma shuffle_is_permutation_witness :
  exists records',
    shuffleRecords (fun n => Z.of_nat n + 1) three_records 3
      = Some records' /\
    Permutation records' three_records.
Proof.
  destruct (shuffle_is_permutation (fun n => Z.of_nat n + 1)
              three_records 3) as (records' & H1 & H2 & _).
  - intros n. lia.
  - simpl. lia.
  - exists records'. split; [exact H1|exact H2].
Defined.

Lemma queries_are_loaded_keys_witness :
  exists keys,
    selectQueries (fun n => Z.of_nat n + 4) three_records 3 2 = Some keys /\
    Z.of_nat (length keys) = 2.
Proof.
  destruct (queries_are_loaded_keys (fun n => Z.of_nat n + 4)
              three_records 3 2) as (keys & H1 & H2 & _).
  - intros n. lia.
  - simpl. lia.
  - lia.
  - exists keys. split; [exact H1|exact H2].
Defined.

(** The value of a string of decimal digits, as [atoi] returns it for a
    string without white space or sign whose value fits an [int]. *)
Definition digits_value (s : list byte) : Z :=
  (fix go (s : list byte) (acc : Z) : Z :=
     match s with
     | c :: rest =>
         if isdigit c then go rest (acc * 10 + (Z_of_byte c - 48)) else acc
     | [] => acc
     end) s 0.

(** The mix 8:0. *)
Lemma accepted_mix_witness :
  parseMix digits_value [x38; x3a; x30] (mkWorkloadSpec 8 2)
    = (0, mkWorkloadSpec 8 0) /\
  forall rnd, 0 <= rnd -> op_isWrite (mkWorkloadSpec 8 0) rnd = false.
Proof.
  assert (H : parseMix digits_value [x38; x3a; x30] (mkWorkloadSpec 8 2)
              = (0, mkWorkloadSpec 8 0)) by (vm_compute; reflexivity).
  split; [exact H|].
  destruct (accepted_mix digits_value [x38; x3a; x30] (mkWorkloadSpec 8 2)
              (mkWorkloadSpec 8 0) H) as (_ & _ & _ & _ & H5).
  intros rnd Hrnd.
  destruct (H5 ltac:(simpl; reflexivity) rnd Hrnd) as (_ & H6 & _).
  apply H6. reflexivity.
Defined.

(** With pages of 64 bytes an input of 52 digits is loaded; the 4098-byte
    line of [long_line_input] is loaded too, because its first 4095 bytes
    are skipped. *)
Lemma load_succeeds_iff_lines_fit_witness :
  (exists s, load_lines 64 60 [] (mkStore 3 (-1) 0 0) 0 0
               (replicate 52 x31) = Some (inr s)) /\
  load_lines 64 60 [] (mkStore 3 (-1) 0 0) 0 0 (replicate 53 x31)
    = Some (inl 1).
Proof.
  split; [|vm_compute; reflexivity].
  destruct (load_succeeds_iff_lines_fit 64 ltac:(lia) 3 (replicate 52 x31)
              60%nat) as (r & Heq & Hiff & _).
  - simpl. lia.
  - destruct Hiff as [_ Hfit].
    destruct Hfit as [s ->].
    + constructor; [|constructor]. vm_compute. discriminate.
    + exists s. exact Heq.
Defined.

Lemma whole_lines_read_witness :
  input_pieces ([x31; x0a] ++ [x0a] ++ [x32; x33]) =
  [[x31; x0a]; [x0a]; [x32; x33]].
Proof.
  apply (whole_lines_read [[x31]; []] [x32; x33]).
  - repeat constructor; try (vm_compute; discriminate); simpl; lia.
  - repeat constructor; vm_compute; discriminate.
  - simpl. lia.
Defined.

(** On an empty store with pages of 64 bytes a record of 52 bytes is
    stored and one of 53 bytes is refused. *)
Lemma insertRecord_succeeds_iff_fits_witness :
  fst (fst (insertRecord 64 [] (mkStore 3 (-1) 0 0) (replicate 52 x31) 52))
    = SP_OK /\
  fst (fst (insertRecord 64 [] (mkStore 3 (-1) 0 0) (replicate 53 x31) 53))
    <> SP_OK.
Proof.
  assert (H0 : store_ok 64 [] (mkStore 3 (-1) 0 0)).
  { split; [constructor|]. cbn. split; [reflexivity|]. split; [reflexivity|].
    left. split; [lia|reflexivity]. }
  destruct (insertRecord_succeeds_iff_fits 64 [] (mkStore 3 (-1) 0 0)
              (replicate 52 x31) 52 ltac:(lia) H0 ltac:(simpl; lia))
    as [H52 _].
  destruct (insertRecord_succeeds_iff_fits 64 [] (mkStore 3 (-1) 0 0)
              (replicate 53 x31) 53 ltac:(lia) H0 ltac:(simpl; lia))
    as [H53 _].
  split; [apply H52; lia|]. intros H. apply H53 in H. lia.
Defined.
